(** * DevOps Sentinel: the safe prober and the monitoring orchestrator

    A shallow embedding of
    - [src/api/quick_health_check.py] (class [QuickHealthCheck]): module [Prober];
    - [orchestrator.py] (class [MonitoringOrchestrator]): module [Orchestrator];
    and the properties of the specification that are about them.

    Everything outside the two classes (DNS, HTTP, TLS, the clock, the
    health-check tool, the agent crew, the persistence client) is an oracle
    held in an environment record, so that every statement below is
    quantified over all behaviours of the outside world. *)

From stdpp Require Import gmap strings list fin_maps pretty.
From Stdlib Require Import ZArith Lia Ascii String.

#[local] Set Warnings "-register-all".
#[local] Open Scope Z_scope.

(** ** Python strings (shared by the two modules) *)

Module PyStr.

(** [s.startswith(p)] *)
Definition startswith (p s : string) : bool := String.prefix p s.

(** [sub in s] for two [str]: naive left-to-right substring search. *)
Fixpoint contains (sub s : string) : bool :=
  if String.prefix sub s then true
  else match s with
       | EmptyString => false
       | String _ s' => contains sub s'
       end.

Definition ascii_lower (c : ascii) : ascii :=
  let n := nat_of_ascii c in
  if ((65 <=? n)%nat && (n <=? 90)%nat)%bool then ascii_of_nat (n + 32) else c.

(** [s.lower()] on the ASCII range (the only letters of the alias table). *)
Fixpoint lower (s : string) : string :=
  match s with
  | EmptyString => EmptyString
  | String c s' => String (ascii_lower c) (lower s')
  end.

Definition is_empty (s : string) : bool :=
  match s with EmptyString => true | _ => false end.

End PyStr.

(** ** The prober: [src/api/quick_health_check.py] *)

Module Prober.

(** *** Values and dictionaries

    [check_url] and its helpers build and return Python [dict]s with string
    keys; they are finite maps here and [result.update(d)] is the left-biased
    union [d ∪ result]. *)

Inductive value :=
| VNone
| VBool (b : bool)
| VInt (z : Z)
| VMs (microseconds : Z)     (* a float number of milliseconds, kept exactly *)
| VStr (s : string)
| VList (l : list string)
| VDict (d : gmap string value).

Abbreviation dict := (gmap string value).

Definition dict_of (l : list (string * value)) : dict := list_to_map l.

(** [d.get(k, dflt)] *)
Definition dict_get (d : dict) (k : string) (dflt : value) : value :=
  default dflt (d !! k).

Definition as_dict (v : value) : dict :=
  match v with VDict d => d | _ => ∅ end.

Definition as_int (v : value) : Z :=
  match v with VInt z => z | VBool true => 1 | _ => 0 end.

Definition as_microseconds (v : value) : Z :=
  match v with VMs us => us | VInt z => z * 1000 | _ => 0 end.

(** Python truthiness. *)
Definition truthy (v : value) : bool :=
  match v with
  | VNone => false
  | VBool b => b
  | VInt z => negb (z =? 0)
  | VMs us => negb (us =? 0)
  | VStr s => negb (PyStr.is_empty s)
  | VList l => match l with [] => false | _ => true end
  | VDict d => negb (bool_decide (d = ∅))
  end.

(** [a and b]: the first operand when it is falsy, else the second. *)
Definition py_and (a b : value) : value := if truthy a then b else a.

(** [v in range(lo, hi)] *)
Definition in_range (v : value) (lo hi : Z) : bool :=
  match v with
  | VInt z => (lo <=? z) && (z <? hi)
  | VBool b => let z := if b then 1 else 0 in (lo <=? z) && (z <? hi)
  | _ => false
  end.

(** *** The outside world *)

Inductive exn :=
| TimeoutError               (* asyncio.TimeoutError *)
| ClientError (msg : string) (* aiohttp.ClientError *)
| SSLError (msg : string)    (* ssl.SSLError *)
| ValueError (msg : string)
| OSError (msg : string).    (* socket.gaierror and other failures *)

Definition str_of_exn (e : exn) : string :=
  match e with
  | TimeoutError => ""
  | ClientError m | SSLError m | ValueError m | OSError m => m
  end.

(** The network operations a probe can perform, in the order it performs them. *)
Inductive event :=
| EvResolve (host : string)                      (* socket.getaddrinfo *)
| EvHttpGet (url : string)                       (* session.get *)
| EvTlsConnect (ip : string) (port : Z) (server_hostname : string).

Abbreviation trace := (list event).

(** The six properties of an [ipaddress] object that the code reads. *)
Record IPAddress := {
  is_loopback : bool;
  is_private : bool;
  is_link_local : bool;
  is_multicast : bool;
  is_reserved : bool;
  is_unspecified : bool;
}.

(** What the code reads of [urlparse(url)]. *)
Record ParseResult := {
  hostname : option string;
  port : option (option Z);          (* [None]: the property raises ValueError *)
}.

(** What the code reads of an aiohttp response. *)
Record Response := {
  status : Z;
  Location : option string;
  Content_Length : option string;
  Server : option string;
  Content_Type : option string;
}.

(** What the code reads of [ssock.getpeercert()]. *)
Record Certificate := {
  notAfter : option string;
  issuer_organizationName : option string;
}.

(** The library and network functions the class calls.  The ones that talk to
    the network or read the clock take the history of the probe so far, so
    their answers may change from one call to the next (DNS rebinding, a
    server that answers differently each time). *)
Record Env := {
  urlparse : string → option ParseResult;          (* [None]: ValueError *)
  urljoin : string → string → string;
  getaddrinfo : trace → string → option (list string);  (* [None]: gaierror *)
  ip_address : string → option IPAddress;           (* [None]: ValueError *)
  session_get : trace → string → Z → Response + exn;
  getpeercert : trace → string → Z → string → Certificate + exn;
  utcnow : trace → Z;                               (* microseconds *)
  isoformat : Z → string;
  strptime : string → option Z;                     (* '%b %d %H:%M:%S %Y %Z' *)
  str_isdigit : string → bool;
  int_of_str : string → option Z;                   (* [None]: ValueError *)
}.

(** *** Computations: a history of network events, exceptions, and fuel for
    the [while True] loop *)

Inductive outcome (A : Type) :=
| Ret (a : A)
| Raise (e : exn)
| OutOfFuel.
Arguments Ret {A} a.
Arguments Raise {A} e.
Arguments OutOfFuel {A}.

Definition M (A : Type) : Type := trace → outcome A * trace.

Definition ret {A} (a : A) : M A := λ tr, (Ret a, tr).

Definition bind {A B} (m : M A) (k : A → M B) : M B :=
  λ tr, match m tr with
        | (Ret a, tr') => k a tr'
        | (Raise e, tr') => (Raise e, tr')
        | (OutOfFuel, tr') => (OutOfFuel, tr')
        end.

Definition raise {A} (e : exn) : M A := λ tr, (Raise e, tr).

Definition out_of_fuel {A} : M A := λ tr, (OutOfFuel, tr).

(** [try: m  except Exception as e: ...]: the exception becomes a value. *)
Definition attempt {A} (m : M A) : M (A + exn) :=
  λ tr, match m tr with
        | (Ret a, tr') => (Ret (inl a), tr')
        | (Raise e, tr') => (Ret (inr e), tr')
        | (OutOfFuel, tr') => (OutOfFuel, tr')
        end.

#[global] Instance M_ret : MRet M := @ret.
#[global] Instance M_bind : MBind M := λ A B k m, bind m k.

Definition of_option {A} (o : option A) (e : exn) : M A :=
  match o with Some a => ret a | None => raise e end.

Definition do_urlparse (env : Env) (url : string) : M ParseResult :=
  of_option (urlparse env url) (ValueError "Invalid URL").

Definition do_getaddrinfo (env : Env) (host : string) : M (list string) :=
  λ tr, (match getaddrinfo env tr host with
         | Some l => Ret l
         | None => Raise (OSError "Name or service not known")
         end, tr ++ [EvResolve host]).

Definition do_ip_address (env : Env) (ip : string) : M IPAddress :=
  of_option (ip_address env ip)
            (ValueError "does not appear to be an IPv4 or IPv6 address").

Definition do_session_get (env : Env) (url : string) (timeout : Z) : M Response :=
  λ tr, (match session_get env tr url timeout with
         | inl r => Ret r
         | inr e => Raise e
         end, tr ++ [EvHttpGet url]).

Definition do_getpeercert (env : Env) (ip : string) (port : Z) (host : string)
  : M Certificate :=
  λ tr, (match getpeercert env tr ip port host with
         | inl c => Ret c
         | inr e => Raise e
         end, tr ++ [EvTlsConnect ip port host]).

Definition do_utcnow (env : Env) : M Z := λ tr, (Ret (utcnow env tr), tr).

(** *** [QuickHealthCheck] *)

Definition DEFAULT_TIMEOUT : Z := 10.

Definition forbidden_message : string :=
  "Forbidden: Access to internal or restricted IP ranges is not allowed.".

Definition local_aliases : list string := ["localhost"; "0.0.0.0"; "::1"].

(** The [if (addr.is_loopback or ... or addr.is_unspecified)] test. *)
Definition restricted (addr : IPAddress) : bool :=
  is_loopback addr || is_private addr || is_link_local addr ||
  is_multicast addr || is_reserved addr || is_unspecified addr.

(** The [for info in addr_info] loop of [_is_safe_hostname]. *)
Fixpoint scan_addr_info (env : Env) (addr_info : list string) : M bool :=
  match addr_info with
  | [] => ret true
  | ip :: rest =>
      addr ← do_ip_address env ip;
      if restricted addr then ret false else scan_addr_info env rest
  end.

(** [_is_safe_hostname]: [hostname] is [None] when the URL has no host. *)
Definition _is_safe_hostname (env : Env) (hostname : option string) : M bool :=
  match hostname with
  | None => ret false
  | Some h =>
      if PyStr.is_empty h then ret false
      else if bool_decide (PyStr.lower h ∈ local_aliases) then ret false
      else
        r ← attempt (addr_info ← do_getaddrinfo env h;
                     scan_addr_info env addr_info);
        match r with
        | inl safe => ret safe
        | inr _ => ret false
        end
  end.

Definition max_redirects : Z := 5.

Definition redirect_statuses : list Z := [301; 302; 303; 307; 308].

Definition forbidden_http_result : dict :=
  dict_of [("status_code", VInt 403);
           ("error", VStr forbidden_message);
           ("healthy", VBool false)].

(** The [return { 'status_code': response.status, ... }] of [_check_http].
    The elapsed time is kept exactly; its rounding to two decimals is not
    modelled. *)
Definition final_http_result (env : Env) (url current_url : string)
    (start_time : Z) (response : Response) : M dict :=
  end_time ← do_utcnow env;
  let elapsed_ms := VMs (end_time - start_time) in
  let content_length := default "0" (Content_Length response) in
  n ← (if str_isdigit env content_length
       then of_option (int_of_str env content_length)
                      (ValueError "invalid literal for int()")
       else ret 0);
  ret (dict_of
         [("status_code", VInt (status response));
          ("response_time_ms", elapsed_ms);
          ("content_length", VInt n);
          ("headers", VDict (dict_of
             [("server", VStr (default "Unknown" (Server response)));
              ("content_type", VStr (default "Unknown" (Content_Type response)))]));
          ("redirected", VBool (negb (String.eqb current_url url)));
          ("final_url", VStr current_url)]).

(** The test for a redirect to follow:
    [if response.status in (301, 302, 303, 307, 308) and redirect_count < max_redirects:
       location = response.headers.get('Location'); if location: ...] *)
Definition redirect_target (response : Response) (redirect_count : Z)
  : option string :=
  if bool_decide (status response ∈ redirect_statuses)
     && (redirect_count <? max_redirects)
  then match Location response with
       | Some location => if PyStr.is_empty location then None else Some location
       | None => None
       end
  else None.

(** The [while True] loop of [_check_http]; one unit of fuel per iteration. *)
Fixpoint _check_http_loop (env : Env) (fuel : nat) (url : string) (timeout : Z)
    (start_time : Z) (current_url : string) (redirect_count : Z) : M dict :=
  match fuel with
  | O => out_of_fuel
  | S fuel' =>
      parsed ← do_urlparse env current_url;
      safe ← _is_safe_hostname env (hostname parsed);
      if negb safe then ret forbidden_http_result
      else
        response ← do_session_get env current_url timeout;
        match redirect_target response redirect_count with
        | Some location =>
            _check_http_loop env fuel' url timeout start_time
              (urljoin env current_url location) (redirect_count + 1)
        | None => final_http_result env url current_url start_time response
        end
  end.

(** [_check_http] *)
Definition _check_http (env : Env) (fuel : nat) (url : string) (timeout : Z)
  : M dict :=
  start_time ← do_utcnow env;
  _check_http_loop env fuel url timeout start_time url 0.

(** The [for info in addr_info] loop of [get_cert]: the first address that is
    not in a restricted range. *)
Fixpoint first_safe_ip (env : Env) (addr_info : list string) : M (option string) :=
  match addr_info with
  | [] => mret None
  | ip :: rest =>
      addr ← do_ip_address env ip;
      if negb (restricted addr) then mret (Some ip) else first_safe_ip env rest
  end.

(** The closure [get_cert] of [_check_ssl]. *)
Definition get_cert (env : Env) (hostname : string) (port : Z) : M Certificate :=
  addr_info ← do_getaddrinfo env hostname;
  safe_ip ← first_safe_ip env addr_info;
  match safe_ip with
  | Some ip =>
      if PyStr.is_empty ip
      then raise (ValueError "No safe public IP address found for host")
      else do_getpeercert env ip port hostname
  | None => raise (ValueError "No safe public IP address found for host")
  end.

Definition microseconds_per_day : Z := 86400 * 1000000.

(** [_check_ssl]: its [try:] block and its two [except] clauses. *)
Definition _check_ssl (env : Env) (url : string) : M dict :=
  r ← attempt (
    parsed ← do_urlparse env url;
    let hostname := hostname parsed in
    port ← of_option (port parsed) (ValueError "Port out of range 0-65535");
    let port := match port with
                | Some p => if p =? 0 then 443 else p
                | None => 443
                end in
    safe ← _is_safe_hostname env hostname;
    if negb safe then
      mret (dict_of [("valid", VBool false); ("error", VStr forbidden_message)])
    else
      cert ← get_cert env (default "" hostname) port;
      let not_after := default "" (notAfter cert) in
      expiry_date ← of_option (strptime env not_after)
                              (ValueError "time data does not match format");
      now ← do_utcnow env;
      let days_until_expiry := (expiry_date - now) `div` microseconds_per_day in
      mret (dict_of
        [("valid", VBool true);
         ("issuer", VStr (default "Unknown" (issuer_organizationName cert)));
         ("expires", VStr not_after);
         ("days_until_expiry", VInt days_until_expiry);
         ("warning", VBool (days_until_expiry <? 30))]));
  match r with
  | inl d => mret d
  | inr (SSLError details) =>
      mret (dict_of [("valid", VBool false);
                     ("error", VStr "SSL certificate error");
                     ("details", VStr details)])
  | inr e =>
      mret (dict_of [("valid", VBool false); ("error", VStr (str_of_exn e))])
  end.

(** [_generate_suggestions]; the thresholds on the response time are in
    microseconds. *)
Definition _generate_suggestions (result : dict) : list string :=
  let status_code := as_int (dict_get result "status_code" (VInt 0)) in
  let response_time := as_microseconds (dict_get result "response_time_ms" (VInt 0)) in
  let ssl_info := as_dict (dict_get result "ssl" (VDict ∅)) in
  let suggestions := [] in
  let suggestions :=
    if 500 <=? status_code then
      suggestions ++ ["Server error detected - check server logs"]
    else if status_code =? 404 then
      suggestions ++ ["Page not found - verify the URL path"]
    else if status_code =? 403 then
      suggestions ++ ["Access forbidden - check authentication"]
    else if status_code =? 401 then
      suggestions ++ ["Unauthorized - credentials required"]
    else if 400 <=? status_code then
      suggestions ++ ["Client error (HTTP " +:+ pretty status_code +:+ ") - check request"]
    else suggestions in
  let suggestions :=
    if 3000 * 1000 <? response_time then
      suggestions ++ ["Very slow response (>3s) - optimize performance"]
    else if 1000 * 1000 <? response_time then
      suggestions ++ ["Slow response (>1s) - consider caching"]
    else if response_time <? 200 * 1000 then
      suggestions ++ ["Excellent response time!"]
    else suggestions in
  let suggestions :=
    if truthy (dict_get ssl_info "warning" VNone) then
      let days := as_int (dict_get ssl_info "days_until_expiry" (VInt 0)) in
      suggestions ++ ["SSL certificate expires in " +:+ pretty days +:+ " days - renew soon"]
    else if negb (truthy (dict_get ssl_info "valid" (VBool true))) then
      suggestions ++ ["SSL certificate invalid - fix immediately"]
    else suggestions in
  if truthy (dict_get result "healthy" VNone)
     && match suggestions with [] => true | _ => false end
  then suggestions ++ ["Everything looks good! Add to monitoring?"]
  else suggestions.

(** One statement of the [try:] block of [check_url]: when it raises, the
    block is left with [result] as the statements before it made it. *)
Definition in_try {A} (result : dict) (m : M A)
    (k : A → M (dict * option exn)) : M (dict * option exn) :=
  r ← attempt m;
  match r with
  | inl a => k a
  | inr e => mret (result, Some e)
  end.

(** The body of the [try:] block of [check_url]: the dictionary as it is when
    the block is left, and the exception that left it, if any. *)
Definition check_url_try (env : Env) (fuel : nat) (url : string) (timeout : Z)
    (result : dict) : M (dict * option exn) :=
  in_try result (_check_http env fuel url timeout) (λ http_result,
  let result := http_result ∪ result in
  in_try result
    (if PyStr.startswith "https://" url
     then ssl_result ← _check_ssl env url;
          mret (<["ssl" := VDict ssl_result]> result)
     else mret result) (λ result,
  let healthy :=
    py_and (VBool (in_range (dict_get result "status_code" (VInt 0)) 200 400))
           (dict_get (as_dict (dict_get result "ssl" (VDict ∅))) "valid" (VBool true)) in
  let result := <["healthy" := healthy]> result in
  let result :=
    <["status" := VStr (if truthy healthy then "healthy" else "unhealthy")]> result in
  let result := <["suggestions" := VList (_generate_suggestions result)]> result in
  mret (result, None))).

(** The three [except] clauses of [check_url]. *)
Definition check_url_except (timeout : Z) (e : exn) (result : dict) : dict :=
  match e with
  | TimeoutError =>
      <["suggestions" := VList ["Server may be overloaded or unreachable";
                                "Check if the URL is correct";
                                "Try again in a few minutes"]]>
      (<["error" := VStr ("Request timed out after " +:+ pretty timeout +:+ " seconds")]>
      (<["status" := VStr "timeout"]> result))
  | ClientError msg =>
      <["suggestions" := VList ["Unable to connect to the server";
                                "Check if the domain exists";
                                "Verify network connectivity"]]>
      (<["error" := VStr msg]>
      (<["status" := VStr "connection_error"]> result))
  | _ =>
      <["error" := VStr (str_of_exn e)]> (<["status" := VStr "error"]> result)
  end.

(** [if not url.startswith(('http://', 'https://')): url = f"https://{url}"] *)
Definition normalize_url (url : string) : string :=
  if PyStr.startswith "http://" url || PyStr.startswith "https://" url
  then url else "https://" +:+ url.

(** [check_url]; [fuel] bounds the iterations of the loop of [_check_http]. *)
Definition check_url (env : Env) (fuel : nat) (url : string) (timeout : option Z)
  : M dict :=
  let timeout := match timeout with
                 | Some t => if t =? 0 then DEFAULT_TIMEOUT else t
                 | None => DEFAULT_TIMEOUT
                 end in
  let url := normalize_url url in
  parsed ← do_urlparse env url;
  safe ← _is_safe_hostname env (hostname parsed);
  if negb safe then
    now ← do_utcnow env;
    mret (dict_of [("url", VStr url);
                   ("checked_at", VStr (isoformat env now));
                   ("status", VStr "error");
                   ("error", VStr forbidden_message);
                   ("healthy", VBool false);
                   ("suggestions", VList ["Please provide a valid public URL"])])
  else
    now ← do_utcnow env;
    let result := dict_of [("url", VStr url);
                           ("checked_at", VStr (isoformat env now));
                           ("status", VStr "unknown");
                           ("healthy", VBool false)] in
    '(result, raised) ← check_url_try env fuel url timeout result;
    let result := match raised with
                  | Some e => check_url_except timeout e result
                  | None => result
                  end in
    mret (<["cta" := VDict (dict_of
             [("message", VStr "Want continuous monitoring?");
              ("action", VStr "Sign up for free - monitor 3 services");
              ("link", VStr "/signup")])]> result).

(** [check_multiple]: the probes of a batch, each with a history of its own
    that starts at [tr].  [asyncio.gather(..., return_exceptions=True)] keeps
    the order of [urls]; a probe that raised is reported as
    [{'url': urls[i], 'error': str(r)}]. *)
Definition check_multiple (env : Env) (fuel : nat) (urls : list string)
    (timeout : option Z) (tr : trace) : list (outcome dict * trace) :=
  (λ url, let r := check_url env fuel url timeout tr in
          match r.1 with
          | Raise e =>
              (Ret (dict_of [("url", VStr url); ("error", VStr (str_of_exn e))]), r.2)
          | _ => r
          end) <$> urls.

(** What the endpoint [quick_check_batch] answers. *)
Inductive batch_response :=
| TooMany (answer : dict)
| Checked (results : list (outcome dict * trace)).

(** The endpoint [POST /api/quick-check/batch]. *)
Definition quick_check_batch (env : Env) (fuel : nat) (urls : list string)
    (timeout : Z) (tr : trace) : batch_response :=
  if (10 <? List.length urls)%nat
  then TooMany (dict_of [("error", VStr "Maximum 10 URLs allowed")])
  else Checked (check_multiple env fuel urls (Some timeout) tr).

(** *** Definitions used to state the properties *)

(** [timeout or self.DEFAULT_TIMEOUT] *)
Definition effective_timeout (timeout : option Z) : Z :=
  match timeout with
  | Some t => if t =? 0 then DEFAULT_TIMEOUT else t
  | None => DEFAULT_TIMEOUT
  end.

(** The dictionary [result] of [check_url] before its [try:] block. *)
Definition initial_result (env : Env) (url : string) (now : Z) : dict :=
  dict_of [("url", VStr url);
           ("checked_at", VStr (isoformat env now));
           ("status", VStr "unknown");
           ("healthy", VBool false)].

(** The dictionary that [check_url] returns for a forbidden target. *)
Definition forbidden_result (env : Env) (url : string) (now : Z) : dict :=
  dict_of [("url", VStr url);
           ("checked_at", VStr (isoformat env now));
           ("status", VStr "error");
           ("error", VStr forbidden_message);
           ("healthy", VBool false);
           ("suggestions", VList ["Please provide a valid public URL"])].

Definition call_to_action : value :=
  VDict (dict_of [("message", VStr "Want continuous monitoring?");
                  ("action", VStr "Sign up for free - monitor 3 services");
                  ("link", VStr "/signup")]).

(** The verdict of [check_url] on the dictionary [r] that holds the answer of
    [_check_http] and, for an https URL, of [_check_ssl]. *)
Definition verdict (r : dict) : value :=
  py_and (VBool (in_range (dict_get r "status_code" (VInt 0)) 200 400))
         (dict_get (as_dict (dict_get r "ssl" (VDict ∅))) "valid" (VBool true)).

(** The end of the [try:] block of [check_url] and its call to action. *)
Definition finished_result (r : dict) : dict :=
  let r2 := <["status" := VStr (if truthy (verdict r) then "healthy" else "unhealthy")]>
              (<["healthy" := verdict r]> r) in
  <["cta" := call_to_action]>
    (<["suggestions" := VList (_generate_suggestions r2)]> r2).

(** [parsed.port or 443] *)
Definition tls_port (port : option Z) : Z :=
  match port with
  | Some p => if p =? 0 then 443 else p
  | None => 443
  end.

Definition is_tls_connect (ev : event) : bool :=
  match ev with EvTlsConnect _ _ _ => true | _ => false end.

(** The number of TLS connections of a history. *)
Definition tls_connects (tr : trace) : nat :=
  List.length (List.filter is_tls_connect tr).

Definition is_dns_lookup (ev : event) : bool :=
  match ev with EvResolve _ => true | _ => false end.

(** The number of DNS lookups of a history. *)
Definition dns_lookups (tr : trace) : nat :=
  List.length (List.filter is_dns_lookup tr).

(** No address of the list is in a restricted range (and each one parses). *)
Definition all_public (env : Env) (addr_info : list string) : bool :=
  forallb (λ ip, match ip_address env ip with
                 | Some addr => negb (restricted addr)
                 | None => false
                 end) addr_info.

Definition is_local_alias (h : string) : bool :=
  bool_decide (PyStr.lower h ∈ local_aliases).

(** The verdict on a host name when the history of the probe is [tr]. *)
Definition safe_at (env : Env) (tr : trace) (hostname : option string) : bool :=
  match hostname with
  | None => false
  | Some h =>
      negb (PyStr.is_empty h) && negb (is_local_alias h) &&
      match getaddrinfo env tr h with
      | Some addr_info => all_public env addr_info
      | None => false
      end
  end.

(** The DNS lookups that the verdict takes. *)
Definition lookups (hostname : option string) : trace :=
  match hostname with
  | None => []
  | Some h => if PyStr.is_empty h || is_local_alias h then [] else [EvResolve h]
  end.

(** The dictionary that a run returns (empty when it does not return). *)
Definition returned (r : outcome dict * trace) : dict :=
  match r.1 with Ret d => d | _ => ∅ end.

(** Does the run return a dictionary? *)
Definition returns (r : outcome dict * trace) : bool :=
  match r.1 with Ret _ => true | _ => false end.

(** The value under a key of the dictionary that a run returns:
    [Some None] when the run returns a dictionary without that key. *)
Definition field (r : outcome dict * trace) (k : string) : option (option value) :=
  match r.1 with Ret d => Some (d !! k) | _ => None end.

Definition is_http_get (ev : event) : bool :=
  match ev with EvHttpGet _ => true | _ => false end.

(** The number of HTTP requests of a history. *)
Definition http_requests (tr : trace) : nat :=
  List.length (List.filter is_http_get tr).

(** The suggestion of [_generate_suggestions] for a certificate that expires
    in [days] days. *)
Definition renew_soon (days : Z) : string :=
  "SSL certificate expires in " +:+ pretty days +:+ " days - renew soon".

End Prober.

(** ** The orchestrator: [orchestrator.py] *)

Module Orchestrator.

Abbreviation UUID := N.

(** Modelled from the spec: the enumeration [IncidentStatus] of [models.py],
    which is not among the sources.  Section 4.3 gives its states and their
    order of progression. *)
Inductive IncidentStatus := DETECTING | ALERTING | INVESTIGATING | RESOLVED.

(** Modelled from the spec: the enumeration [IncidentSeverity] of [models.py]
    (section 3: HIGH or MEDIUM). *)
Inductive IncidentSeverity := HIGH | MEDIUM.

#[global] Instance IncidentStatus_eq_dec : EqDecision IncidentStatus.
Proof. solve_decision. Defined.

(** Modelled from the spec: the record [ServiceConfig] of [models.py]
    (section 3), with the attributes the orchestrator reads. *)
Module ServiceConfig.
Record t := mk {
  id : UUID;
  name : string;
  url : string;
  check_interval : Z;
  is_active : bool;
}.
End ServiceConfig.

(** Modelled from the spec: the record [HealthCheckResult] of [models.py],
    with the attributes [check_service] gives it.  Durations are kept in
    microseconds. *)
Module HealthCheckResult.
Record t := mk {
  service_id : UUID;
  status_code : option Z;
  response_time_ms : Z;
  is_healthy : bool;
  error_message : option string;
}.
End HealthCheckResult.

(** Modelled from the spec: an entry of an incident's timeline (section 3,
    Event). *)
Module TimelineEvent.
Record t := mk {
  timestamp : Z;
  event_type : string;
  description : string;
  agent : string;
}.
End TimelineEvent.

(** Modelled from the spec: the record [Incident] of [models.py] (section 3).
    Timestamps and the two durations are in microseconds, the resolution of
    [datetime]; an attribute that is [None] in Python is [None] here.  A new
    incident gets an identity of its own and the time of its construction as
    [detected_at]; its optional attributes start as [None] and its timeline
    empty. *)
Module Incident.
Record t := mk {
  id : UUID;
  service_id : UUID;
  service_name : string;
  service_url : string;
  status : IncidentStatus;
  severity : IncidentSeverity;
  detected_at : Z;
  resolved_at : option Z;
  mttd_seconds : option Z;
  mttr_seconds : option Z;
  error_code : option Z;
  error_message : option string;
  timeline : list TimelineEvent.t;
  action_plan : option string;
}.

Definition set_status (s : IncidentStatus) (i : t) : t :=
  mk (id i) (service_id i) (service_name i) (service_url i) s (severity i)
     (detected_at i) (resolved_at i) (mttd_seconds i) (mttr_seconds i)
     (error_code i) (error_message i) (timeline i) (action_plan i).

Definition set_resolved_at (v : option Z) (i : t) : t :=
  mk (id i) (service_id i) (service_name i) (service_url i) (status i) (severity i)
     (detected_at i) v (mttd_seconds i) (mttr_seconds i)
     (error_code i) (error_message i) (timeline i) (action_plan i).

Definition set_mttd_seconds (v : option Z) (i : t) : t :=
  mk (id i) (service_id i) (service_name i) (service_url i) (status i) (severity i)
     (detected_at i) (resolved_at i) v (mttr_seconds i)
     (error_code i) (error_message i) (timeline i) (action_plan i).

Definition set_mttr_seconds (v : option Z) (i : t) : t :=
  mk (id i) (service_id i) (service_name i) (service_url i) (status i) (severity i)
     (detected_at i) (resolved_at i) (mttd_seconds i) v
     (error_code i) (error_message i) (timeline i) (action_plan i).

Definition set_action_plan (v : option string) (i : t) : t :=
  mk (id i) (service_id i) (service_name i) (service_url i) (status i) (severity i)
     (detected_at i) (resolved_at i) (mttd_seconds i) (mttr_seconds i)
     (error_code i) (error_message i) (timeline i) v.

(** Modelled from the spec: the method [add_event] of [models.py]; the
    timeline is ordered and append-only (section 3), and the method changes
    nothing else. *)
Definition add_event (now : Z) (event_type description agent : string) (i : t) : t :=
  mk (id i) (service_id i) (service_name i) (service_url i) (status i) (severity i)
     (detected_at i) (resolved_at i) (mttd_seconds i) (mttr_seconds i)
     (error_code i) (error_message i)
     (timeline i ++ [TimelineEvent.mk now event_type description agent])
     (action_plan i).
End Incident.

(** *** The outside world *)

(** The payload of a lifecycle event. *)
Inductive pval :=
| PStr (s : string)
| PNum (z : Z)
| PBool (b : bool)
| PNone.

Abbreviation payload := (list (string * pval)).

(** What the orchestrator does to the outside, in order. *)
Inductive effect :=
| Printed (line : string)
| Notified (callback : nat) (event_type : string) (data : payload)
| ToolRun (url : string)                  (* health_check_tool._arun *)
| CrewImported                            (* from crewai / agents / tasks import ... *)
| CrewBuilt (url : string)                (* SentinelAgents(), SentinelTasks(), the four tasks *)
| CrewKickoff (url : string)              (* crew.kickoff() *)
| Persisted (incident : UUID)             (* create_incident and update_incident *)
| Slept (seconds : Z).                    (* asyncio.sleep *)

(** An event callback: [Some msg] when the call raises [Exception(msg)]. *)
Abbreviation callback := (string → payload → option string).

(** The collaborators of the orchestrator.  Each takes the effects so far, so
    its answer may change from call to call. *)
Record Env := {
  health_check_tool : list effect → string → string + string;
                                    (* [tools.py]: the output, or [inr msg]: raises *)
  crew_import : list effect → option string;               (* [Some msg]: raises *)
  crew_build : list effect → string → option string;       (* [Some msg]: raises *)
  crew_kickoff : list effect → string → string + string;   (* [inr msg]: raises *)
  supabase_is_connected : bool;
  supabase_save : list effect → UUID → option string;      (* [Some msg]: raises *)
  utcnow : nat → Z;                 (* the n-th reading of the clock, microseconds *)
  int_of_str : string → option Z;   (* [int(s)]; [None]: ValueError *)
  check_interval_seconds : Z;       (* settings.check_interval_seconds *)
  enable_privacy_logging : bool;    (* settings.enable_privacy_logging *)
}.

(** *** The state of a [MonitoringOrchestrator]

    The four attributes of the class, and three components of the model: the
    source of fresh incident identifiers, the number of clock readings made,
    and the effects performed. *)
Record State := mkState {
  services : gmap UUID ServiceConfig.t;
  active_incidents : gmap UUID Incident.t;
  is_running : bool;
  _callbacks : list callback;
  next_uuid : UUID;
  clock_reads : nat;
  log : list effect;
}.

(** [MonitoringOrchestrator.__init__] *)
Definition init : State := mkState ∅ ∅ false [] 0%N 0%nat [].

Definition set_services (v : gmap UUID ServiceConfig.t) (st : State) : State :=
  mkState v (active_incidents st) (is_running st) (_callbacks st)
          (next_uuid st) (clock_reads st) (log st).

Definition set_active_incidents (v : gmap UUID Incident.t) (st : State) : State :=
  mkState (services st) v (is_running st) (_callbacks st)
          (next_uuid st) (clock_reads st) (log st).

Definition set_is_running (v : bool) (st : State) : State :=
  mkState (services st) (active_incidents st) v (_callbacks st)
          (next_uuid st) (clock_reads st) (log st).

Definition set_callbacks (v : list callback) (st : State) : State :=
  mkState (services st) (active_incidents st) (is_running st) v
          (next_uuid st) (clock_reads st) (log st).

Definition perform (e : effect) (st : State) : State :=
  mkState (services st) (active_incidents st) (is_running st) (_callbacks st)
          (next_uuid st) (clock_reads st) (log st ++ [e]).

(** [datetime.utcnow()] / [time.time()] *)
Definition read_clock (env : Env) (st : State) : Z * State :=
  (utcnow env (clock_reads st),
   mkState (services st) (active_incidents st) (is_running st) (_callbacks st)
           (next_uuid st) (S (clock_reads st)) (log st)).

(** Modelled from the spec: the default of [Incident.id] ([models.py]), an
    identity that no other incident has (section 3).  Identifiers are drawn
    from a counter. *)
Definition fresh_uuid (st : State) : UUID * State :=
  (next_uuid st,
   mkState (services st) (active_incidents st) (is_running st) (_callbacks st)
           (N.succ (next_uuid st)) (clock_reads st) (log st)).

(** *** Strings of the health-check tool *)

(** [s.split(sep)] for a non-empty [sep]; [skip] characters of [s] still
    belong to the separator that was just matched. *)
Fixpoint split_from (sep : string) (skip : nat) (s : string) : list string :=
  match s with
  | EmptyString => [EmptyString]
  | String c s' =>
      match skip with
      | S k => split_from sep k s'
      | O =>
          if String.prefix sep s
          then EmptyString :: split_from sep (String.length sep - 1) s'
          else match split_from sep 0 s' with
               | piece :: rest => String c piece :: rest
               | [] => [String c EmptyString]
               end
      end
  end.

Definition split (sep s : string) : list string := split_from sep 0 s.

Definition is_space (c : ascii) : bool :=
  let n := nat_of_ascii c in
  ((9 <=? n)%nat && (n <=? 13)%nat) || ((28 <=? n)%nat && (n <=? 32)%nat).

Fixpoint lstrip (s : string) : string :=
  match s with
  | String c s' => if is_space c then lstrip s' else s
  | EmptyString => EmptyString
  end.

Fixpoint rstrip (s : string) : string :=
  match s with
  | String c s' =>
      match rstrip s' with
      | EmptyString => if is_space c then EmptyString else String c EmptyString
      | r => String c r
      end
  | EmptyString => EmptyString
  end.

(** [s.strip()] *)
Definition strip (s : string) : string := rstrip (lstrip s).

Definition newline : string := String (ascii_of_nat 10) EmptyString.

(** The [if "Status Code:" in result_str: try: ... except: pass] of
    [check_service]. *)
Definition parse_status_code (env : Env) (result_str : string) : option Z :=
  if PyStr.contains "Status Code:" result_str then
    match split "Status Code:" result_str !! 1%nat with
    | Some after =>
        match split newline after !! 0%nat with
        | Some code_str => int_of_str env (strip code_str)
        | None => None
        end
    | None => None
    end
  else None.

(** The test [is_healthy = "FAILED" not in result_str and "200" in result_str]
    of [check_service]. *)
Definition output_is_healthy (result_str : string) : bool :=
  negb (PyStr.contains "FAILED" result_str) && PyStr.contains "200" result_str.

(** *** The registry and the observers *)

Definition add_service (env : Env) (service : ServiceConfig.t) (st : State) : State :=
  let st := set_services (<[ServiceConfig.id service := service]> (services st)) st in
  if enable_privacy_logging env
  then perform (Printed ("[PRIVACY] Service added: " +:+ ServiceConfig.name service
                         +:+ " (" +:+ ServiceConfig.url service +:+ ")")) st
  else st.

Definition remove_service (service_id : UUID) (st : State) : State :=
  match services st !! service_id with
  | Some _ => set_services (delete service_id (services st)) st
  | None => st
  end.

Definition on_event (cb : callback) (st : State) : State :=
  set_callbacks (_callbacks st ++ [cb]) st.

Definition stop (st : State) : State := set_is_running false st.

(** [_emit_event]: every callback is called; one that raises is reported on
    the console and the next one is called.  A callback is an observer: it
    does not call back into the orchestrator. *)
Definition _emit_event (event_type : string) (data : payload) (st : State) : State :=
  foldl (λ st '(i, cb),
           let st := perform (Notified i event_type data) st in
           match cb event_type data with
           | Some e => perform (Printed ("[ERROR] Event callback failed: " +:+ e)) st
           | None => st
           end)
        st (imap pair (_callbacks st)).

(** *** The coroutine [_check_and_handle]

    The coroutine of one service is a frame: the statement it resumes at and
    its local variables.  A frame is resumed for one block of statements at a
    time.  The blocks end at the [await]s of the source and, inside
    [_trigger_agent_response], at each assignment of [incident.status] and at
    each call of a collaborator, so that no state the incident goes through
    is skipped; a block runs without interruption. *)
Inductive frame :=
| AtCheckService (service : ServiceConfig.t)
| AtToolResult (service : ServiceConfig.t) (start_time : Z) (r : string + string)
| AtHandle (service : ServiceConfig.t) (result : HealthCheckResult.t)
| AtTrigger (incident : UUID)
| AtCrewBuild (incident : UUID)
| AtKickoff (incident : UUID)
| AtResults (incident : UUID) (result : string)
| AtSave (incident : UUID)
| Finished
| Failed (msg : string).

(** Modelled from the spec: the [value] of an [IncidentStatus] ([models.py]),
    the tag that lifecycle events carry. *)
Definition status_value (s : IncidentStatus) : string :=
  match s with
  | DETECTING => "detecting"
  | ALERTING => "alerting"
  | INVESTIGATING => "investigating"
  | RESOLVED => "resolved"
  end.

(** Modelled from the spec: the [value] of an [IncidentSeverity]
    ([models.py]). *)
Definition severity_value (s : IncidentSeverity) : string :=
  match s with HIGH => "high" | MEDIUM => "medium" end.

Definition str_of_option_int (o : option Z) : string :=
  match o with Some z => pretty z | None => "None" end.

Definition pnum (o : option Z) : pval :=
  match o with Some z => PNum z | None => PNone end.

(** [check_service], up to [await health_check_tool._arun(service.url)]. *)
Definition check_service_call (env : Env) (service : ServiceConfig.t) (st : State)
  : frame * State :=
  let '(start_time, st) := read_clock env st in
  let r := health_check_tool env (log st) (ServiceConfig.url service) in
  let st := perform (ToolRun (ServiceConfig.url service)) st in
  (AtToolResult service start_time r, st).

(** [check_service], from the answer of the tool to the [health_check] event. *)
Definition check_service_result (env : Env) (service : ServiceConfig.t)
    (start_time : Z) (r : string + string) (st : State) : frame * State :=
  match r with
  | inr msg => (Failed msg, st)
  | inl result_str =>
      let '(now, st) := read_clock env st in
      let response_time := now - start_time in
      let is_healthy := output_is_healthy result_str in
      let status_code := parse_status_code env result_str in
      let result :=
        HealthCheckResult.mk (ServiceConfig.id service) status_code response_time
          is_healthy (if is_healthy then None else Some result_str) in
      let '(now, st) := read_clock env st in
      let st := _emit_event "health_check"
                  [("service_id", PStr (pretty (ServiceConfig.id service)));
                   ("service_name", PStr (ServiceConfig.name service));
                   ("is_healthy", PBool is_healthy);
                   ("response_time_ms", PNum response_time);
                   ("timestamp", PNum now)] st in
      (AtHandle service result, st)
  end.

(** The loop [for incident in self.active_incidents.values()] of
    [_handle_failure]: is an incident of this service being tracked? *)
Definition already_tracking (service_id : UUID)
    (incidents : gmap UUID Incident.t) : bool :=
  existsb (λ incident, bool_decide (Incident.service_id incident = service_id)
                       && negb (bool_decide (Incident.status incident = RESOLVED)))
          (map_to_list incidents).*2.

(** [_handle_failure], up to [await self._emit_event("incident_created", ...)]. *)
Definition _handle_failure (env : Env) (service : ServiceConfig.t)
    (result : HealthCheckResult.t) (st : State) : frame * State :=
  if already_tracking (ServiceConfig.id service) (active_incidents st)
  then (Finished, st)
  else
    let '(id, st) := fresh_uuid st in
    let '(detected_at, st) := read_clock env st in
    let status_code := HealthCheckResult.status_code result in
    let severity :=
      match status_code with
      | Some c => if negb (c =? 0) && (500 <=? c) then HIGH else MEDIUM
      | None => MEDIUM
      end in
    let incident :=
      Incident.mk id (ServiceConfig.id service) (ServiceConfig.name service)
        (ServiceConfig.url service) DETECTING severity detected_at None None None
        status_code (HealthCheckResult.error_message result) [] None in
    let '(now, st) := read_clock env st in
    let incident := Incident.set_mttd_seconds (Some (now - detected_at)) incident in
    let '(now, st) := read_clock env st in
    let incident :=
      Incident.add_event now "detected"
        ("Service failure detected. Status: " +:+ str_of_option_int status_code)
        "MonitoringOrchestrator" incident in
    let st := set_active_incidents (<[id := incident]> (active_incidents st)) st in
    let st := _emit_event "incident_created"
                [("incident_id", PStr (pretty id));
                 ("service_name", PStr (ServiceConfig.name service));
                 ("severity", PStr (severity_value severity));
                 ("mttd_seconds", pnum (Incident.mttd_seconds incident))] st in
    (AtTrigger id, st).

(** [_check_and_handle], after [check_service] has returned. *)
Definition handle_result (env : Env) (service : ServiceConfig.t)
    (result : HealthCheckResult.t) (st : State) : frame * State :=
  if negb (HealthCheckResult.is_healthy result)
  then _handle_failure env service result st
  else (Finished, st).

(** [_trigger_agent_response], from its three [import]s (which run the
    imported modules, and may raise) to
    [await self._emit_event("incident_updated", ...)].  The coroutine holds
    the incident object; here it holds its identifier and finds the object in
    [active_incidents], where [_handle_failure] has put it and from where
    nothing removes it. *)
Definition trigger_alerting (env : Env) (id : UUID) (st : State) : frame * State :=
  match active_incidents st !! id with
  | None => (Failed "no such incident", st)
  | Some incident =>
      let imported := crew_import env (log st) in
      let st := perform CrewImported st in
      match imported with
      | Some msg => (Failed msg, st)
      | None =>
          let incident := Incident.set_status ALERTING incident in
          let '(now, st) := read_clock env st in
          let incident :=
            Incident.add_event now "alerting" "Notifying team via Slack"
              "FirstResponder" incident in
          let st := set_active_incidents (<[id := incident]> (active_incidents st)) st in
          let st := _emit_event "incident_updated"
                      [("incident_id", PStr (pretty id));
                       ("status", PStr (status_value (Incident.status incident)))] st in
          (AtCrewBuild id, st)
      end
  end.

(** [_trigger_agent_response], from [agents = SentinelAgents()] to the
    [investigating] event.  The agents and tasks are built by the crew
    library; when that raises, the coroutine ends there. *)
Definition trigger_investigating (env : Env) (id : UUID) (st : State)
  : frame * State :=
  match active_incidents st !! id with
  | None => (Failed "no such incident", st)
  | Some incident =>
      let url := Incident.service_url incident in
      let built := crew_build env (log st) url in
      let st := perform (CrewBuilt url) st in
      match built with
      | Some msg => (Failed msg, st)
      | None =>
          let incident := Incident.set_status INVESTIGATING incident in
          let '(now, st) := read_clock env st in
          let incident :=
            Incident.add_event now "investigating" "Agents analyzing root cause"
              "Investigator" incident in
          let st := set_active_incidents (<[id := incident]> (active_incidents st)) st in
          (AtKickoff id, st)
      end
  end.

(** [result = crew.kickoff()]: the alert, the investigation and the action
    plan all happen inside this call. *)
Definition trigger_kickoff (env : Env) (id : UUID) (st : State) : frame * State :=
  match active_incidents st !! id with
  | None => (Failed "no such incident", st)
  | Some incident =>
      let url := Incident.service_url incident in
      let r := crew_kickoff env (log st) url in
      let st := perform (CrewKickoff url) st in
      match r with
      | inr msg => (Failed msg, st)
      | inl result => (AtResults id result, st)
      end
  end.

(** [_trigger_agent_response], from [incident.action_plan = str(result)] to
    [await self._emit_event("incident_resolved", ...)]. *)
Definition trigger_resolved (env : Env) (id : UUID) (result : string) (st : State)
  : frame * State :=
  match active_incidents st !! id with
  | None => (Failed "no such incident", st)
  | Some incident =>
      let incident := Incident.set_action_plan (Some result) incident in
      let incident := Incident.set_status RESOLVED incident in
      let '(now, st) := read_clock env st in
      let incident := Incident.set_resolved_at (Some now) incident in
      let incident :=
        Incident.set_mttr_seconds (Some (now - Incident.detected_at incident))
          incident in
      let '(now, st) := read_clock env st in
      let incident :=
        Incident.add_event now "resolved" "Action plan generated" "Strategist"
          incident in
      let st := set_active_incidents (<[id := incident]> (active_incidents st)) st in
      let st := _emit_event "incident_resolved"
                  [("incident_id", PStr (pretty id));
                   ("mttr_seconds", pnum (Incident.mttr_seconds incident));
                   ("action_plan", PStr (String.substring 0 500 result))] st in
      (AtSave id, st)
  end.

(** [_trigger_agent_response], the end: [if supabase_client.is_connected: ...]. *)
Definition trigger_save (env : Env) (id : UUID) (st : State) : frame * State :=
  if supabase_is_connected env then
    let r := supabase_save env (log st) id in
    let st := perform (Persisted id) st in
    match r with
    | Some msg => (Failed msg, st)
    | None => (Finished, st)
    end
  else (Finished, st).

(** Resume a coroutine for one block. *)
Definition resume (env : Env) (f : frame) (st : State) : frame * State :=
  match f with
  | AtCheckService service => check_service_call env service st
  | AtToolResult service start_time r => check_service_result env service start_time r st
  | AtHandle service result => handle_result env service result st
  | AtTrigger id => trigger_alerting env id st
  | AtCrewBuild id => trigger_investigating env id st
  | AtKickoff id => trigger_kickoff env id st
  | AtResults id result => trigger_resolved env id result st
  | AtSave id => trigger_save env id st
  | Finished => (Finished, st)
  | Failed msg => (Failed msg, st)
  end.

(** *** The event loop

    A system is the orchestrator and the coroutines that [run] has gathered.
    What happens next is the scheduler's choice: a coroutine is resumed for
    one block, or another coroutine of the process (the API server) calls a
    public method of the orchestrator. *)
Record System := mkSystem {
  pool : list frame;
  orch : State;
}.

Inductive external_call :=
| CallAddService (service : ServiceConfig.t)
| CallRemoveService (service_id : UUID)
| CallOnEvent (cb : callback)
| CallStop.

Definition call (env : Env) (c : external_call) (st : State) : State :=
  match c with
  | CallAddService service => add_service env service st
  | CallRemoveService service_id => remove_service service_id st
  | CallOnEvent cb => on_event cb st
  | CallStop => stop st
  end.

(** [min(iterable, default=d)] *)
Definition py_min (l : list Z) (d : Z) : Z :=
  match l with
  | [] => d
  | x :: l' => foldl Z.min x l'
  end.

(** The services [s for s in self.services.values() if s.is_active]. *)
Definition active_services (st : State) : list ServiceConfig.t :=
  filter (λ s, ServiceConfig.is_active s = true) (map_to_list (services st)).*2.

(** The [min_interval] of [run]. *)
Definition min_interval (env : Env) (st : State) : Z :=
  py_min (ServiceConfig.check_interval <$> active_services st)
         (check_interval_seconds env).

(** The list [tasks] of [run]: one coroutine for each active service. *)
Definition cycle_tasks (st : State) : list frame :=
  AtCheckService <$> active_services st.

Inductive action :=
| StartCycle              (* [tasks = [...]] and the call of [asyncio.gather] *)
| Resume (i : nat)        (* the i-th gathered coroutine runs one block *)
| Call (c : external_call)
| Sleep.                  (* [min_interval = ...; await asyncio.sleep(min_interval)] *)

Definition act (env : Env) (a : action) (sys : System) : System :=
  match a with
  | StartCycle => mkSystem (cycle_tasks (orch sys)) (orch sys)
  | Resume i =>
      match pool sys !! i with
      | Some f =>
          let '(f', st') := resume env f (orch sys) in
          mkSystem (<[i := f']> (pool sys)) st'
      | None => sys
      end
  | Call c => mkSystem (pool sys) (call env c (orch sys))
  | Sleep =>
      mkSystem (pool sys)
               (perform (Slept (min_interval env (orch sys))) (orch sys))
  end.

(** The system after a sequence of actions. *)
Definition exec (env : Env) (acts : list action) (sys : System) : System :=
  foldl (λ sys a, act env a sys) sys acts.

Definition initial : System := mkSystem [] init.

(** The exception of the first coroutine of the pool that has raised. *)
Fixpoint first_failed (fs : list frame) : option string :=
  match fs with
  | [] => None
  | Failed msg :: _ => Some msg
  | _ :: fs' => first_failed fs'
  end.

Definition is_finished (f : frame) : bool :=
  match f with Finished => true | _ => false end.

(** The scheduler's decisions, one for each suspension. *)
Inductive choice :=
| Pick (i : nat)
| Outside (c : external_call).

Inductive gather_outcome :=
| Joined                   (* every coroutine has returned *)
| Threw (msg : string)     (* one has raised: [gather] raises its exception *)
| Pending.                 (* the schedule ends before the coroutines do *)

(** The [await] of [asyncio.gather] on the tasks, under a schedule. *)
Fixpoint gather (env : Env) (sched : list choice) (sys : System)
  : gather_outcome * list choice * System :=
  match first_failed (pool sys) with
  | Some msg => (Threw msg, sched, sys)
  | None =>
      if forallb is_finished (pool sys) then (Joined, sched, sys)
      else match sched with
           | [] => (Pending, [], sys)
           | Pick i :: sched' => gather env sched' (act env (Resume i) sys)
           | Outside c :: sched' => gather env sched' (act env (Call c) sys)
           end
  end.

(** [await asyncio.sleep(min_interval)]: the calls from outside that the
    scheduler puts before the loop wakes up. *)
Fixpoint asleep (env : Env) (sched : list choice) (sys : System)
  : list choice * System :=
  match sched with
  | Outside c :: sched' => asleep env sched' (act env (Call c) sys)
  | _ => (sched, sys)
  end.

(** The first half of an iteration of [run]: the list [tasks] and
    [if tasks: await asyncio.gather(...)]. *)
Definition cycle (env : Env) (sched : list choice) (sys : System)
  : gather_outcome * list choice * System :=
  let sys := act env StartCycle sys in
  match pool sys with
  | [] => (Joined, sched, sys)
  | _ => gather env sched sys
  end.

Inductive run_outcome :=
| Returned                 (* the loop saw [is_running] false *)
| Raised (msg : string)    (* an exception left [run] *)
| Unfinished.              (* the loop is still running when the model stops *)

(** The [while self.is_running] loop of [run], for at most [cycles]
    iterations. *)
Fixpoint run_loop (env : Env) (cycles : nat) (sched : list choice) (sys : System)
  : run_outcome * System :=
  match cycles with
  | O => (Unfinished, sys)
  | S cycles' =>
      if negb (is_running (orch sys)) then (Returned, sys)
      else
        let '(joined, sched, sys) := cycle env sched sys in
        match joined with
        | Threw msg => (Raised msg, sys)
        | Pending => (Unfinished, sys)
        | Joined =>
            let sys := act env Sleep sys in
            let '(sched, sys) := asleep env sched sys in
            run_loop env cycles' sched sys
        end
  end.

(** [MonitoringOrchestrator.run] *)
Definition run (env : Env) (cycles : nat) (sched : list choice) (st : State)
  : run_outcome * System :=
  let st := set_is_running true st in
  let st := perform (Printed "[INFO] Monitoring orchestrator started") st in
  run_loop env cycles sched (mkSystem [] st).

(** *** Definitions used to state the properties *)

Abbreviation incidents sys := (active_incidents (orch sys)).

(** The order of progression of section 4.3. *)
Definition next_status (s : IncidentStatus) : option IncidentStatus :=
  match s with
  | DETECTING => Some ALERTING
  | ALERTING => Some INVESTIGATING
  | INVESTIGATING => Some RESOLVED
  | RESOLVED => None
  end.

Definition status_rank (s : IncidentStatus) : nat :=
  match s with
  | DETECTING => 0
  | ALERTING => 1
  | INVESTIGATING => 2
  | RESOLVED => 3
  end.

(** A status stays as it is or moves to the next one. *)
Definition advances (s s' : IncidentStatus) : Prop :=
  s' = s ∨ next_status s = Some s'.

(** The deduplication invariant: two non-terminal incidents of one service
    are the same incident. *)
Definition dedup (m : gmap UUID Incident.t) : Prop :=
  ∀ k1 k2 i1 i2,
    m !! k1 = Some i1 → m !! k2 = Some i2 →
    Incident.service_id i1 = Incident.service_id i2 →
    Incident.status i1 ≠ RESOLVED → Incident.status i2 ≠ RESOLVED →
    k1 = k2.


(** The incident that a coroutine is going to change, and the status that the
    incident has when the coroutine is resumed. *)
Definition owner (f : frame) : option (UUID * IncidentStatus) :=
  match f with
  | AtTrigger id => Some (id, DETECTING)
  | AtCrewBuild id => Some (id, ALERTING)
  | AtKickoff id => Some (id, INVESTIGATING)
  | AtResults id _ => Some (id, INVESTIGATING)
  | _ => None
  end.


(** The number of blocks that a coroutine has still to run, at most. *)
Definition remaining (f : frame) : nat :=
  match f with
  | AtCheckService _ => 8
  | AtToolResult _ _ _ => 7
  | AtHandle _ _ => 6
  | AtTrigger _ => 5
  | AtCrewBuild _ => 4
  | AtKickoff _ => 3
  | AtResults _ _ => 2
  | AtSave _ => 1
  | Finished | Failed _ => 0
  end.

(** [sub] occurs in [s]. *)
Definition occurs_in (sub s : string) : Prop :=
  ∃ before after, s = before +:+ sub +:+ after.

(** What one block of a coroutine does to the incidents. *)
Inductive resume_spec (env : Env) (f : frame) (st : State) (f' : frame) (st' : State)
  : Prop :=
| rs_quiet :
    active_incidents st' = active_incidents st →
    next_uuid st' = next_uuid st →
    (clock_reads st ≤ clock_reads st')%nat →
    owner f' = None ∨ owner f' = owner f →
    resume_spec env f st f' st'
| rs_create inc :
    owner f = None →
    owner f' = Some (next_uuid st, DETECTING) →
    active_incidents st' = <[next_uuid st := inc]> (active_incidents st) →
    next_uuid st' = N.succ (next_uuid st) →
    (S (S (clock_reads st)) ≤ clock_reads st')%nat →
    already_tracking (Incident.service_id inc) (active_incidents st) = false →
    Incident.status inc = DETECTING →
    Incident.detected_at inc = utcnow env (clock_reads st) →
    Incident.mttd_seconds inc
      = Some (utcnow env (S (clock_reads st)) - utcnow env (clock_reads st)) →
    Incident.mttr_seconds inc = None →
    resume_spec env f st f' st'
| rs_advance id s inc inc' :
    owner f = Some (id, s) →
    active_incidents st !! id = Some inc →
    active_incidents st' = <[id := inc']> (active_incidents st) →
    next_uuid st' = next_uuid st →
    (S (clock_reads st) ≤ clock_reads st')%nat →
    next_status s = Some (Incident.status inc') →
    owner f' = match next_status (Incident.status inc') with
               | Some _ => Some (id, Incident.status inc')
               | None => None
               end →
    Incident.service_id inc' = Incident.service_id inc →
    Incident.detected_at inc' = Incident.detected_at inc →
    Incident.mttd_seconds inc' = Incident.mttd_seconds inc →
    Incident.mttr_seconds inc'
      = match next_status (Incident.status inc') with
        | Some _ => Incident.mttr_seconds inc
        | None => Some (utcnow env (clock_reads st) - Incident.detected_at inc)
        end →
    resume_spec env f st f' st'.

(** The invariant of the event loop. *)
Record Inv (env : Env) (sys : System) : Prop := {
  inv_dedup : dedup (incidents sys);
  inv_fresh : ∀ k inc, incidents sys !! k = Some inc → (k < next_uuid (orch sys))%N;
  inv_owned : ∀ i f id s,
    pool sys !! i = Some f → owner f = Some (id, s) →
    ∃ inc, incidents sys !! id = Some inc ∧ Incident.status inc = s;
  inv_unique : ∀ i j f g id s s',
    pool sys !! i = Some f → pool sys !! j = Some g →
    owner f = Some (id, s) → owner g = Some (id, s') → i = j;
  inv_detected : ∀ k inc,
    incidents sys !! k = Some inc →
    ∃ n, (n < clock_reads (orch sys))%nat ∧ Incident.detected_at inc = utcnow env n;
  inv_mttd : ∀ k inc,
    incidents sys !! k = Some inc →
    ∃ n m, (n ≤ m)%nat ∧ Incident.mttd_seconds inc = Some (utcnow env m - utcnow env n);
  inv_mttr : ∀ k inc,
    incidents sys !! k = Some inc →
    (Incident.status inc ≠ RESOLVED → Incident.mttr_seconds inc = None) ∧
    (∀ r, Incident.mttr_seconds inc = Some r →
          ∃ n m, (n ≤ m)%nat ∧ r = utcnow env m - utcnow env n);
}.

(** The effects of one call of [_emit_event] on the callbacks [cbs], each
    with its position in [_callbacks]. *)
Definition notifications (event_type : string) (data : payload)
    (cbs : list (nat * callback)) : list effect :=
  List.flat_map
    (λ '(i, cb), Notified i event_type data ::
                 match cb event_type data with
                 | Some e => [Printed ("[ERROR] Event callback failed: " +:+ e)]
                 | None => []
                 end) cbs.

Definition is_notified (e : effect) : bool :=
  match e with Notified _ _ _ => true | _ => false end.

Definition is_printed (e : effect) : bool :=
  match e with Printed _ => true | _ => false end.

(** Does the callback raise on this event? *)
Definition raises (event_type : string) (data : payload) (cb : callback) : bool :=
  match cb event_type data with Some _ => true | None => false end.

(** The service that a coroutine is probing. *)
Definition frame_service (f : frame) : option ServiceConfig.t :=
  match f with
  | AtCheckService s | AtToolResult s _ _ | AtHandle s _ => Some s
  | _ => None
  end.

(** The service was registered and active when one of the cycles of [acts]
    started. *)
Definition started (env : Env) (acts : list action) (s : ServiceConfig.t) : Prop :=
  ∃ acts1 acts2 k,
    acts = acts1 ++ StartCycle :: acts2 ∧
    services (orch (exec env acts1 initial)) !! k = Some s ∧
    ServiceConfig.is_active s = true.

(** What a block of a coroutine may add to the effects. *)
Definition effect_of (env : Env) (f : frame) (st : State) (e : effect) : Prop :=
  match e with
  | Printed _ | Notified _ _ _ => True
  | ToolRun u => ∃ s, f = AtCheckService s ∧ u = ServiceConfig.url s
  | CrewImported => ∃ id, f = AtTrigger id
  | CrewBuilt _ => ∃ id, f = AtCrewBuild id
  | CrewKickoff u =>
      ∃ id inc, f = AtKickoff id ∧ active_incidents st !! id = Some inc ∧
                u = Incident.service_url inc
  | Persisted id => f = AtSave id ∧ supabase_is_connected env = true
  | Slept _ => False
  end.

(** The tool reports every service as healthy, whenever it is asked. *)
Definition always_healthy (env : Env) : Prop :=
  ∀ effects url,
    ∃ out, health_check_tool env effects url = inl out ∧ output_is_healthy out = true.

(** A coroutine that has seen no failure. *)
Definition quiet (f : frame) : Prop :=
  match f with
  | AtCheckService _ | Finished => True
  | AtToolResult _ _ r => ∃ out, r = inl out ∧ output_is_healthy out = true
  | AtHandle _ result => HealthCheckResult.is_healthy result = true
  | _ => False
  end.

(** The effects of the response to an incident. *)
Definition is_response (e : effect) : bool :=
  match e with
  | CrewImported | CrewBuilt _ | CrewKickoff _ | Persisted _ => true
  | _ => false
  end.

(** The event types of a timeline that has gone through every state. *)
Definition lifecycle : list string :=
  ["detected"; "alerting"; "investigating"; "resolved"].

Definition event_types (inc : Incident.t) : list string :=
  TimelineEvent.event_type <$> Incident.timeline inc.

(** What holds of the incident stored under the key [k]. *)
Record consistent (k : UUID) (inc : Incident.t) : Prop := {
  c_id : Incident.id inc = k;
  c_severity :
    Incident.severity inc = HIGH ↔ ∃ c, Incident.error_code inc = Some c ∧ 500 ≤ c;
  c_timeline :
    event_types inc = take (S (status_rank (Incident.status inc))) lifecycle;
  c_resolved :
    Incident.status inc = RESOLVED →
    ∃ t plan, Incident.resolved_at inc = Some t ∧
              Incident.action_plan inc = Some plan ∧
              Incident.mttr_seconds inc = Some (t - Incident.detected_at inc);
  c_open :
    Incident.status inc ≠ RESOLVED →
    Incident.resolved_at inc = None ∧ Incident.action_plan inc = None;
}.





End Orchestrator.

(** ** Concrete worlds, for the examples *)

Module Demo.

(** *** For the prober *)

Import Prober.

Fixpoint take_host (s : string) : string :=
  match s with
  | EmptyString => EmptyString
  | String c s' =>
      if bool_decide (c = "/"%char) then EmptyString else String c (take_host s')
  end.

Definition drop_scheme (url : string) : string :=
  if PyStr.startswith "https://" url then String.substring 8 (String.length url) url
  else if PyStr.startswith "http://" url then String.substring 7 (String.length url) url
  else url.

(** A parser for URLs of the shape [scheme://host/path]. *)
Definition demo_urlparse (url : string) : option ParseResult :=
  let h := take_host (drop_scheme url) in
  Some {| hostname := if PyStr.is_empty h then None else Some h;
          port := Some None |}.

Definition public_address : IPAddress :=
  {| is_loopback := false; is_private := false; is_link_local := false;
     is_multicast := false; is_reserved := false; is_unspecified := false |}.

Definition loopback_address : IPAddress :=
  {| is_loopback := true; is_private := true; is_link_local := false;
     is_multicast := false; is_reserved := false; is_unspecified := false |}.

Definition plain_response (code : Z) (location : option string) : Response :=
  {| status := code; Location := location; Content_Length := None;
     Server := None; Content_Type := None |}.

(** A small internet: [127.0.0.1] is the loopback address, every other name
    resolves to one public address; [loop.example] redirects every request to
    a longer path, [safe-site.com] redirects to [http://localhost/admin],
    every other server answers 200. *)
Definition internet : Env :=
  {| urlparse := demo_urlparse;
     urljoin := λ _ location, location;
     getaddrinfo := λ _ host,
       Some [if String.eqb host "127.0.0.1" then "127.0.0.1" else "93.184.216.34"];
     ip_address := λ ip,
       Some (if String.eqb ip "127.0.0.1" then loopback_address else public_address);
     session_get := λ _ url _,
       inl (if PyStr.startswith "http://loop.example/" url
            then plain_response 302 (Some (url +:+ "x"))
            else if PyStr.startswith "http://safe-site.com" url
            then plain_response 302 (Some "http://localhost/admin")
            else plain_response 200 None);
     getpeercert := λ _ _ _ _, inr (SSLError "certificate verify failed");
     utcnow := λ tr, 1000 * Z.of_nat (List.length tr);
     isoformat := λ _, "2026-01-27T12:00:00";
     strptime := λ _, None;
     str_isdigit := λ s, negb (PyStr.is_empty s);
     int_of_str := λ _, Some 0 |}.

(** A certificate that expires ten days after the probe. *)
Definition expiring_certificate : Certificate :=
  {| notAfter := Some "Feb  6 12:00:00 2026 GMT";
     issuer_organizationName := Some "Example CA" |}.

(** [internet], with servers that present [expiring_certificate]. *)
Definition renewal_due : Env :=
  {| urlparse := demo_urlparse;
     urljoin := urljoin internet;
     getaddrinfo := getaddrinfo internet;
     ip_address := ip_address internet;
     session_get := session_get internet;
     getpeercert := λ _ _ _ _, inl expiring_certificate;
     utcnow := utcnow internet;
     isoformat := isoformat internet;
     strptime := λ _, Some (10 * microseconds_per_day + 500000);
     str_isdigit := str_isdigit internet;
     int_of_str := int_of_str internet |}.

(** [internet], with servers that do not answer in time. *)
Definition unreachable : Env :=
  {| urlparse := demo_urlparse;
     urljoin := urljoin internet;
     getaddrinfo := getaddrinfo internet;
     ip_address := ip_address internet;
     session_get := λ _ _ _, inr TimeoutError;
     getpeercert := getpeercert internet;
     utcnow := utcnow internet;
     isoformat := isoformat internet;
     strptime := strptime internet;
     str_isdigit := str_isdigit internet;
     int_of_str := int_of_str internet |}.

(** *** For the orchestrator *)

Import Orchestrator.

(** A world where every service is down: the tool reports a 500; the crew
    answers with a plan, or raises when [crew_ok] is false. *)
Definition outage (crew_ok : bool) : Orchestrator.Env :=
  {| health_check_tool := λ _ _,
       inl ("Status Code: 500" +:+ newline +:+ "Health check FAILED");
     crew_import := λ _, None;
     crew_build := λ _ _, None;
     crew_kickoff := λ _ _,
       if crew_ok then inl "Restart the service" else inr "LLM unavailable";
     supabase_is_connected := false;
     supabase_save := λ _ _, None;
     Orchestrator.utcnow := λ n, 1000 * Z.of_nat n;
     Orchestrator.int_of_str := λ s, if String.eqb s "500" then Some 500 else None;
     check_interval_seconds := 10;
     enable_privacy_logging := false |}.

(** A world where every service answers 200. *)
Definition calm : Orchestrator.Env :=
  {| health_check_tool := λ _ _, inl "Status Code: 200";
     crew_import := λ _, None;
     crew_build := λ _ _, None;
     crew_kickoff := λ _ _, inl "";
     supabase_is_connected := false;
     supabase_save := λ _ _, None;
     Orchestrator.utcnow := λ n, 1000 * Z.of_nat n;
     Orchestrator.int_of_str := λ s, if String.eqb s "200" then Some 200 else None;
     check_interval_seconds := 10;
     enable_privacy_logging := false |}.

Definition api : ServiceConfig.t :=
  ServiceConfig.mk 1 "api" "https://api.example/health" 30 true.

Definition web : ServiceConfig.t :=
  ServiceConfig.mk 2 "web" "https://web.example/health" 20 true.

Definition batch : ServiceConfig.t :=
  ServiceConfig.mk 3 "batch" "https://batch.example/health" 5 false.

(** The orchestrator with the service [api] registered. *)
Definition one_service : State := add_service calm api init.

(** The orchestrator with [api], [web] and (inactive) [batch] registered. *)
Definition three_services : State :=
  add_service calm batch (add_service calm web (add_service calm api init)).

(** The scheduler resumes coroutine [i], [n] times. *)
Definition picks (n i : nat) : list choice := replicate n (Pick i).

(** [api] is registered, probed and found down; its incident is created. *)
Definition detection : list action :=
  [Call (CallAddService api); StartCycle; Resume 0; Resume 0; Resume 0].



(** The incident of [api] right after [detection], in the world [outage]. *)
Definition detected_incident : Incident.t :=
  Incident.mk 0 1 "api" "https://api.example/health" DETECTING HIGH 3000 None
    (Some 1000) None (Some 500)
    (Some ("Status Code: 500" +:+ newline +:+ "Health check FAILED"))
    [TimelineEvent.mk 5000 "detected" "Service failure detected. Status: 500"
       "MonitoringOrchestrator"]
    None.

(** What [check_service] returns for [api] in the world [outage]. *)
Definition down_result : HealthCheckResult.t :=
  HealthCheckResult.mk 1 (Some 500) 1000 false
    (Some ("Status Code: 500" +:+ newline +:+ "Health check FAILED")).

(** The statuses of the incidents of a system, by identifier. *)
Definition statuses (sys : System) : list (UUID * UUID * IncidentStatus) :=
  (λ p, (p.1, Incident.service_id p.2, Incident.status p.2))
    <$> map_to_list (incidents sys).

(** The world [outage] with a crew that answers and a persistence client that
    is connected. *)
Definition saved : Orchestrator.Env :=
  {| health_check_tool := health_check_tool (outage true);
     crew_import := crew_import (outage true);
     crew_build := crew_build (outage true);
     crew_kickoff := crew_kickoff (outage true);
     supabase_is_connected := true;
     supabase_save := λ _ _, None;
     Orchestrator.utcnow := Orchestrator.utcnow (outage true);
     Orchestrator.int_of_str := Orchestrator.int_of_str (outage true);
     check_interval_seconds := 10;
     enable_privacy_logging := false |}.

(** [detection], then the response to the incident up to its persistence. *)
Definition response : list action :=
  detection ++ [Resume 0; Resume 0; Resume 0; Resume 0; Resume 0]%nat.

(** The incident of [api] after [response], in the world [saved]. *)
Definition resolved_incident : Incident.t :=
  Incident.mk 0 1 "api" "https://api.example/health" RESOLVED HIGH 3000 (Some 8000)
    (Some 1000) (Some 5000) (Some 500)
    (Some ("Status Code: 500" +:+ newline +:+ "Health check FAILED"))
    [TimelineEvent.mk 5000 "detected" "Service failure detected. Status: 500"
       "MonitoringOrchestrator";
     TimelineEvent.mk 6000 "alerting" "Notifying team via Slack" "FirstResponder";
     TimelineEvent.mk 7000 "investigating" "Agents analyzing root cause"
       "Investigator";
     TimelineEvent.mk 9000 "resolved" "Action plan generated" "Strategist"]
    (Some "Restart the service").

(** The loop is running, with [api] registered. *)
Definition running : System := mkSystem [] (set_is_running true one_service).

End Demo.

(** Close an equation between closed terms by evaluating both sides. *)
Ltac by_vm := match goal with |- ?a = ?b => exact (@eq_refl _ a <: a = b) end.

(** * Properties of the prober *)

Module ProberSpec.
Import Prober.

Ltac run := unfold mbind, M_bind, mret, M_ret, bind, ret, raise, attempt, of_option in *.

Lemma scan_addr_info_run env l tr :
  ∃ o, scan_addr_info env l tr = (o, tr) ∧
       match o with
       | Ret b => b = all_public env l
       | Raise _ => all_public env l = false
       | OutOfFuel => False
       end.
Proof.
  induction l as [|ip l IH]; simpl.
  - eexists; split; [reflexivity|done].
  - unfold do_ip_address. run.
    destruct (ip_address env ip) as [addr|]; simpl.
    + destruct (restricted addr); simpl.
      * eexists; split; [reflexivity|done].
      * exact IH.
    + eexists; split; [reflexivity|done].
Qed.

Lemma _is_safe_hostname_run env hn tr :
  _is_safe_hostname env hn tr = (Ret (safe_at env tr hn), tr ++ lookups hn).
Proof.
  unfold _is_safe_hostname, safe_at, lookups.
  destruct hn as [h|]; unfold ret; [|by rewrite app_nil_r].
  unfold is_local_alias.
  destruct (PyStr.is_empty h); simpl; [by rewrite app_nil_r|].
  destruct (bool_decide _); simpl; [by rewrite app_nil_r|].
  unfold do_getaddrinfo. run.
  destruct (getaddrinfo env tr h) as [l|]; [|done].
  destruct (scan_addr_info_run env l (tr ++ [EvResolve h])) as (o & -> & Ho).
  destruct o; simpl in *; [by subst|by rewrite Ho|done].
Qed.

Lemma all_public_false env l ip addr :
  ip ∈ l → ip_address env ip = Some addr → restricted addr = true →
  all_public env l = false.
Proof.
  intros Hin Hip Hr. apply not_true_is_false. intros Hall.
  unfold all_public in Hall. rewrite forallb_forall in Hall.
  apply list_elem_of_In in Hin. specialize (Hall _ Hin).
  rewrite Hip, Hr in Hall. done.
Qed.

(** C1.  When the host name of the (normalised) URL is one of the local
    aliases [localhost], [0.0.0.0], [::1], or its DNS resolution fails, or one
    of the addresses it resolves to is loopback, private, link-local,
    multicast, reserved or unspecified, [check_url] returns a result with
    [healthy = False] and the error "Forbidden: ..." (status [error], no
    status code), and the only network operation it has performed is at
    most one DNS lookup of that host name: no HTTP request and no TLS
    connection. *)
Theorem check_url_rejects_forbidden_target env fuel url timeout tr parsed h :
  urlparse env (normalize_url url) = Some parsed →
  hostname parsed = Some h →
  (PyStr.lower h ∈ local_aliases
   ∨ getaddrinfo env tr h = None
   ∨ ∃ addr_info ip addr,
       getaddrinfo env tr h = Some addr_info ∧ ip ∈ addr_info ∧
       ip_address env ip = Some addr ∧ restricted addr = true) →
  ∃ result requests,
    check_url env fuel url timeout tr = (Ret result, tr ++ requests) ∧
    result !! "healthy" = Some (VBool false) ∧
    result !! "status" = Some (VStr "error") ∧
    result !! "error" = Some (VStr forbidden_message) ∧
    result !! "status_code" = None ∧
    (requests = [] ∨ requests = [EvResolve h]).
Proof.
  intros Hparse Hhost Hbad.
  assert (Hunsafe : safe_at env tr (Some h) = false).
  { simpl. destruct Hbad as [Ha | [Hd | (l & ip & addr & Hd & Hin & Hip & Hr)]].
    - unfold is_local_alias. rewrite bool_decide_eq_true_2 by done.
      by rewrite andb_false_r.
    - rewrite Hd. by rewrite andb_false_r.
    - rewrite Hd, (all_public_false _ _ _ _ Hin Hip Hr). by rewrite andb_false_r. }
  unfold check_url, do_urlparse. run. rewrite Hparse. simpl.
  rewrite Hhost, _is_safe_hostname_run, Hunsafe. simpl.
  unfold do_utcnow.
  eexists _, _. split; [reflexivity|].
  repeat split; try reflexivity.
  simpl. destruct (_ || _); auto.
Qed.

Lemma final_http_result_run env url cur start response tr :
  ∃ o, final_http_result env url cur start response tr = (o, tr) ∧
       match o with
       | Ret d => d !! "status_code" = Some (VInt (status response)) ∧
                  d !! "error" = None ∧ d !! "ssl" = None
       | Raise _ => True
       | OutOfFuel => False
       end.
Proof.
  unfold final_http_result, do_utcnow. run.
  destruct (str_isdigit env _); [destruct (int_of_str env _)|];
    eexists; (split; [reflexivity|]); simpl; auto.
Qed.

(** One iteration of the loop of [_check_http]. *)
Lemma _check_http_loop_step env fuel url timeout start cur rc tr :
  _check_http_loop env (S fuel) url timeout start cur rc tr =
  match urlparse env cur with
  | None => (Raise (ValueError "Invalid URL"), tr)
  | Some parsed =>
      let tr1 := tr ++ lookups (hostname parsed) in
      if safe_at env tr (hostname parsed) then
        match session_get env tr1 cur timeout with
        | inr e => (Raise e, tr1 ++ [EvHttpGet cur])
        | inl response =>
            match redirect_target response rc with
            | Some location =>
                _check_http_loop env fuel url timeout start
                  (urljoin env cur location) (rc + 1) (tr1 ++ [EvHttpGet cur])
            | None =>
                final_http_result env url cur start response (tr1 ++ [EvHttpGet cur])
            end
        end
      else (Ret forbidden_http_result, tr1)
  end.
Proof.
  simpl. unfold do_urlparse. run.
  destruct (urlparse env cur) as [parsed|]; [|done]. simpl.
  rewrite _is_safe_hostname_run.
  destruct (safe_at env tr (hostname parsed)); [|done]. simpl.
  unfold do_session_get.
  destruct (session_get env _ cur timeout) as [response|e]; [|done].
  destruct (redirect_target response rc); done.
Qed.

Lemma http_requests_app tr1 tr2 :
  http_requests (tr1 ++ tr2) = (http_requests tr1 + http_requests tr2)%nat.
Proof. unfold http_requests. by rewrite List.filter_app, length_app. Qed.

Lemma http_requests_lookups hn : http_requests (lookups hn) = 0%nat.
Proof. destruct hn as [h|]; [|done]. simpl. by destruct (_ || _). Qed.

Lemma http_requests_get u : http_requests [EvHttpGet u] = 1%nat.
Proof. done. Qed.

Lemma http_requests_nil : http_requests [] = 0%nat.
Proof. done. Qed.

Ltac cnt :=
  rewrite ?http_requests_app, ?http_requests_lookups, ?http_requests_get,
    ?http_requests_nil.

Lemma redirect_target_Some response rc location :
  redirect_target response rc = Some location → rc < max_redirects.
Proof.
  unfold redirect_target. destruct (bool_decide _); [|done]. simpl.
  destruct (rc <? max_redirects) eqn:E; [|done]. intros _. lia.
Qed.

Lemma _check_http_loop_capped env url timeout start fuel :
  ∀ cur rc tr,
    0 ≤ rc ≤ max_redirects → (Z.to_nat (max_redirects - rc) < fuel)%nat →
    ∃ o requests,
      _check_http_loop env fuel url timeout start cur rc tr = (o, tr ++ requests) ∧
      o ≠ OutOfFuel ∧
      Z.of_nat (http_requests requests) ≤ max_redirects + 1 - rc ∧
      (Z.of_nat (http_requests requests) = max_redirects + 1 - rc →
       ∀ result, o = Ret result →
         ∃ before last response,
           requests = before ++ [EvHttpGet last] ∧
           session_get env (tr ++ before) last timeout = inl response ∧
           result !! "status_code" = Some (VInt (status response)) ∧
           result !! "error" = None).
Proof.
  unfold max_redirects.
  induction fuel as [|fuel IH]; intros cur rc tr Hrc Hfuel; [lia|].
  rewrite _check_http_loop_step.
  destruct (urlparse env cur) as [parsed|].
  2:{ exists (Raise (ValueError "Invalid URL")), []. rewrite app_nil_r.
      split; [done|]. split; [done|]. cnt. split; [lia|]. intros; lia. }
  cbv zeta. set (hn := hostname parsed).
  destruct (safe_at env tr hn).
  2:{ exists (Ret forbidden_http_result), (lookups hn).
      split; [done|]. split; [done|]. cnt.
      split; [lia|]. intros; lia. }
  destruct (session_get env (tr ++ lookups hn) cur timeout) as [response|e] eqn:Hget.
  2:{ exists (Raise e), (lookups hn ++ [EvHttpGet cur]). rewrite app_assoc.
      split; [done|]. split; [done|].
      cnt. split; [lia|]. intros _ result Hres. done. }
  destruct (redirect_target response rc) as [location|] eqn:Hredir.
  - apply redirect_target_Some in Hredir. unfold max_redirects in Hredir.
    destruct (IH (urljoin env cur location) (rc + 1)
                 ((tr ++ lookups hn) ++ [EvHttpGet cur]))
      as (o & requests & Hrun & Hfu & Hle & Hlast); [lia|lia|].
    exists o, (lookups hn ++ [EvHttpGet cur] ++ requests).
    split; [rewrite Hrun; f_equal; by rewrite <- !app_assoc|].
    split; [done|].
    cnt. split; [lia|]. intros Hcount result Hres.
    destruct (Hlast ltac:(lia) result Hres) as (before & last & resp & -> & Hg & Hs & He).
    exists (lookups hn ++ [EvHttpGet cur] ++ before), last, resp.
    split; [by rewrite <- !app_assoc|].
    split; [|done]. rewrite <- Hg. f_equal. by rewrite <- !app_assoc.
  - destruct (final_http_result_run env url cur start response
                ((tr ++ lookups hn) ++ [EvHttpGet cur])) as (o & -> & Ho).
    exists o, (lookups hn ++ [EvHttpGet cur]). rewrite app_assoc.
    split; [done|]. split; [by destruct o|].
    cnt. split; [lia|]. intros _ result ->.
    exists (lookups hn), cur, response. destruct Ho as (? & ? & ?). done.
Qed.

(** C3, as amended.  [_check_http] never loops without bound: given fuel
    for six iterations it returns or raises, after at most six HTTP requests
    (the first one and five redirects followed).  When it has made all six
    requests and returns, what it returns is the sixth response as it is:
    its status code (a 3xx when the chain goes on) and no error.  There is no
    RedirectLoopExceeded error in the code. *)
Theorem redirects_are_capped env fuel url timeout tr :
  (6 ≤ fuel)%nat →
  ∃ o requests,
    _check_http env fuel url timeout tr = (o, tr ++ requests) ∧
    o ≠ OutOfFuel ∧
    (http_requests requests ≤ 6)%nat ∧
    (http_requests requests = 6%nat →
     ∀ result, o = Ret result →
       ∃ before last response,
         requests = before ++ [EvHttpGet last] ∧
         session_get env (tr ++ before) last timeout = inl response ∧
         result !! "status_code" = Some (VInt (status response)) ∧
         result !! "error" = None).
Proof.
  intros Hfuel. unfold _check_http, do_utcnow. run.
  destruct (_check_http_loop_capped env url timeout (utcnow env tr) fuel url 0 tr)
    as (o & requests & Hrun & Hfu & Hle & Hlast).
  { unfold max_redirects. lia. }
  { unfold max_redirects. simpl. lia. }
  exists o, requests. split; [done|]. split; [done|].
  unfold max_redirects in *. split; [lia|].
  intros Hcount. apply Hlast. lia.
Qed.

Lemma first_request_split hn cur rest before target after :
  lookups hn ++ [EvHttpGet cur] ++ rest = before ++ EvHttpGet target :: after →
  (before = lookups hn ∧ target = cur ∧ after = rest) ∨
  (∃ before', before = lookups hn ++ EvHttpGet cur :: before' ∧
              rest = before' ++ EvHttpGet target :: after).
Proof.
  assert (Hcase : lookups hn = [] ∨ ∃ h, lookups hn = [EvResolve h]).
  { destruct hn as [h|]; [|by left]. simpl. destruct (_ || _); eauto. }
  destruct Hcase as [-> | [h ->]]; simpl.
  - destruct before as [|b before]; simpl; intros [= ? ?]; subst; eauto.
  - destruct before as [|b before]; simpl; [done|]. intros [= ? H]; subst.
    destruct before as [|b before]; simpl in *; injection H as ? ?; subst; eauto.
Qed.

Lemma no_request_in_lookups hn before target after :
  lookups hn ≠ before ++ EvHttpGet target :: after.
Proof.
  destruct hn as [h|]; simpl; [destruct (_ || _)|];
    destruct before as [|? [|? ?]]; done.
Qed.

Lemma _check_http_loop_validates env url timeout start fuel :
  ∀ cur rc tr o tr',
    _check_http_loop env fuel url timeout start cur rc tr = (o, tr') →
    ∃ requests, tr' = tr ++ requests ∧
      ∀ before target after,
        requests = before ++ EvHttpGet target :: after →
        ∃ parsed checked,
          urlparse env target = Some parsed ∧
          before = checked ++ lookups (hostname parsed) ∧
          safe_at env (tr ++ checked) (hostname parsed) = true.
Proof.
  induction fuel as [|fuel IH]; intros cur rc tr o tr' Hrun.
  { injection Hrun as <- <-. exists []. rewrite app_nil_r. split; [done|].
    intros [|??] ???; done. }
  rewrite _check_http_loop_step in Hrun.
  destruct (urlparse env cur) as [parsed|] eqn:Hparse.
  2:{ injection Hrun as <- <-. exists []. rewrite app_nil_r. split; [done|].
      intros [|??] ???; done. }
  cbv zeta in Hrun. set (hn := hostname parsed) in *.
  destruct (safe_at env tr hn) eqn:Hsafe.
  2:{ injection Hrun as <- <-. exists (lookups hn). split; [done|].
      intros before target after H. by apply no_request_in_lookups in H. }
  assert (Hfirst : ∀ rest before target after,
    lookups hn ++ [EvHttpGet cur] ++ rest = before ++ EvHttpGet target :: after →
    (∀ before' , rest = before' ++ EvHttpGet target :: after →
        ∃ parsed checked,
          urlparse env target = Some parsed ∧
          before' = checked ++ lookups (hostname parsed) ∧
          safe_at env (((tr ++ lookups hn) ++ [EvHttpGet cur]) ++ checked)
            (hostname parsed) = true) →
    ∃ parsed checked,
      urlparse env target = Some parsed ∧
      before = checked ++ lookups (hostname parsed) ∧
      safe_at env (tr ++ checked) (hostname parsed) = true).
  { intros rest before target after Heq Hrest.
    apply first_request_split in Heq as [(-> & -> & ->) | (before' & -> & Hr)].
    - exists parsed, []. rewrite app_nil_r. done.
    - destruct (Hrest _ Hr) as (parsed' & checked & Hp & -> & Hs).
      exists parsed', (lookups hn ++ EvHttpGet cur :: checked).
      split; [done|]. split; [by rewrite <- app_assoc|].
      rewrite <- Hs. f_equal. by rewrite <- !app_assoc. }
  destruct (session_get env (tr ++ lookups hn) cur timeout) as [response|e].
  2:{ injection Hrun as <- <-. exists (lookups hn ++ [EvHttpGet cur] ++ []).
      split; [by rewrite app_nil_r, app_assoc|].
      intros before target after H. apply (Hfirst _ _ _ _ H).
      intros [|??] ?; done. }
  destruct (redirect_target response rc) as [location|].
  - apply IH in Hrun as (requests & -> & Hreq).
    exists (lookups hn ++ [EvHttpGet cur] ++ requests).
    split; [by rewrite <- !app_assoc|].
    intros before target after H. apply (Hfirst _ _ _ _ H).
    intros before' Hb. exact (Hreq _ _ _ Hb).
  - destruct (final_http_result_run env url cur start response
                ((tr ++ lookups hn) ++ [EvHttpGet cur])) as (o' & Hfin & _).
    rewrite Hfin in Hrun. injection Hrun as <- <-.
    exists (lookups hn ++ [EvHttpGet cur] ++ []).
    split; [by rewrite app_nil_r, app_assoc|].
    intros before target after H. apply (Hfirst _ _ _ _ H).
    intros [|??] ?; done.
Qed.

Lemma _is_safe_hostname_inv env hn tr b tr' :
  _is_safe_hostname env hn tr = (Ret b, tr') →
  b = safe_at env tr hn ∧ tr' = tr ++ lookups hn.
Proof. rewrite _is_safe_hostname_run. by intros [= <- <-]. Qed.

(** C4.  In every run of the loop of [_check_http], from any hop on: each
    HTTP request is immediately preceded by a call of [_is_safe_hostname] on
    the host name of the requested URL that answered [True]; and when a
    response is a redirect to follow whose target fails that check, the
    result has status code 403 and the error "Forbidden: ...", and no request
    is sent to the target.  The URL the probe started from, [url], plays no
    part in this. *)
Theorem redirect_hops_are_validated env fuel url timeout start_time
    current_url redirect_count tr :
  (∀ o tr',
     _check_http_loop env fuel url timeout start_time current_url redirect_count tr
       = (o, tr') →
     ∃ requests, tr' = tr ++ requests ∧
       ∀ before target after,
         requests = before ++ EvHttpGet target :: after →
         ∃ parsed checked,
           urlparse env target = Some parsed ∧
           _is_safe_hostname env (hostname parsed) (tr ++ checked)
             = (Ret true, tr ++ before))
  ∧
  (∀ parsed tr1 response location parsed' tr2,
     (2 ≤ fuel)%nat →
     urlparse env current_url = Some parsed →
     _is_safe_hostname env (hostname parsed) tr = (Ret true, tr1) →
     session_get env tr1 current_url timeout = inl response →
     redirect_target response redirect_count = Some location →
     urlparse env (urljoin env current_url location) = Some parsed' →
     _is_safe_hostname env (hostname parsed') (tr1 ++ [EvHttpGet current_url])
       = (Ret false, tr2) →
     ∃ result,
       _check_http_loop env fuel url timeout start_time current_url redirect_count tr
         = (Ret result, tr2) ∧
       result !! "status_code" = Some (VInt 403) ∧
       result !! "error" = Some (VStr forbidden_message) ∧
       http_requests tr2 = S (http_requests tr)).
Proof.
  split.
  - intros o tr' Hrun.
    apply _check_http_loop_validates in Hrun as (requests & -> & Hreq).
    exists requests. split; [done|]. intros before target after H.
    destruct (Hreq _ _ _ H) as (parsed & checked & Hp & -> & Hs).
    exists parsed, checked. split; [done|].
    by rewrite _is_safe_hostname_run, Hs, app_assoc.
  - intros parsed tr1 response location parsed' tr2 Hfuel Hp Hs Hget Hredir Hp' Hs'.
    destruct fuel as [|[|fuel]]; [lia|lia|].
    apply _is_safe_hostname_inv in Hs as [Hs ->].
    apply _is_safe_hostname_inv in Hs' as [Hs' ->].
    exists forbidden_http_result.
    rewrite _check_http_loop_step, Hp. cbv zeta. rewrite <- Hs, Hget, Hredir.
    rewrite _check_http_loop_step, Hp'. cbv zeta. rewrite <- Hs'.
    split; [done|]. split; [done|]. split; [done|].
    cnt. lia.
Qed.

Lemma _check_http_loop_result env url timeout start fuel :
  ∀ cur rc tr result tr',
    _check_http_loop env fuel url timeout start cur rc tr = (Ret result, tr') →
    (∃ z, result !! "status_code" = Some (VInt z)) ∧ result !! "ssl" = None.
Proof.
  induction fuel as [|fuel IH]; intros cur rc tr result tr' Hrun; [done|].
  rewrite _check_http_loop_step in Hrun.
  destruct (urlparse env cur) as [parsed|]; [|done]. cbv zeta in Hrun.
  destruct (safe_at env tr (hostname parsed)).
  2:{ injection Hrun as <- <-. split; [by exists 403|done]. }
  destruct (session_get env _ cur timeout) as [response|e]; [|done].
  destruct (redirect_target response rc) as [location|]; [by eapply IH|].
  destruct (final_http_result_run env url cur start response
              ((tr ++ lookups (hostname parsed)) ++ [EvHttpGet cur]))
    as (o & Hfin & Ho).
  rewrite Hfin in Hrun. injection Hrun as -> <-.
  destruct Ho as (? & ? & ?). eauto.
Qed.

Lemma first_safe_ip_run env l tr :
  ∃ o, first_safe_ip env l tr = (o, tr) ∧ o ≠ OutOfFuel.
Proof.
  induction l as [|ip l IH]; simpl; [by eexists|].
  unfold do_ip_address. run.
  destruct (ip_address env ip) as [addr|]; simpl; [|by eexists].
  destruct (restricted addr); simpl; [done|by eexists].
Qed.

Lemma get_cert_run env h p tr :
  ∃ o tr', get_cert env h p tr = (o, tr') ∧ o ≠ OutOfFuel.
Proof.
  unfold get_cert, do_getaddrinfo. run.
  destruct (getaddrinfo env tr h) as [l|]; [|by eexists _, _].
  destruct (first_safe_ip_run env l (tr ++ [EvResolve h])) as (o & -> & Ho).
  destruct o as [[ip|]| |]; [|by eexists _, _|by eexists _, _|done].
  destruct (PyStr.is_empty ip); [by eexists _, _|].
  unfold do_getpeercert. destruct (getpeercert env _ ip p h); by eexists _, _.
Qed.

(** [_check_ssl] always returns, and its result always says whether the
    certificate is valid. *)
Lemma _check_ssl_run env url tr :
  ∃ d tr' b, _check_ssl env url tr = (Ret d, tr') ∧ d !! "valid" = Some (VBool b).
Proof.
  unfold _check_ssl, do_urlparse. run.
  destruct (urlparse env url) as [parsed|]; simpl; [|by eexists _, _, _].
  destruct (port parsed) as [p|]; simpl; [|by eexists _, _, _].
  rewrite _is_safe_hostname_run.
  destruct (safe_at env tr (hostname parsed)); simpl; [|by eexists _, _, _].
  match goal with |- context [get_cert env ?h ?q ?t] =>
    destruct (get_cert_run env h q t) as (o & tr' & -> & Ho) end.
  destruct o as [cert|e|]; [| |done].
  - destruct (strptime env _); simpl; [|by eexists _, _, _].
    unfold do_utcnow. by eexists _, _, _.
  - destruct e; by eexists _, _, _.
Qed.

(** C6.  In every result of [check_url] that has a status code (the probe
    got an HTTP response, or was stopped with 403 at a redirect), [healthy]
    is a boolean, and it is true exactly when the status code is in
    [200, 400) and either no TLS check was made (the result has no [ssl]
    entry) or the TLS check reports [valid = True]. *)
Theorem healthy_iff_status_and_tls env fuel url timeout tr result tr' code :
  check_url env fuel url timeout tr = (Ret result, tr') →
  result !! "status_code" = Some code →
  ∃ status_code healthy,
    code = VInt status_code ∧
    result !! "healthy" = Some (VBool healthy) ∧
    (healthy = true ↔
       200 ≤ status_code < 400 ∧
       (result !! "ssl" = None ∨
        ∃ ssl, result !! "ssl" = Some (VDict ssl) ∧
               ssl !! "valid" = Some (VBool true))).
Proof.
  unfold check_url, do_urlparse. run.
  destruct (urlparse env _) as [parsed|]; simpl; [|done].
  rewrite _is_safe_hostname_run.
  destruct (safe_at env tr (hostname parsed)); simpl.
  2:{ unfold do_utcnow. intros [= <- <-]. done. }
  unfold do_utcnow, check_url_try, in_try. run.
  set (timeout' := match timeout with Some t => _ | None => _ end).
  set (initial := <["url" := _]> _).
  destruct (_check_http env fuel (normalize_url url) timeout' _) as [[http|e|] tr1]
    eqn:Hhttp; [| |done].
  2:{ intros [= <- <-]. destruct e; done. }
  unfold _check_http, do_utcnow in Hhttp. run.
  apply _check_http_loop_result in Hhttp as [[z Hz] Hnossl].
  assert (Hcode : (http ∪ initial) !! "status_code" = Some (VInt z))
    by by apply lookup_union_Some_l.
  assert (Hssl0 : (http ∪ initial) !! "ssl" = None)
    by by apply lookup_union_None.
  assert (Hfinish : ∀ (R : dict) ssl_valid,
    R !! "status_code" = Some (VInt z) →
    dict_get (as_dict (dict_get R "ssl" (VDict ∅))) "valid" (VBool true)
      = VBool ssl_valid →
    (ssl_valid = true ↔
       R !! "ssl" = None ∨
       ∃ ssl, R !! "ssl" = Some (VDict ssl) ∧ ssl !! "valid" = Some (VBool true)) →
    ∀ st sg cta,
    let healthy :=
      py_and (VBool (in_range (dict_get R "status_code" (VInt 0)) 200 400))
             (dict_get (as_dict (dict_get R "ssl" (VDict ∅))) "valid" (VBool true)) in
    let final := <["cta" := cta]> (<["suggestions" := sg]>
                   (<["status" := st]> (<["healthy" := healthy]> R))) in
    final !! "status_code" = Some code →
    ∃ status_code healthy,
      code = VInt status_code ∧
      final !! "healthy" = Some (VBool healthy) ∧
      (healthy = true ↔
         200 ≤ status_code < 400 ∧
         (final !! "ssl" = None ∨
          ∃ ssl, final !! "ssl" = Some (VDict ssl) ∧
                 ssl !! "valid" = Some (VBool true)))).
  { intros R b HR Hvalid Hb st sg cta healthy final. subst final healthy.
    set (fs := (<["cta" := cta]> _) !! "ssl").
    assert (Hfs : fs = R !! "ssl") by (subst fs; by rewrite !lookup_insert_ne).
    clearbody fs. subst fs.
    rewrite !lookup_insert_ne by done. rewrite HR. intros [= <-].
    rewrite lookup_insert_eq. unfold dict_get at 1. rewrite HR, Hvalid.
    exists z, ((200 <=? z) && (z <? 400) && b). split; [done|]. split.
    { unfold py_and. simpl. by destruct (_ && _). }
    rewrite <- Hb, !andb_true_iff. split; [intros [[??] ?]|intros [??]];
      (split; [lia|done]). }
  destruct (PyStr.startswith "https://" (normalize_url url)).
  - destruct (_check_ssl_run env (normalize_url url) tr1) as (ssl & tr2 & b & -> & Hb).
    intros [= <- <-]. apply (Hfinish _ b).
    + by rewrite lookup_insert_ne.
    + unfold dict_get. rewrite lookup_insert_eq. simpl. by rewrite Hb.
    + rewrite lookup_insert_eq. split.
      * intros ->. right. eauto.
      * intros [? | (ssl' & [= <-] & Hv)]; [done|].
        rewrite Hb in Hv. by injection Hv.
  - intros [= <- <-]. apply (Hfinish _ true).
    + done.
    + unfold dict_get. by rewrite Hssl0.
    + split; [by left|done].
Qed.

(** With fuel for six iterations, a probe of a URL that parses always
    returns a result: every failure of the network is a field of the result. *)
Lemma check_url_returns env fuel url timeout tr parsed :
  (6 ≤ fuel)%nat →
  urlparse env (normalize_url url) = Some parsed →
  ∃ result tr', check_url env fuel url timeout tr = (Ret result, tr').
Proof.
  intros Hfuel Hparse. unfold check_url, do_urlparse. run. rewrite Hparse. simpl.
  rewrite _is_safe_hostname_run.
  destruct (safe_at env tr (hostname parsed)); simpl; [|by eexists _, _].
  unfold do_utcnow, check_url_try, in_try, _check_http, do_utcnow. run.
  set (timeout' := match timeout with Some t => _ | None => _ end).
  set (initial := <["url" := _]> _).
  set (tr0 := tr ++ lookups (hostname parsed)).
  destruct (_check_http_loop_capped env (normalize_url url) timeout' (utcnow env tr0)
              fuel (normalize_url url) 0 tr0) as (o & requests & -> & Ho & _).
  { unfold max_redirects. lia. }
  { unfold max_redirects. simpl. lia. }
  destruct o as [http|e|]; [|by eexists _, _|done].
  destruct (PyStr.startswith "https://" (normalize_url url)); [|by eexists _, _].
  destruct (_check_ssl_run env (normalize_url url) (tr0 ++ requests))
    as (ssl & tr2 & b & -> & _).
  by eexists _, _.
Qed.

(** *** Examples *)

Lemma returns_eq (r : outcome dict * trace) :
  returns r = true → r = (Ret (returned r), r.2).
Proof. unfold returns, returned. by destruct r as [[d| |] tr]. Qed.

(** Scenario C of the specification: [http://127.0.0.1/admin] is rejected
    after one DNS lookup. *)
Lemma check_url_rejects_forbidden_target_witness :
  urlparse Demo.internet (normalize_url "http://127.0.0.1/admin")
    = Some {| hostname := Some "127.0.0.1"; port := Some None |} ∧
  hostname {| hostname := Some "127.0.0.1"; port := Some None |} = Some "127.0.0.1" ∧
  (∃ addr_info ip addr,
     getaddrinfo Demo.internet [] "127.0.0.1" = Some addr_info ∧ ip ∈ addr_info ∧
     ip_address Demo.internet ip = Some addr ∧ restricted addr = true) ∧
  ∃ result requests,
    check_url Demo.internet 6 "http://127.0.0.1/admin" None []
      = (Ret result, [] ++ requests) ∧
    result !! "healthy" = Some (VBool false) ∧
    result !! "status" = Some (VStr "error") ∧
    result !! "error" = Some (VStr forbidden_message) ∧
    result !! "status_code" = None ∧
    (requests = [] ∨ requests = [EvResolve "127.0.0.1"]).
Proof.
  assert (Hbad : ∃ addr_info ip addr,
            getaddrinfo Demo.internet [] "127.0.0.1" = Some addr_info ∧
            ip ∈ addr_info ∧
            ip_address Demo.internet ip = Some addr ∧ restricted addr = true).
  { exists ["127.0.0.1"], "127.0.0.1", Demo.loopback_address.
    split; [reflexivity|]. split; [apply list_elem_of_here|].
    split; reflexivity. }
  split; [reflexivity|]. split; [reflexivity|]. split; [exact Hbad|].
  apply (check_url_rejects_forbidden_target Demo.internet 6 "http://127.0.0.1/admin"
           None [] {| hostname := Some "127.0.0.1"; port := Some None |} "127.0.0.1").
  - reflexivity.
  - reflexivity.
  - right. right. exact Hbad.
Defined.

Lemma redirects_are_capped_witness :
  (6 ≤ 6)%nat ∧
  ∃ o requests,
    _check_http Demo.internet 6 "http://loop.example/" 10 [] = (o, [] ++ requests) ∧
    o ≠ OutOfFuel ∧
    (http_requests requests ≤ 6)%nat ∧
    (http_requests requests = 6%nat →
     ∀ result, o = Ret result →
       ∃ before last response,
         requests = before ++ [EvHttpGet last] ∧
         session_get Demo.internet ([] ++ before) last 10 = inl response ∧
         result !! "status_code" = Some (VInt (status response)) ∧
         result !! "error" = None).
Proof.
  split; [lia|].
  apply (redirects_are_capped Demo.internet 6 "http://loop.example/" 10 []). lia.
Defined.

(** The test [test_check_http_redirect_to_unsafe] of the repository:
    [http://safe-site.com] redirects to [http://localhost/admin]. *)
Lemma redirect_hops_are_validated_witness :
  (2 ≤ 6)%nat ∧
  ∃ result,
    _check_http_loop Demo.internet 6 "http://safe-site.com" 10 0
      "http://safe-site.com" 0 []
      = (Ret result, [EvResolve "safe-site.com"; EvHttpGet "http://safe-site.com"]) ∧
    result !! "status_code" = Some (VInt 403) ∧
    result !! "error" = Some (VStr forbidden_message) ∧
    http_requests [EvResolve "safe-site.com"; EvHttpGet "http://safe-site.com"]
      = S (http_requests []).
Proof.
  split; [lia|].
  apply (proj2 (redirect_hops_are_validated Demo.internet 6 "http://safe-site.com" 10 0
                  "http://safe-site.com" 0 [])
           {| hostname := Some "safe-site.com"; port := Some None |}
           [EvResolve "safe-site.com"]
           (Demo.plain_response 302 (Some "http://localhost/admin"))
           "http://localhost/admin"
           {| hostname := Some "localhost"; port := Some None |}
           [EvResolve "safe-site.com"; EvHttpGet "http://safe-site.com"]).
  - lia.
  - reflexivity.
  - reflexivity.
  - reflexivity.
  - reflexivity.
  - reflexivity.
  - reflexivity.
Defined.

(** A chain of redirects that never ends: the sixth response, a 302, is
    returned as the result, without an error, and [check_url] reports the
    target as healthy. *)
Lemma redirect_chain_returns_raw_302 :
  let r := _check_http Demo.internet 6 "http://loop.example/" 10 [] in
  let report := check_url Demo.internet 6 "http://loop.example/" None [] in
  r.2 = [EvResolve "loop.example"; EvHttpGet "http://loop.example/";
         EvResolve "loop.example"; EvHttpGet "http://loop.example/x";
         EvResolve "loop.example"; EvHttpGet "http://loop.example/xx";
         EvResolve "loop.example"; EvHttpGet "http://loop.example/xxx";
         EvResolve "loop.example"; EvHttpGet "http://loop.example/xxxx";
         EvResolve "loop.example"; EvHttpGet "http://loop.example/xxxxx"] ∧
  field r "status_code" = Some (Some (VInt 302)) ∧
  field r "error" = Some None ∧
  field report "status_code" = Some (Some (VInt 302)) ∧
  field report "healthy" = Some (Some (VBool true)) ∧
  field report "error" = Some None.
Proof. repeat split; by_vm. Qed.

(** A server that answers 200 over plain HTTP is healthy. *)
Lemma healthy_iff_status_and_tls_witness :
  let r := check_url Demo.internet 6 "http://good.example/health" None [] in
  r = (Ret (returned r), r.2) ∧
  returned r !! "status_code" = Some (VInt 200) ∧
  ∃ status_code healthy,
    VInt 200 = VInt status_code ∧
    returned r !! "healthy" = Some (VBool healthy) ∧
    (healthy = true ↔
       200 ≤ status_code < 400 ∧
       (returned r !! "ssl" = None ∨
        ∃ ssl, returned r !! "ssl" = Some (VDict ssl) ∧
               ssl !! "valid" = Some (VBool true))).
Proof.
  intros r.
  assert (Hrun : r = (Ret (returned r), r.2)) by (apply returns_eq; by_vm).
  assert (Hcode : returned r !! "status_code" = Some (VInt 200)) by by_vm.
  split; [exact Hrun|]. split; [exact Hcode|].
  exact (healthy_iff_status_and_tls Demo.internet 6 "http://good.example/health" None []
           (returned r) r.2 (VInt 200) Hrun Hcode).
Defined.

(** *** More of the prober *)

Lemma all_public_spec env l :
  all_public env l = true ↔
  ∀ ip, ip ∈ l → ∃ addr, ip_address env ip = Some addr ∧ restricted addr = false.
Proof.
  unfold all_public. rewrite forallb_forall. split.
  - intros H ip Hin. apply list_elem_of_In in Hin. specialize (H _ Hin).
    destruct (ip_address env ip) as [addr|]; [|done].
    exists addr. split; [done|]. by apply negb_true_iff.
  - intros H ip Hin. apply list_elem_of_In in Hin.
    destruct (H _ Hin) as (addr & -> & ->). done.
Qed.

Lemma is_empty_spec s : PyStr.is_empty s = true ↔ s = "".
Proof. by destruct s. Qed.

(** X1.  [_is_safe_hostname] never raises, and looks the host name up at
    most once.  It answers [True] exactly when there is a host name, it is
    not empty, it is not one of the local aliases (compared in lower case),
    its resolution succeeds, and every address it resolves to parses and is
    in none of the six restricted ranges.  A name that resolves to no
    address at all is accepted. *)
Theorem _is_safe_hostname_verdict env hostname tr :
  ∃ safe lookup,
    _is_safe_hostname env hostname tr = (Ret safe, tr ++ lookup) ∧
    (lookup = [] ∨ ∃ h, hostname = Some h ∧ lookup = [EvResolve h]) ∧
    (safe = true ↔
       ∃ h addr_info,
         hostname = Some h ∧ h ≠ "" ∧ (PyStr.lower h ∉ local_aliases) ∧
         getaddrinfo env tr h = Some addr_info ∧
         ∀ ip, ip ∈ addr_info →
               ∃ addr, ip_address env ip = Some addr ∧ restricted addr = false).
Proof.
  exists (safe_at env tr hostname), (lookups hostname).
  split; [apply _is_safe_hostname_run|]. split.
  - destruct hostname as [h|]; [|by left]. simpl.
    destruct (_ || _); [by left|right; eauto].
  - unfold safe_at. destruct hostname as [h|].
    2:{ split; [done|]. by intros (? & ? & ? & _). }
    rewrite !andb_true_iff, !negb_true_iff. unfold is_local_alias. split.
    + intros [[He Ha] Hr]. destruct (getaddrinfo env tr h) as [l|] eqn:Hl; [|done].
      exists h, l. split; [done|]. split.
      { intros ->. done. }
      split; [by apply bool_decide_eq_false in Ha|].
      split; [done|]. by apply all_public_spec.
    + intros (h' & l & [= <-] & Hne & Hal & -> & Hall). split; [split|].
      * by destruct h.
      * by apply bool_decide_eq_false.
      * by apply all_public_spec.
Qed.

Lemma tls_connects_app tr1 tr2 :
  tls_connects (tr1 ++ tr2) = (tls_connects tr1 + tls_connects tr2)%nat.
Proof. unfold tls_connects. by rewrite List.filter_app, length_app. Qed.

Lemma tls_connects_lookups hn : tls_connects (lookups hn) = 0%nat.
Proof. destruct hn as [h|]; [|done]. simpl. by destruct (_ || _). Qed.

Lemma dns_lookups_app tr1 tr2 :
  dns_lookups (tr1 ++ tr2) = (dns_lookups tr1 + dns_lookups tr2)%nat.
Proof. unfold dns_lookups. by rewrite List.filter_app, length_app. Qed.

Lemma dns_lookups_lookups hn : (dns_lookups (lookups hn) ≤ 1)%nat.
Proof.
  unfold dns_lookups. destruct hn as [h|]; simpl; [|lia].
  destruct (_ || _); simpl; lia.
Qed.

Lemma lookups_safe env tr hn :
  safe_at env tr hn = true → ∃ h, hn = Some h ∧ lookups hn = [EvResolve h].
Proof.
  unfold safe_at, lookups. destruct hn as [h|]; [|done].
  rewrite !andb_true_iff, !negb_true_iff. intros [[-> ->] _]. eauto.
Qed.

(** The loop of [get_cert] stops at the first address that is not in a
    restricted range. *)
Lemma first_safe_ip_Some env l tr ip tr' :
  first_safe_ip env l tr = (Ret (Some ip), tr') →
  tr' = tr ∧ ip ∈ l ∧ ∃ addr, ip_address env ip = Some addr ∧ restricted addr = false.
Proof.
  induction l as [|ip0 l IH]; simpl; [done|].
  unfold do_ip_address. run.
  destruct (ip_address env ip0) as [addr|] eqn:Hip; simpl; [|done].
  destruct (restricted addr) eqn:Hr; simpl.
  - intros H. destruct (IH H) as (-> & Hin & Haddr).
    split; [done|]. split; [by right|done].
  - intros [= <- <-]. split; [done|]. split; [by left|eauto].
Qed.

(** What [get_cert] does: one DNS lookup, then at most one TLS connection, to
    an address of that lookup that is not in a restricted range. *)
Lemma get_cert_cases env h p tr :
  ∃ o new,
    get_cert env h p tr = (o, tr ++ EvResolve h :: new) ∧ o ≠ OutOfFuel ∧
    ((new = [] ∧ ∃ e, o = Raise e) ∨
     ∃ ip addr addr_info,
       new = [EvTlsConnect ip p h] ∧
       getaddrinfo env tr h = Some addr_info ∧ ip ∈ addr_info ∧
       ip_address env ip = Some addr ∧ restricted addr = false).
Proof.
  unfold get_cert, do_getaddrinfo. run.
  destruct (getaddrinfo env tr h) as [l|] eqn:Hl.
  2:{ eexists _, []. split; [done|]. split; [done|]. left. eauto. }
  destruct (first_safe_ip_run env l (tr ++ [EvResolve h])) as (o & Hrun & Ho).
  rewrite Hrun. destruct o as [[ip|]|e|]; [| | |done].
  - apply first_safe_ip_Some in Hrun as (_ & Hin & addr & Hip & Hr).
    destruct (PyStr.is_empty ip).
    { eexists _, []. split; [done|]. split; [done|]. left. eauto. }
    unfold do_getpeercert.
    exists (match getpeercert env (tr ++ [EvResolve h]) ip p h with
            | inl c => Ret c | inr e => Raise e end), [EvTlsConnect ip p h].
    split; [by rewrite <- app_assoc|].
    split; [by destruct (getpeercert _ _ _ _ _)|].
    right. exists ip, addr, l. done.
  - eexists _, []. split; [done|]. split; [done|]. left. eauto.
  - eexists _, []. split; [done|]. split; [done|]. left. eauto.
Qed.

(** Every way [_check_ssl] can go. *)
Lemma _check_ssl_cases env url tr :
  ∃ d new b,
    _check_ssl env url tr = (Ret d, tr ++ new) ∧
    d !! "valid" = Some (VBool b) ∧
    (b = false → d !! "warning" = None) ∧
    ((b = false ∧ (∃ msg, d !! "error" = Some (VStr msg)) ∧
      (new = [] ∨
       ∃ parsed, urlparse env url = Some parsed ∧
                 ((safe_at env tr (hostname parsed) = false ∧
                   new = lookups (hostname parsed) ∧
                   d !! "error" = Some (VStr forbidden_message)) ∨
                  (∃ h, hostname parsed = Some h ∧ new = [EvResolve h; EvResolve h])))) ∨
     ∃ parsed p h ip addr addr_info,
       urlparse env url = Some parsed ∧ hostname parsed = Some h ∧
       port parsed = Some p ∧ safe_at env tr (Some h) = true ∧
       new = [EvResolve h; EvResolve h; EvTlsConnect ip (tls_port p) h] ∧
       getaddrinfo env (tr ++ [EvResolve h]) h = Some addr_info ∧ ip ∈ addr_info ∧
       ip_address env ip = Some addr ∧ restricted addr = false ∧
       (b = false → ∃ msg, d !! "error" = Some (VStr msg)) ∧
       (b = true →
          ∃ days, d !! "days_until_expiry" = Some (VInt days) ∧
                  d !! "warning" = Some (VBool (days <? 30)) ∧
                  d !! "error" = None)).
Proof.
  unfold _check_ssl, do_urlparse. run.
  destruct (urlparse env url) as [parsed|] eqn:Hparse; simpl.
  2:{ exists (dict_of [("valid", VBool false); ("error", VStr "Invalid URL")]), [], false.
      rewrite app_nil_r. split; [done|]. split; [done|]. split; [done|]. left. eauto 10. }
  destruct (port parsed) as [p|] eqn:Hport; simpl.
  2:{ eexists _, [], false.
      rewrite app_nil_r. split; [done|]. split; [done|]. split; [done|]. left.
      split; [done|]. split; [by eexists|]. by left. }
  rewrite _is_safe_hostname_run.
  destruct (safe_at env tr (hostname parsed)) eqn:Hsafe; simpl.
  2:{ eexists _, (lookups (hostname parsed)), false.
      split; [done|]. split; [done|]. split; [done|]. left.
      split; [done|]. split; [by eexists|]. right. exists parsed. split; [done|].
      left. done. }
  destruct (lookups_safe _ _ _ Hsafe) as (h & Hh & Hlk). rewrite Hh, Hlk in *. simpl.
  fold (tls_port p).
  destruct (get_cert_cases env h (tls_port p) (tr ++ [EvResolve h]))
    as (o & new & -> & Ho & Hnew).
  assert (Happ : ∀ l, (tr ++ [EvResolve h]) ++ EvResolve h :: l
                      = tr ++ EvResolve h :: EvResolve h :: l)
    by (intros l; by rewrite <- app_assoc).
  rewrite Happ.
  destruct Hnew as [[-> (e & ->)] | (ip & addr & l & -> & Hl & Hin & Hip & Hr)].
  - exists (match e with
            | SSLError details =>
                dict_of [("valid", VBool false); ("error", VStr "SSL certificate error");
                         ("details", VStr details)]
            | _ => dict_of [("valid", VBool false); ("error", VStr (str_of_exn e))]
            end), [EvResolve h; EvResolve h], false.
    split; [by destruct e|]. split; [by destruct e|]. split; [by destruct e|]. left.
    split; [done|]. split; [destruct e; by eexists|].
    right. exists parsed. split; [done|]. right. eauto.
  - destruct o as [cert|e|]; [| |done].
    + destruct (strptime env _) as [expiry|]; simpl.
      * unfold do_utcnow. eexists _, _, true. split; [done|]. split; [done|].
        split; [done|]. right. exists parsed, p, h, ip, addr, l.
        do 9 (split; [done|]). split; [done|]. intros _. eexists. done.
      * eexists _, _, false. split; [done|]. split; [done|].
        split; [done|]. right. exists parsed, p, h, ip, addr, l.
        do 9 (split; [done|]). split; [intros _; by eexists|done].
    + exists (match e with
            | SSLError details =>
                dict_of [("valid", VBool false); ("error", VStr "SSL certificate error");
                         ("details", VStr details)]
            | _ => dict_of [("valid", VBool false); ("error", VStr (str_of_exn e))]
            end), [EvResolve h; EvResolve h; EvTlsConnect ip (tls_port p) h], false.
      split; [by destruct e|]. split; [by destruct e|]. split; [by destruct e|].
      right. exists parsed, p, h, ip, addr, l.
      do 9 (split; [done|]). split; [intros _; destruct e; by eexists|done].
Qed.

Lemma _check_http_run env fuel url timeout tr :
  _check_http env fuel url timeout tr =
  _check_http_loop env fuel url timeout (utcnow env tr) url 0 tr.
Proof. done. Qed.

(** [check_url], one stage after the other. *)
Lemma check_url_run env fuel url timeout tr parsed :
  urlparse env (normalize_url url) = Some parsed →
  check_url env fuel url timeout tr =
  let url' := normalize_url url in
  let tr0 := tr ++ lookups (hostname parsed) in
  let initial := initial_result env url' (utcnow env tr0) in
  if safe_at env tr (hostname parsed) then
    match _check_http env fuel url' (effective_timeout timeout) tr0 with
    | (Ret http, tr1) =>
        if PyStr.startswith "https://" url' then
          match _check_ssl env url' tr1 with
          | (Ret ssl, tr2) =>
              (Ret (finished_result (<["ssl" := VDict ssl]> (http ∪ initial))), tr2)
          | (Raise e, tr2) =>
              (Ret (<["cta" := call_to_action]>
                      (check_url_except (effective_timeout timeout) e (http ∪ initial))),
               tr2)
          | (OutOfFuel, tr2) => (OutOfFuel, tr2)
          end
        else (Ret (finished_result (http ∪ initial)), tr1)
    | (Raise e, tr1) =>
        (Ret (<["cta" := call_to_action]>
                (check_url_except (effective_timeout timeout) e initial)), tr1)
    | (OutOfFuel, tr1) => (OutOfFuel, tr1)
    end
  else (Ret (forbidden_result env url' (utcnow env tr0)), tr0).
Proof.
  intros Hparse. unfold check_url, do_urlparse. run. rewrite Hparse. simpl.
  rewrite _is_safe_hostname_run.
  destruct (safe_at env tr (hostname parsed)); simpl; [|done].
  unfold do_utcnow, check_url_try, in_try. run.
  fold (effective_timeout timeout).
  change (<["url" := VStr (normalize_url url)]> _) with
    (initial_result env (normalize_url url) (utcnow env (tr ++ lookups (hostname parsed)))).
  destruct (_check_http env fuel (normalize_url url) (effective_timeout timeout) _)
    as [[http|e|] tr1]; [|done|done].
  destruct (PyStr.startswith "https://" (normalize_url url)); [|done].
  destruct (_check_ssl env (normalize_url url) tr1) as [[ssl|e|] tr2]; done.
Qed.

Ltac count_events :=
  rewrite ?http_requests_app, ?tls_connects_app, ?dns_lookups_app,
    ?http_requests_lookups, ?tls_connects_lookups;
  unfold http_requests, tls_connects, dns_lookups in *; simpl.

(** The loop of [_check_http] makes one request per iteration, after at most
    one lookup, and no TLS connection; the counter of redirects bounds them
    whatever the fuel. *)
Lemma _check_http_loop_budget env url timeout start fuel :
  ∀ cur rc tr,
    0 ≤ rc ≤ max_redirects →
    ∃ o requests,
      _check_http_loop env fuel url timeout start cur rc tr = (o, tr ++ requests) ∧
      Z.of_nat (http_requests requests) ≤ max_redirects + 1 - rc ∧
      Z.of_nat (dns_lookups requests) ≤ max_redirects + 1 - rc ∧
      tls_connects requests = 0%nat.
Proof.
  unfold max_redirects.
  induction fuel as [|fuel IH]; intros cur rc tr Hrc.
  { exists OutOfFuel, []. rewrite app_nil_r. split; [done|]. count_events. lia. }
  rewrite _check_http_loop_step.
  destruct (urlparse env cur) as [parsed|].
  2:{ eexists _, []. rewrite app_nil_r. split; [done|]. count_events. lia. }
  cbv zeta. set (hn := hostname parsed).
  pose proof (dns_lookups_lookups hn) as Hdns.
  destruct (safe_at env tr hn).
  2:{ eexists _, (lookups hn). split; [done|]. count_events. lia. }
  destruct (session_get env (tr ++ lookups hn) cur timeout) as [response|e].
  2:{ eexists _, (lookups hn ++ [EvHttpGet cur]). rewrite app_assoc.
      split; [done|]. count_events. lia. }
  destruct (redirect_target response rc) as [location|] eqn:Hredir.
  - apply redirect_target_Some in Hredir. unfold max_redirects in Hredir.
    destruct (IH (urljoin env cur location) (rc + 1)
                 ((tr ++ lookups hn) ++ [EvHttpGet cur]))
      as (o & requests & Hrun & Hh & Hd & Ht); [lia|].
    exists o, (lookups hn ++ [EvHttpGet cur] ++ requests).
    split; [rewrite Hrun; f_equal; by rewrite <- !app_assoc|].
    count_events. lia.
  - destruct (final_http_result_run env url cur start response
                ((tr ++ lookups hn) ++ [EvHttpGet cur])) as (o & -> & Ho).
    exists o, (lookups hn ++ [EvHttpGet cur]). rewrite app_assoc.
    split; [done|]. count_events. lia.
Qed.

(** The network operations of a probe: the first validation, the requests of
    [_check_http], and the ones of [_check_ssl] when it is called. *)
Lemma check_url_events env fuel url timeout tr :
  ∃ o validation requests tls,
    check_url env fuel url timeout tr = (o, tr ++ validation ++ requests ++ tls) ∧
    (dns_lookups validation ≤ 1)%nat ∧ http_requests validation = 0%nat ∧
    tls_connects validation = 0%nat ∧
    (http_requests requests ≤ 6)%nat ∧ (dns_lookups requests ≤ 6)%nat ∧
    tls_connects requests = 0%nat ∧
    (tls = [] ∨
     PyStr.startswith "https://" (normalize_url url) = true ∧
     ∃ d b, _check_ssl env (normalize_url url) (tr ++ validation ++ requests)
              = (Ret d, (tr ++ validation ++ requests) ++ tls) ∧
            d !! "valid" = Some (VBool b)).
Proof.
  destruct (urlparse env (normalize_url url)) as [parsed|] eqn:Hparse.
  2:{ exists (Raise (ValueError "Invalid URL")), [], [], [].
      unfold check_url, do_urlparse. run. rewrite Hparse. simpl. rewrite app_nil_r.
      split; [done|]. repeat (split; [by (count_events; lia)|]). by left. }
  rewrite (check_url_run _ _ _ _ _ _ Hparse). cbv zeta.
  set (tr0 := tr ++ lookups (hostname parsed)).
  destruct (safe_at env tr (hostname parsed)).
  2:{ eexists _, (lookups (hostname parsed)), [], []. rewrite !app_nil_r.
      split; [done|]. split; [apply dns_lookups_lookups|].
      split; [apply http_requests_lookups|]. split; [apply tls_connects_lookups|].
      repeat (split; [by (count_events; lia)|]). by left. }
  rewrite _check_http_run.
  destruct (_check_http_loop_budget env (normalize_url url) (effective_timeout timeout)
              (utcnow env tr0) fuel (normalize_url url) 0 tr0)
    as (o1 & requests & -> & Hh & Hd & Ht); [unfold max_redirects; lia|].
  unfold max_redirects in *.
  assert (Hcommon : ∀ o' : outcome dict, ∃ o validation requests' tls,
    (o', tr0 ++ requests) = (o, tr ++ validation ++ requests' ++ tls) ∧
    (dns_lookups validation ≤ 1)%nat ∧ http_requests validation = 0%nat ∧
    tls_connects validation = 0%nat ∧
    (http_requests requests' ≤ 6)%nat ∧ (dns_lookups requests' ≤ 6)%nat ∧
    tls_connects requests' = 0%nat ∧
    (tls = [] ∨
     PyStr.startswith "https://" (normalize_url url) = true ∧
     ∃ d b, _check_ssl env (normalize_url url) (tr ++ validation ++ requests')
              = (Ret d, (tr ++ validation ++ requests') ++ tls) ∧
            d !! "valid" = Some (VBool b))).
  { intros o'. exists o', (lookups (hostname parsed)), requests, [].
    subst tr0. rewrite app_nil_r, <- app_assoc. split; [done|].
    split; [apply dns_lookups_lookups|].
    split; [apply http_requests_lookups|]. split; [apply tls_connects_lookups|].
    split; [lia|]. split; [lia|]. split; [done|]. by left. }
  destruct o1 as [http|e|]; [|apply Hcommon|apply Hcommon].
  destruct (PyStr.startswith "https://" (normalize_url url)) eqn:Hhttps; [|apply Hcommon].
  destruct (_check_ssl_cases env (normalize_url url) (tr0 ++ requests))
    as (d & tls & b & Hssl & Hb & _ & _).
  rewrite Hssl.
  eexists _, (lookups (hostname parsed)), requests, tls.
  subst tr0. rewrite <- !app_assoc in *. split; [done|].
  split; [apply dns_lookups_lookups|].
  split; [apply http_requests_lookups|]. split; [apply tls_connects_lookups|].
  split; [lia|]. split; [lia|]. split; [done|]. right. split; [done|].
  by exists d, b.
Qed.

Lemma no_tls_in_lookups hn ip port sni : EvTlsConnect ip port sni ∉ lookups hn.
Proof.
  destruct hn as [h|]; simpl; [|by intros ?%elem_of_nil].
  destruct (_ || _); [by intros ?%elem_of_nil|].
  intros [=]%list_elem_of_singleton.
Qed.

(** [_check_ssl] makes at most two lookups and one TLS connection, and no
    HTTP request. *)
Lemma _check_ssl_counts env url tr d new :
  _check_ssl env url tr = (Ret d, tr ++ new) →
  (tls_connects new ≤ 1)%nat ∧ (dns_lookups new ≤ 2)%nat ∧ http_requests new = 0%nat.
Proof.
  destruct (_check_ssl_cases env url tr) as (d' & new' & b & -> & Hb & _ & Hcases).
  intros [= _ Heq]. apply app_inv_head in Heq as ->.
  destruct Hcases as [(-> & _ & Hnew) |
    (parsed & p & h & ip & addr & l & _ & _ & _ & _ & -> & _)].
  - destruct Hnew as [-> | (parsed & Hparse & [(_ & -> & _) | (h & _ & ->)])].
    + count_events; lia.
    + pose proof (dns_lookups_lookups (hostname parsed)).
      split; [count_events; lia|]. split; [lia|]. apply http_requests_lookups.
    + count_events; lia.
  - count_events; lia.
Qed.

(** X2.  [_check_ssl] never raises: it always returns a dictionary whose
    [valid] is a boolean.  [valid] is [False] exactly when the dictionary
    has an [error]; when it is [True], exactly one TLS connection was made
    and the dictionary gives [days_until_expiry] and [warning], which is
    [days_until_expiry < 30]. *)
Theorem _check_ssl_always_answers env url tr :
  ∃ d new valid,
    _check_ssl env url tr = (Ret d, tr ++ new) ∧
    d !! "valid" = Some (VBool valid) ∧
    (valid = false ↔ ∃ msg, d !! "error" = Some (VStr msg)) ∧
    (valid = true →
       tls_connects new = 1%nat ∧
       ∃ days, d !! "days_until_expiry" = Some (VInt days) ∧
               d !! "warning" = Some (VBool (days <? 30))).
Proof.
  destruct (_check_ssl_cases env url tr) as (d & new & b & Hrun & Hb & _ & Hcases).
  exists d, new, b. split; [done|]. split; [done|].
  destruct Hcases as [(-> & Herr & _) |
    (parsed & p & h & ip & addr & l & _ & _ & _ & _ & -> & _ & _ & _ & _ & Hf & Ht)].
  - split; [done|]. done.
  - split.
    + split; [done|]. intros [msg Hmsg]. destruct b; [|done].
      destruct (Ht eq_refl) as (days & _ & _ & Hnone). congruence.
    + intros ->. split; [done|].
      destruct (Ht eq_refl) as (days & ? & ? & _). eauto.
Qed.

(** X3.  [_check_ssl] makes at most one TLS connection.  That connection
    is made only after [_is_safe_hostname] has accepted the host name of the
    URL; it goes to an address of the lookup of [get_cert] that parses and is
    in no restricted range, on the port of the URL (443 when it has none),
    with the host name of the URL as [server_hostname]. *)
Theorem _check_ssl_connects_to_public_address env url tr :
  ∃ d new,
    _check_ssl env url tr = (Ret d, tr ++ new) ∧
    (tls_connects new ≤ 1)%nat ∧
    ∀ ip port sni,
      EvTlsConnect ip port sni ∈ new →
      ∃ parsed p addr addr_info,
        urlparse env url = Some parsed ∧
        hostname parsed = Some sni ∧
        Prober.port parsed = Some p ∧ port = tls_port p ∧
        safe_at env tr (Some sni) = true ∧
        getaddrinfo env (tr ++ [EvResolve sni]) sni = Some addr_info ∧
        ip ∈ addr_info ∧
        ip_address env ip = Some addr ∧ restricted addr = false.
Proof.
  destruct (_check_ssl_cases env url tr) as (d & new & b & Hrun & Hb & _ & Hcases).
  exists d, new. split; [done|].
  split; [by destruct (_check_ssl_counts _ _ _ _ _ Hrun)|].
  destruct Hcases as [(-> & _ & Hnew) |
    (parsed & p & h & ip & addr & l & Hparse & Hh & Hp & Hsafe & -> & Hl & Hin & Hip & Hr & _)].
  - destruct Hnew as [-> | (parsed & Hparse & [(_ & -> & _) | (h & _ & ->)])].
    + by intros ??? ?%elem_of_nil.
    + intros ip port sni Hin. by apply no_tls_in_lookups in Hin.
    + intros ip port sni Hin. repeat (apply elem_of_cons in Hin as [[=]|Hin]).
      by apply elem_of_nil in Hin.
  - intros ip' port sni Hin'.
    do 2 (apply elem_of_cons in Hin' as [[=]|Hin']).
    apply list_elem_of_singleton in Hin' as [= -> -> ->].
    exists parsed, p, addr, l. done.
Qed.

(** X4.  For a URL whose host name [_is_safe_hostname] rejects,
    [_check_ssl] returns [valid = False] with the error "Forbidden: ..."
    after the lookups of that verdict, and makes no TLS connection. *)
Theorem _check_ssl_rejects_forbidden_host env url tr parsed p :
  urlparse env url = Some parsed →
  port parsed = Some p →
  safe_at env tr (hostname parsed) = false →
  _check_ssl env url tr =
    (Ret (dict_of [("valid", VBool false); ("error", VStr forbidden_message)]),
     tr ++ lookups (hostname parsed)) ∧
  tls_connects (lookups (hostname parsed)) = 0%nat.
Proof.
  intros Hparse Hport Hsafe. split; [|apply tls_connects_lookups].
  unfold _check_ssl, do_urlparse. run. rewrite Hparse. simpl. rewrite Hport. simpl.
  rewrite _is_safe_hostname_run, Hsafe. done.
Qed.


Lemma no_tls_without_connects tr ip port sni :
  tls_connects tr = 0%nat → EvTlsConnect ip port sni ∉ tr.
Proof.
  unfold tls_connects. intros Hlen Hin.
  apply list_elem_of_In in Hin.
  assert (Hf : In (EvTlsConnect ip port sni) (List.filter is_tls_connect tr))
    by (apply filter_In; done).
  destruct (List.filter is_tls_connect tr); [done|]. done.
Qed.

(** X6.  Every TLS connection that [check_url] makes is for an https URL,
    goes to an address that parses and is in no restricted range, and
    carries the host name of the normalised URL as [server_hostname]. *)
Theorem check_url_tls_target_is_public env fuel url timeout tr :
  ∃ o new,
    check_url env fuel url timeout tr = (o, tr ++ new) ∧
    ∀ ip port sni,
      EvTlsConnect ip port sni ∈ new →
      PyStr.startswith "https://" (normalize_url url) = true ∧
      ∃ parsed addr,
        urlparse env (normalize_url url) = Some parsed ∧
        hostname parsed = Some sni ∧
        ip_address env ip = Some addr ∧ restricted addr = false.
Proof.
  destruct (check_url_events env fuel url timeout tr)
    as (o & validation & requests & tls & Hrun & _ & _ & Ht1 & _ & _ & Ht2 & Htls).
  exists o, (validation ++ requests ++ tls). split; [done|].
  intros ip port sni Hin.
  apply elem_of_app in Hin as [Hin|Hin]; [by apply no_tls_without_connects in Hin|].
  apply elem_of_app in Hin as [Hin|Hin]; [by apply no_tls_without_connects in Hin|].
  destruct Htls as [-> | (Hhttps & d & b & Hssl & _)]; [by apply elem_of_nil in Hin|].
  split; [done|].
  destruct (_check_ssl_cases env (normalize_url url) (tr ++ validation ++ requests))
    as (d' & new & b' & Hrun' & _ & _ & Hcases).
  rewrite Hssl in Hrun'. injection Hrun' as _ Heq. apply app_inv_head in Heq as <-.
  destruct Hcases as [(_ & _ & Hnew) |
    (parsed & p & h & ip' & addr & l & Hparse & Hh & _ & _ & -> & _ & _ & Hip & Hr & _)].
  - destruct Hnew as [-> | (parsed & Hparse & [(_ & -> & _) | (h & _ & ->)])].
    + by apply elem_of_nil in Hin.
    + by apply no_tls_in_lookups in Hin.
    + repeat (apply elem_of_cons in Hin as [[=]|Hin]). by apply elem_of_nil in Hin.
  - do 2 (apply elem_of_cons in Hin as [[=]|Hin]).
    apply list_elem_of_singleton in Hin as [= -> -> ->].
    exists parsed, addr. done.
Qed.

Ltac in_list := repeat first [by left | right].

Lemma finished_result_fields (r : dict) :
  let r2 := <["status" := VStr (if truthy (verdict r) then "healthy" else "unhealthy")]>
              (<["healthy" := verdict r]> r) in
  finished_result r !! "healthy" = Some (verdict r) ∧
  finished_result r !! "status"
    = Some (VStr (if truthy (verdict r) then "healthy" else "unhealthy")) ∧
  finished_result r !! "suggestions" = Some (VList (_generate_suggestions r2)) ∧
  finished_result r !! "cta" = Some call_to_action ∧
  finished_result r !! "url" = r !! "url" ∧
  finished_result r !! "error" = r !! "error" ∧
  finished_result r !! "ssl" = r !! "ssl" ∧
  finished_result r !! "status_code" = r !! "status_code" ∧
  r2 !! "ssl" = r !! "ssl" ∧
  r2 !! "healthy" = Some (verdict r).
Proof.
  unfold finished_result. cbv zeta.
  repeat split;
    repeat (first [rewrite lookup_insert_eq | rewrite lookup_insert_ne by done]); done.
Qed.

(** The verdict is a boolean when the status code is a number and the TLS
    check, if any, says whether the certificate is valid. *)
Lemma verdict_bool (r : dict) z :
  r !! "status_code" = Some (VInt z) →
  (r !! "ssl" = None ∨
   ∃ ssl b, r !! "ssl" = Some (VDict ssl) ∧ ssl !! "valid" = Some (VBool b)) →
  ∃ b, verdict r = VBool b ∧ (b = true → 200 ≤ z < 400).
Proof.
  intros Hz Hssl. unfold verdict, dict_get. rewrite Hz. simpl.
  unfold py_and. simpl.
  destruct ((200 <=? z) && (z <? 400)) eqn:E.
  - destruct Hssl as [-> | (ssl & b & -> & Hb)]; simpl.
    + exists true. split; [done|]. intros _. lia.
    + rewrite Hb. simpl. exists b. split; [done|]. intros _. lia.
  - exists false. done.
Qed.

(** What [_check_http] returns: the 403 of a forbidden hop, or the
    description of the last response. *)
Lemma _check_http_loop_shape env url timeout start fuel :
  ∀ cur rc tr result tr',
    _check_http_loop env fuel url timeout start cur rc tr = (Ret result, tr') →
    result !! "url" = None ∧ result !! "ssl" = None ∧
    ∃ z, result !! "status_code" = Some (VInt z) ∧
         (result !! "error" = None ∨ z = 403).
Proof.
  induction fuel as [|fuel IH]; intros cur rc tr result tr' Hrun; [done|].
  rewrite _check_http_loop_step in Hrun.
  destruct (urlparse env cur) as [parsed|]; [|done]. cbv zeta in Hrun.
  destruct (safe_at env tr (hostname parsed)).
  2:{ injection Hrun as <- <-. do 2 (split; [done|]). exists 403. split; [done|]. by right. }
  destruct (session_get env _ cur timeout) as [response|e]; [|done].
  destruct (redirect_target response rc) as [location|]; [by eapply IH|].
  revert Hrun. unfold final_http_result, do_utcnow. run.
  destruct (str_isdigit env _); [destruct (int_of_str env _)|]; intros [= <- <-];
    (do 2 (split; [done|])); eexists; (split; [done|]); by left.
Qed.

(** X7.  When [_check_http] raises, [check_url] still returns.  The result
    has [healthy = False], no status code and no [ssl] entry (the TLS check
    is skipped: no TLS connection is made), and the call to action.  Its
    [status] is [timeout] for [asyncio.TimeoutError], with the error
    "Request timed out after N seconds" where N is the timeout in force;
    [connection_error] for [aiohttp.ClientError] and [error] for any other
    exception, with the text of the exception as error. *)
Theorem check_url_reports_network_failure env fuel url timeout tr parsed e tr' :
  urlparse env (normalize_url url) = Some parsed →
  safe_at env tr (hostname parsed) = true →
  _check_http env fuel (normalize_url url) (effective_timeout timeout)
    (tr ++ lookups (hostname parsed)) = (Raise e, tr') →
  ∃ result,
    check_url env fuel url timeout tr = (Ret result, tr') ∧
    result !! "healthy" = Some (VBool false) ∧
    result !! "status" = Some (VStr (match e with
                                     | TimeoutError => "timeout"
                                     | ClientError _ => "connection_error"
                                     | _ => "error"
                                     end)) ∧
    result !! "error" = Some (VStr (match e with
                                    | TimeoutError =>
                                        "Request timed out after "
                                        +:+ pretty (effective_timeout timeout)
                                        +:+ " seconds"
                                    | _ => str_of_exn e
                                    end)) ∧
    result !! "status_code" = None ∧
    result !! "ssl" = None ∧
    result !! "cta" = Some call_to_action ∧
    tls_connects tr' = tls_connects tr.
Proof.
  intros Hparse Hsafe Hhttp.
  rewrite (check_url_run _ _ _ _ _ _ Hparse). cbv zeta. rewrite Hsafe, Hhttp.
  eexists. split; [done|].
  assert (Htls : tls_connects tr' = tls_connects tr).
  { rewrite _check_http_run in Hhttp.
    destruct (_check_http_loop_budget env (normalize_url url) (effective_timeout timeout)
                (utcnow env (tr ++ lookups (hostname parsed))) fuel (normalize_url url) 0
                (tr ++ lookups (hostname parsed)))
      as (o & requests & Hrun & _ & _ & Ht); [unfold max_redirects; lia|].
    rewrite Hhttp in Hrun. injection Hrun as _ ->.
    rewrite !tls_connects_app, tls_connects_lookups, Ht. lia. }
  destruct e; done.
Qed.

(** X8.  Every result of [check_url] carries the normalised URL, a boolean
    [healthy] and a [status] that is one of [healthy], [unhealthy], [error],
    [timeout], [connection_error] (never the initial [unknown]).  [healthy]
    is true exactly when the status is [healthy]; a healthy result has no
    [error], and a result whose status is [error], [timeout] or
    [connection_error] has one. *)
Theorem check_url_status_matches_healthy env fuel url timeout tr result tr' :
  check_url env fuel url timeout tr = (Ret result, tr') →
  result !! "url" = Some (VStr (normalize_url url)) ∧
  ∃ healthy status,
    result !! "healthy" = Some (VBool healthy) ∧
    result !! "status" = Some (VStr status) ∧
    status ∈ ["healthy"; "unhealthy"; "error"; "timeout"; "connection_error"] ∧
    (healthy = true ↔ status = "healthy") ∧
    (healthy = true → result !! "error" = None) ∧
    (status ∈ ["error"; "timeout"; "connection_error"] →
     ∃ msg, result !! "error" = Some (VStr msg)).
Proof.
  destruct (urlparse env (normalize_url url)) as [parsed|] eqn:Hparse.
  2:{ unfold check_url, do_urlparse. run. rewrite Hparse. done. }
  rewrite (check_url_run _ _ _ _ _ _ Hparse). cbv zeta.
  set (tr0 := tr ++ lookups (hostname parsed)).
  set (initial := initial_result env (normalize_url url) (utcnow env tr0)).
  assert (Hfinish : ∀ (r : dict) z,
    r !! "url" = Some (VStr (normalize_url url)) →
    r !! "status_code" = Some (VInt z) →
    (r !! "error" = None ∨ z = 403) →
    (r !! "ssl" = None ∨
     ∃ ssl b, r !! "ssl" = Some (VDict ssl) ∧ ssl !! "valid" = Some (VBool b)) →
    finished_result r !! "url" = Some (VStr (normalize_url url)) ∧
    ∃ healthy status,
      finished_result r !! "healthy" = Some (VBool healthy) ∧
      finished_result r !! "status" = Some (VStr status) ∧
      status ∈ ["healthy"; "unhealthy"; "error"; "timeout"; "connection_error"] ∧
      (healthy = true ↔ status = "healthy") ∧
      (healthy = true → finished_result r !! "error" = None) ∧
      (status ∈ ["error"; "timeout"; "connection_error"] →
       ∃ msg, finished_result r !! "error" = Some (VStr msg))).
  { intros r z Hurl Hz Herr Hssl.
    destruct (finished_result_fields r) as (Hh & Hs & _ & _ & Hu & He & _).
    destruct (verdict_bool r z Hz Hssl) as (b & Hb & Hrange).
    rewrite Hu, Hh, Hs, He, Hb. split; [done|].
    exists b, (if b then "healthy" else "unhealthy"). simpl.
    split; [done|]. split; [done|].
    split; [destruct b; in_list|].
    split; [by destruct b|].
    split.
    - intros ->. destruct Herr as [?| ->]; [done|]. specialize (Hrange eq_refl). lia.
    - destruct b; intros Hin; repeat (apply elem_of_cons in Hin as [[=]|Hin]);
        by apply elem_of_nil in Hin. }
  destruct (safe_at env tr (hostname parsed)).
  2:{ intros [= <- <-]. split; [done|]. exists false, "error".
      split; [done|]. split; [done|]. split; [in_list|]. split; [done|].
      split; [done|]. intros _. by eexists. }
  destruct (_check_http env fuel (normalize_url url) (effective_timeout timeout) tr0)
    as [[http|e|] tr1] eqn:Hhttp; [| |done].
  2:{ intros [= <- <-]. split; [by destruct e|].
      exists false, (match e with
                     | TimeoutError => "timeout"
                     | ClientError _ => "connection_error"
                     | _ => "error"
                     end).
      split; [by destruct e|]. split; [by destruct e|].
      split; [destruct e; in_list|]. split; [by destruct e|].
      split; [done|]. intros _. destruct e; by eexists. }
  rewrite _check_http_run in Hhttp.
  apply _check_http_loop_shape in Hhttp as (Hnourl & Hnossl & z & Hz & Herr).
  assert (Hurl : (http ∪ initial) !! "url" = Some (VStr (normalize_url url))).
  { rewrite lookup_union_r by done. done. }
  assert (Hcode : (http ∪ initial) !! "status_code" = Some (VInt z))
    by by apply lookup_union_Some_l.
  assert (Herr' : (http ∪ initial) !! "error" = None ∨ z = 403).
  { destruct Herr as [Herr| ->]; [left|by right]. by apply lookup_union_None. }
  destruct (PyStr.startswith "https://" (normalize_url url)).
  - destruct (_check_ssl_run env (normalize_url url) tr1) as (ssl & tr2 & b & -> & Hb).
    intros [= <- <-]. apply (Hfinish _ z).
    + by rewrite lookup_insert_ne.
    + by rewrite lookup_insert_ne.
    + by rewrite lookup_insert_ne.
    + right. exists ssl, b. by rewrite lookup_insert_eq.
  - intros [= <- <-]. apply (Hfinish _ z); [done|done|done|].
    left. by apply lookup_union_None.
Qed.

Lemma _generate_suggestions_ssl (r : dict) ssl :
  r !! "ssl" = Some (VDict ssl) →
  (∀ days, ssl !! "warning" = Some (VBool true) →
           ssl !! "days_until_expiry" = Some (VInt days) →
           renew_soon days ∈ _generate_suggestions r) ∧
  (ssl !! "warning" = None → ssl !! "valid" = Some (VBool false) →
   "SSL certificate invalid - fix immediately" ∈ _generate_suggestions r).
Proof.
  intros Hssl. unfold _generate_suggestions, dict_get. rewrite Hssl. cbv zeta.
  simpl default. simpl as_dict.
  set (s1 := [] ++ _ : list string) || set (s1 := if 500 <=? _ then _ else _).
  set (s2 := if 3000 * 1000 <? _ then _ else _).
  split.
  - intros days -> ->. simpl.
    destruct (truthy _ && _); rewrite ?elem_of_app; [left|]; right; by left.
  - intros -> ->. simpl.
    destruct (truthy _ && _); rewrite ?elem_of_app; [left|]; right; by left.
Qed.

Lemma check_url_except_ssl timeout e (r : dict) :
  check_url_except timeout e r !! "ssl" = r !! "ssl".
Proof. destruct e; simpl; by rewrite !lookup_insert_ne. Qed.

(** X9.  In every result of [check_url] that has an [ssl] entry, that entry
    says whether the certificate is valid, and the suggestions explain it:
    when it is not valid the result is not healthy and the suggestions hold
    "SSL certificate invalid - fix immediately"; when it is valid and
    expires in fewer than 30 days they hold "SSL certificate expires in N
    days - renew soon". *)
Theorem check_url_explains_tls_result env fuel url timeout tr result tr' ssl :
  check_url env fuel url timeout tr = (Ret result, tr') →
  result !! "ssl" = Some (VDict ssl) →
  ∃ valid suggestions,
    ssl !! "valid" = Some (VBool valid) ∧
    result !! "suggestions" = Some (VList suggestions) ∧
    (valid = false →
       result !! "healthy" = Some (VBool false) ∧
       "SSL certificate invalid - fix immediately" ∈ suggestions) ∧
    (valid = true →
       ∃ days, ssl !! "days_until_expiry" = Some (VInt days) ∧
               (days < 30 → renew_soon days ∈ suggestions)).
Proof.
  destruct (urlparse env (normalize_url url)) as [parsed|] eqn:Hparse.
  2:{ unfold check_url, do_urlparse. run. rewrite Hparse. done. }
  rewrite (check_url_run _ _ _ _ _ _ Hparse). cbv zeta.
  set (tr0 := tr ++ lookups (hostname parsed)).
  set (initial := initial_result env (normalize_url url) (utcnow env tr0)).
  destruct (safe_at env tr (hostname parsed)); [|by intros [= <- <-]].
  destruct (_check_http env fuel (normalize_url url) (effective_timeout timeout) tr0)
    as [[http|e|] tr1] eqn:Hhttp; [| |done].
  2:{ intros [= <- <-]. rewrite lookup_insert_ne by done.
      by rewrite check_url_except_ssl. }
  rewrite _check_http_run in Hhttp.
  apply _check_http_loop_shape in Hhttp as (_ & Hnossl & _).
  assert (Hnone : (http ∪ initial) !! "ssl" = None) by by apply lookup_union_None.
  destruct (PyStr.startswith "https://" (normalize_url url)).
  2:{ intros [= <- <-].
      destruct (finished_result_fields (http ∪ initial)) as (_ & _ & _ & _ & _ & _ & -> & _).
      by rewrite Hnone. }
  destruct (_check_ssl_cases env (normalize_url url) tr1)
    as (d & new & b & -> & Hb & Hwarn & Hcases).
  intros [= <- <-].
  set (r := <["ssl" := VDict d]> (http ∪ initial)).
  destruct (finished_result_fields r) as (Hh & _ & Hs & _ & _ & _ & Hssl & _ & Hssl2 & _).
  rewrite Hssl. unfold r at 1. rewrite lookup_insert_eq. intros [= <-].
  exists b. eexists. split; [done|]. split; [exact Hs|].
  assert (Hr : r !! "ssl" = Some (VDict d)) by (unfold r; by rewrite lookup_insert_eq).
  rewrite Hr in Hssl2.
  destruct (_generate_suggestions_ssl _ d Hssl2) as [Hrenew Hinvalid].
  split.
  - intros ->. split.
    + rewrite Hh. unfold verdict, dict_get. rewrite Hr. simpl. rewrite Hb. simpl.
      unfold py_and. simpl. by destruct (in_range _ _ _).
    + apply Hinvalid; [by apply Hwarn|done].
  - intros ->.
    destruct Hcases as [([=] & _) |
      (? & ? & ? & ? & ? & ? & _ & _ & _ & _ & _ & _ & _ & _ & _ & _ & Ht)].
    destruct (Ht eq_refl) as (days & Hdays & Hw & _).
    exists days. split; [done|]. intros Hlt.
    apply Hrenew; [|done]. rewrite Hw. do 2 f_equal. lia.
Qed.

(** X10.  [_generate_suggestions] returns at most three suggestions, and at
    least one for a result whose [healthy] is truthy. *)
Theorem _generate_suggestions_bounds (result : dict) :
  (List.length (_generate_suggestions result) ≤ 3)%nat ∧
  (truthy (dict_get result "healthy" VNone) = true →
   _generate_suggestions result ≠ []).
Proof.
  unfold _generate_suggestions. cbv zeta.
  generalize (as_int (dict_get result "status_code" (VInt 0))). intros code.
  generalize (as_microseconds (dict_get result "response_time_ms" (VInt 0))). intros time.
  generalize (as_dict (dict_get result "ssl" (VDict ∅))). intros ssl.
  set (s1 := if 500 <=? code then _ else _).
  assert (H1 : (List.length s1 ≤ 1)%nat).
  { subst s1.
    repeat match goal with |- context [if ?c then _ else _] => destruct c end;
      cbn [List.length app]; lia. }
  clearbody s1.
  set (s2 := if 3000 * 1000 <? time then _ else _).
  assert (H2 : (List.length s2 ≤ List.length s1 + 1)%nat).
  { subst s2.
    repeat match goal with |- context [if ?c then _ else _] => destruct c end;
      rewrite ?length_app; cbn [List.length]; lia. }
  clearbody s2.
  set (s3 := if truthy (dict_get ssl "warning" VNone) then _ else _).
  assert (H3 : (List.length s3 ≤ List.length s2 + 1)%nat).
  { subst s3.
    repeat match goal with |- context [if ?c then _ else _] => destruct c end;
      rewrite ?length_app; cbn [List.length]; lia. }
  clearbody s3.
  destruct (truthy (dict_get result "healthy" VNone)); destruct s3 as [|x s3];
    cbn [andb List.length app] in *; (split; [lia|done]).
Qed.

Lemma prefix_nil s : String.prefix "" s = true.
Proof. by destruct s. Qed.

(** X11.  The normalisation of the URL in [check_url] is idempotent; its
    result starts with [http://] or [https://]; a URL that starts with
    neither gets [https://] in front. *)
Theorem normalize_url_idempotent url :
  normalize_url (normalize_url url) = normalize_url url ∧
  (PyStr.startswith "http://" (normalize_url url)
   || PyStr.startswith "https://" (normalize_url url) = true) ∧
  (PyStr.startswith "http://" url = false → PyStr.startswith "https://" url = false →
   normalize_url url = "https://" +:+ url).
Proof.
  assert (H : PyStr.startswith "https://" ("https://" +:+ url) = true).
  { unfold PyStr.startswith. simpl. apply prefix_nil. }
  unfold normalize_url.
  destruct (PyStr.startswith "http://" url || PyStr.startswith "https://" url) eqn:E.
  - rewrite E. split; [done|]. split; [done|].
    intros H1 H2. by rewrite H1, H2 in E.
  - rewrite H, orb_true_r. done.
Qed.

(** One entry of a batch: what [check_url] returns, or the report of what it
    raised. *)
Lemma check_multiple_entry env fuel url timeout tr :
  (6 ≤ fuel)%nat →
  ∃ d tr',
    (let r := check_url env fuel url timeout tr in
     match r.1 with
     | Raise e => (Ret (dict_of [("url", VStr url); ("error", VStr (str_of_exn e))]), r.2)
     | _ => r
     end) = (Ret d, tr') ∧
    match urlparse env (normalize_url url) with
    | Some _ => check_url env fuel url timeout tr = (Ret d, tr')
    | None =>
        d !! "url" = Some (VStr url) ∧ (∃ msg, d !! "error" = Some (VStr msg)) ∧
        d !! "healthy" = None ∧ tr' = tr
    end.
Proof.
  intros Hfuel. cbv zeta.
  destruct (urlparse env (normalize_url url)) as [parsed|] eqn:Hparse.
  - destruct (check_url_returns env fuel url timeout tr parsed Hfuel Hparse)
      as (result & tr' & Hrun).
    exists result, tr'. rewrite Hrun. done.
  - assert (Hrun : check_url env fuel url timeout tr = (Raise (ValueError "Invalid URL"), tr)).
    { unfold check_url, do_urlparse. run. by rewrite Hparse. }
    rewrite Hrun. simpl. eexists _, _. split; [done|].
    split; [done|]. split; [by eexists|]. done.
Qed.

(** X12.  [check_multiple], with fuel for six iterations per probe, returns
    one dictionary for each URL, in the order of the URLs: what [check_url]
    returns for that URL, or, when [check_url] raises (the URL does not
    parse), a dictionary with the URL as it was given and an [error], made
    without any network operation.  No exception of one probe reaches the
    caller or the other probes. *)
Theorem check_multiple_contains_failures env fuel urls timeout tr :
  (6 ≤ fuel)%nat →
  List.length (check_multiple env fuel urls timeout tr) = List.length urls ∧
  ∀ i url,
    urls !! i = Some url →
    ∃ d tr',
      check_multiple env fuel urls timeout tr !! i = Some (Ret d, tr') ∧
      match urlparse env (normalize_url url) with
      | Some _ => check_url env fuel url timeout tr = (Ret d, tr')
      | None =>
          d !! "url" = Some (VStr url) ∧ (∃ msg, d !! "error" = Some (VStr msg)) ∧
          d !! "healthy" = None ∧ tr' = tr
      end.
Proof.
  intros Hfuel. unfold check_multiple. split; [by rewrite length_fmap|].
  intros i url Hi. rewrite list_lookup_fmap, Hi. simpl.
  destruct (check_multiple_entry env fuel url timeout tr Hfuel) as (d & tr' & Hentry & Hd).
  exists d, tr'. split; [|done]. f_equal. exact Hentry.
Qed.

(** X13.  The endpoint [quick_check_batch] answers
    [{"error": "Maximum 10 URLs allowed"}], without probing, for more than ten
    URLs.  Otherwise it answers one dictionary for each URL, so at most ten,
    and each probe has made at most 6 HTTP requests and 1 TLS connection. *)
Theorem quick_check_batch_is_capped env fuel urls timeout tr :
  (6 ≤ fuel)%nat →
  match quick_check_batch env fuel urls timeout tr with
  | TooMany answer =>
      (10 < List.length urls)%nat ∧
      answer = dict_of [("error", VStr "Maximum 10 URLs allowed")]
  | Checked results =>
      (List.length results = List.length urls)%nat ∧
      (List.length results ≤ 10)%nat ∧
      ∀ r, r ∈ results →
           ∃ d new, r = (Ret d, tr ++ new) ∧
                    (http_requests new ≤ 6)%nat ∧ (tls_connects new ≤ 1)%nat
  end.
Proof.
  intros Hfuel. unfold quick_check_batch.
  destruct (10 <? List.length urls)%nat eqn:E.
  { apply Nat.ltb_lt in E. done. }
  apply Nat.ltb_ge in E. unfold check_multiple. rewrite length_fmap.
  split; [done|]. split; [done|].
  intros r (url & -> & _)%list_elem_of_fmap.
  destruct (check_multiple_entry env fuel url (Some timeout) tr Hfuel)
    as (d & tr' & Hentry & _).
  cbv beta zeta in *. rewrite Hentry.
  destruct (check_url_events env fuel url (Some timeout) tr)
    as (o & validation & requests & tls & Hrun & _ & Hh1 & Ht1 & Hh2 & _ & Ht2 & Htls).
  rewrite Hrun in Hentry. simpl in Hentry.
  assert (Htr : tr' = tr ++ validation ++ requests ++ tls)
    by (destruct o; by injection Hentry).
  exists d, (validation ++ requests ++ tls). split; [by rewrite Htr|].
  rewrite !http_requests_app, !tls_connects_app.
  destruct Htls as [-> | (_ & d' & b & Hssl & _)].
  - change (http_requests []) with 0%nat. change (tls_connects []) with 0%nat. lia.
  - destruct (_check_ssl_counts _ _ _ _ _ Hssl) as (? & _ & ?). lia.
Qed.

(** *** More examples *)

(** The TLS check of [https://127.0.0.1/admin] is refused without a
    connection. *)
Lemma _check_ssl_rejects_forbidden_host_witness :
  let parsed := {| hostname := Some "127.0.0.1"; port := Some None |} in
  urlparse Demo.internet "https://127.0.0.1/admin" = Some parsed ∧
  safe_at Demo.internet [] (hostname parsed) = false ∧
  _check_ssl Demo.internet "https://127.0.0.1/admin" [] =
    (Ret (dict_of [("valid", VBool false); ("error", VStr forbidden_message)]),
     [] ++ lookups (hostname parsed)) ∧
  tls_connects (lookups (hostname parsed)) = 0%nat.
Proof.
  intros parsed.
  assert (H1 : urlparse Demo.internet "https://127.0.0.1/admin" = Some parsed) by by_vm.
  assert (H2 : safe_at Demo.internet [] (hostname parsed) = false) by by_vm.
  split; [exact H1|]. split; [exact H2|].
  exact (_check_ssl_rejects_forbidden_host Demo.internet "https://127.0.0.1/admin" []
           parsed None H1 eq_refl H2).
Defined.

(** A server that does not answer in time: the probe reports a timeout
    after the default ten seconds. *)
Lemma check_url_reports_network_failure_witness :
  let parsed := {| hostname := Some "slow.example"; port := Some None |} in
  let tr' := [EvResolve "slow.example"; EvResolve "slow.example";
              EvHttpGet "http://slow.example/"] in
  urlparse Demo.unreachable (normalize_url "http://slow.example/") = Some parsed ∧
  safe_at Demo.unreachable [] (hostname parsed) = true ∧
  _check_http Demo.unreachable 6 (normalize_url "http://slow.example/")
    (effective_timeout None) ([] ++ lookups (hostname parsed))
    = (Raise TimeoutError, tr') ∧
  ∃ result,
    check_url Demo.unreachable 6 "http://slow.example/" None [] = (Ret result, tr') ∧
    result !! "healthy" = Some (VBool false) ∧
    result !! "status" = Some (VStr "timeout") ∧
    result !! "error"
      = Some (VStr ("Request timed out after " +:+ pretty (effective_timeout None)
                    +:+ " seconds")) ∧
    result !! "status_code" = None ∧
    result !! "ssl" = None ∧
    result !! "cta" = Some call_to_action ∧
    tls_connects tr' = tls_connects [].
Proof.
  intros parsed tr'.
  assert (H1 : urlparse Demo.unreachable (normalize_url "http://slow.example/")
               = Some parsed) by by_vm.
  assert (H2 : safe_at Demo.unreachable [] (hostname parsed) = true) by by_vm.
  assert (H3 : _check_http Demo.unreachable 6 (normalize_url "http://slow.example/")
                 (effective_timeout None) ([] ++ lookups (hostname parsed))
               = (Raise TimeoutError, tr')) by by_vm.
  split; [exact H1|]. split; [exact H2|]. split; [exact H3|].
  exact (check_url_reports_network_failure Demo.unreachable 6 "http://slow.example/"
           None [] parsed TimeoutError tr' H1 H2 H3).
Defined.

(** The probe of a server that answers 200: status [healthy]. *)
Lemma check_url_status_matches_healthy_witness :
  let r := check_url Demo.internet 6 "http://good.example/health" None [] in
  r = (Ret (returned r), r.2) ∧
  returned r !! "url" = Some (VStr (normalize_url "http://good.example/health")) ∧
  ∃ healthy status,
    returned r !! "healthy" = Some (VBool healthy) ∧
    returned r !! "status" = Some (VStr status) ∧
    status ∈ ["healthy"; "unhealthy"; "error"; "timeout"; "connection_error"] ∧
    (healthy = true ↔ status = "healthy") ∧
    (healthy = true → returned r !! "error" = None) ∧
    (status ∈ ["error"; "timeout"; "connection_error"] →
     ∃ msg, returned r !! "error" = Some (VStr msg)).
Proof.
  intros r.
  assert (Hrun : r = (Ret (returned r), r.2)) by (apply returns_eq; by_vm).
  split; [exact Hrun|].
  exact (check_url_status_matches_healthy Demo.internet 6 "http://good.example/health"
           None [] (returned r) r.2 Hrun).
Defined.

Lemma lookup_dict (d : dict) k :
  match d !! k with Some (VDict _) => true | _ => false end = true →
  d !! k = Some (VDict (as_dict (dict_get d k VNone))).
Proof. unfold dict_get. by destruct (d !! k) as [[]|]. Qed.

(** Scenario D of the specification: a certificate that expires in ten days
    gives a warning and the suggestion to renew it. *)
Lemma check_url_explains_tls_result_witness :
  let r := check_url Demo.renewal_due 6 "shop.example" None [] in
  let ssl := as_dict (dict_get (returned r) "ssl" VNone) in
  r = (Ret (returned r), r.2) ∧
  ssl !! "days_until_expiry" = Some (VInt 10) ∧
  ssl !! "warning" = Some (VBool true) ∧
  returned r !! "ssl" = Some (VDict ssl) ∧
  ∃ valid suggestions,
    ssl !! "valid" = Some (VBool valid) ∧
    returned r !! "suggestions" = Some (VList suggestions) ∧
    (valid = false →
       returned r !! "healthy" = Some (VBool false) ∧
       "SSL certificate invalid - fix immediately" ∈ suggestions) ∧
    (valid = true →
       ∃ days, ssl !! "days_until_expiry" = Some (VInt days) ∧
               (days < 30 → renew_soon days ∈ suggestions)).
Proof.
  intros r ssl.
  assert (Hrun : r = (Ret (returned r), r.2)) by (apply returns_eq; by_vm).
  assert (Hdays : ssl !! "days_until_expiry" = Some (VInt 10)) by by_vm.
  assert (Hwarn : ssl !! "warning" = Some (VBool true)) by by_vm.
  assert (Hssl : returned r !! "ssl" = Some (VDict ssl))
    by (apply lookup_dict; by_vm).
  split; [exact Hrun|]. split; [exact Hdays|]. split; [exact Hwarn|].
  split; [exact Hssl|].
  exact (check_url_explains_tls_result Demo.renewal_due 6 "shop.example" None []
           (returned r) r.2 ssl Hrun Hssl).
Defined.

(** A batch of a public and an internal address: two results, in order. *)
Lemma check_multiple_contains_failures_witness :
  let urls := ["good.example"; "http://127.0.0.1/admin"] in
  (6 ≤ 6)%nat ∧
  List.length (check_multiple Demo.internet 6 urls None []) = List.length urls ∧
  ∀ i url,
    urls !! i = Some url →
    ∃ d tr',
      check_multiple Demo.internet 6 urls None [] !! i = Some (Ret d, tr') ∧
      match urlparse Demo.internet (normalize_url url) with
      | Some _ => check_url Demo.internet 6 url None [] = (Ret d, tr')
      | None =>
          d !! "url" = Some (VStr url) ∧ (∃ msg, d !! "error" = Some (VStr msg)) ∧
          d !! "healthy" = None ∧ tr' = []
      end.
Proof.
  intros urls. split; [exact (le_n 6)|].
  exact (check_multiple_contains_failures Demo.internet 6 urls None [] (le_n 6)).
Defined.

(** Eleven URLs are refused; two are probed. *)
Lemma quick_check_batch_is_capped_witness :
  (6 ≤ 6)%nat ∧
  quick_check_batch Demo.internet 6 (replicate 11 "good.example") 10 []
    = TooMany (dict_of [("error", VStr "Maximum 10 URLs allowed")]) ∧
  match quick_check_batch Demo.internet 6 ["good.example"; "other.example"] 10 [] with
  | TooMany answer =>
      (10 < List.length ["good.example"; "other.example"])%nat ∧
      answer = dict_of [("error", VStr "Maximum 10 URLs allowed")]
  | Checked results =>
      (List.length results = List.length ["good.example"; "other.example"])%nat ∧
      (List.length results ≤ 10)%nat ∧
      ∀ r, r ∈ results →
           ∃ d new, r = (Ret d, [] ++ new) ∧
                    (http_requests new ≤ 6)%nat ∧ (tls_connects new ≤ 1)%nat
  end.
Proof.
  split; [exact (le_n 6)|]. split; [reflexivity|].
  exact (quick_check_batch_is_capped Demo.internet 6 ["good.example"; "other.example"]
           10 [] (le_n 6)).
Defined.

End ProberSpec.

(** * Properties of the orchestrator *)

Module OrchestratorSpec.
Import Orchestrator.

Lemma _emit_event_same event_type data st :
  let st' := _emit_event event_type data st in
  services st' = services st ∧ active_incidents st' = active_incidents st ∧
  is_running st' = is_running st ∧ _callbacks st' = _callbacks st ∧
  next_uuid st' = next_uuid st ∧ clock_reads st' = clock_reads st.
Proof.
  unfold _emit_event. generalize (imap pair (_callbacks st)). intros l.
  revert st. induction l as [|[i cb] l IH]; intros st; simpl; [done|].
  destruct (IH (match cb event_type data with
                | Some e => perform (Printed ("[ERROR] Event callback failed: " +:+ e))
                              (perform (Notified i event_type data) st)
                | None => perform (Notified i event_type data) st
                end)) as (-> & -> & -> & -> & -> & ->).
  by destruct (cb event_type data).
Qed.

Lemma _emit_event_incidents t d st :
  active_incidents (_emit_event t d st) = active_incidents st.
Proof. apply _emit_event_same. Qed.
Lemma _emit_event_next_uuid t d st : next_uuid (_emit_event t d st) = next_uuid st.
Proof. apply _emit_event_same. Qed.
Lemma _emit_event_clock_reads t d st : clock_reads (_emit_event t d st) = clock_reads st.
Proof. apply _emit_event_same. Qed.
Lemma _emit_event_services t d st : services (_emit_event t d st) = services st.
Proof. apply _emit_event_same. Qed.
Lemma _emit_event_is_running t d st : is_running (_emit_event t d st) = is_running st.
Proof. apply _emit_event_same. Qed.

Ltac emit := rewrite ?_emit_event_incidents, ?_emit_event_next_uuid,
               ?_emit_event_clock_reads, ?_emit_event_services,
               ?_emit_event_is_running.

Lemma resume_spec_holds env f st :
  resume_spec env f st (resume env f st).1 (resume env f st).2.
Proof.
  destruct f as [service|service start r|service result|id|id|id|id result|id| |msg];
    simpl.
  - apply rs_quiet; simpl; auto.
  - destruct r as [result_str|msg]; simpl; [|apply rs_quiet; auto].
    apply rs_quiet; emit; simpl; auto.
  - unfold handle_result. destruct (HealthCheckResult.is_healthy result); simpl;
      [apply rs_quiet; auto|].
    unfold _handle_failure.
    destruct (already_tracking _ (active_incidents st)) eqn:Htrack; simpl;
      [apply rs_quiet; auto|].
    eapply rs_create; emit; simpl; try done. lia.
  - unfold trigger_alerting.
    destruct (active_incidents st !! id) as [inc|] eqn:Hinc; simpl;
      [|apply rs_quiet; auto].
    destruct (crew_import env (log st)); simpl; [apply rs_quiet; simpl; auto|].
    eapply (rs_advance _ _ _ _ _ id DETECTING inc); emit; simpl; try done.
  - unfold trigger_investigating.
    destruct (active_incidents st !! id) as [inc|] eqn:Hinc; simpl;
      [|apply rs_quiet; auto].
    destruct (crew_build env (log st) _); simpl; [apply rs_quiet; simpl; auto|].
    eapply (rs_advance _ _ _ _ _ id ALERTING inc); emit; simpl; try done.
  - unfold trigger_kickoff.
    destruct (active_incidents st !! id) as [inc|] eqn:Hinc; simpl;
      [|apply rs_quiet; auto].
    destruct (crew_kickoff env (log st) _); simpl; apply rs_quiet; simpl; auto.
  - unfold trigger_resolved.
    destruct (active_incidents st !! id) as [inc|] eqn:Hinc; simpl;
      [|apply rs_quiet; auto].
    eapply (rs_advance _ _ _ _ _ id INVESTIGATING inc); emit; simpl; try done. lia.
  - unfold trigger_save. destruct (supabase_is_connected env); simpl;
      [|apply rs_quiet; auto].
    destruct (supabase_save env (log st) id); simpl; apply rs_quiet; simpl; auto.
  - apply rs_quiet; auto.
  - apply rs_quiet; auto.
Qed.

Lemma Inv_initial env : Inv env initial.
Proof. split; simpl; try done; intros *; by rewrite ?lookup_empty. Qed.

Lemma already_tracking_false sid (m : gmap UUID Incident.t) k inc :
  already_tracking sid m = false → m !! k = Some inc →
  Incident.service_id inc = sid → Incident.status inc = RESOLVED.
Proof.
  unfold already_tracking. intros Hex Hk Hsid.
  destruct (decide (Incident.status inc = RESOLVED)) as [|Hopen]; [done|].
  assert (existsb (λ incident, bool_decide (Incident.service_id incident = sid)
             && negb (bool_decide (Incident.status incident = RESOLVED)))
            (map_to_list m).*2 = true); [|congruence].
  apply existsb_exists. exists inc. split.
  - apply list_elem_of_In, list_elem_of_fmap. exists (k, inc).
    split; [done|]. by apply elem_of_map_to_list.
  - rewrite bool_decide_eq_true_2 by done. by rewrite bool_decide_eq_false_2.
Qed.

Lemma already_tracking_true sid (m : gmap UUID Incident.t) :
  already_tracking sid m = true →
  ∃ k inc, m !! k = Some inc ∧ Incident.service_id inc = sid ∧
           Incident.status inc ≠ RESOLVED.
Proof.
  unfold already_tracking. intros Hex. apply existsb_exists in Hex as (inc & Hin & Hp).
  apply list_elem_of_In, list_elem_of_fmap in Hin as ([k inc'] & -> & Hin).
  apply elem_of_map_to_list in Hin. exists k, inc'. split; [done|].
  apply andb_true_iff in Hp as [H1 H2]. apply bool_decide_eq_true in H1.
  apply negb_true_iff, bool_decide_eq_false in H2. done.
Qed.

Lemma dedup_insert_fresh (m : gmap UUID Incident.t) k inc :
  dedup m → m !! k = None →
  already_tracking (Incident.service_id inc) m = false →
  dedup (<[k := inc]> m).
Proof.
  intros Hd Hk Htrack k1 k2 i1 i2 H1 H2 Hsid Ho1 Ho2.
  destruct (decide (k1 = k)) as [->|Hne1], (decide (k2 = k)) as [->|Hne2];
    [done| | |].
  - rewrite lookup_insert_eq in H1. rewrite lookup_insert_ne in H2 by done.
    injection H1 as <-. destruct Ho2.
    by eapply already_tracking_false.
  - rewrite lookup_insert_eq in H2. rewrite lookup_insert_ne in H1 by done.
    injection H2 as <-. destruct Ho1.
    by eapply already_tracking_false.
  - rewrite lookup_insert_ne in H1, H2 by done. by eapply Hd.
Qed.

Lemma dedup_update (m : gmap UUID Incident.t) k inc inc' :
  dedup m → m !! k = Some inc → Incident.status inc ≠ RESOLVED →
  Incident.service_id inc' = Incident.service_id inc →
  dedup (<[k := inc']> m).
Proof.
  intros Hd Hk Hopen Hsid k1 k2 i1 i2 H1 H2 Hs Ho1 Ho2.
  destruct (decide (k1 = k)) as [->|Hne1], (decide (k2 = k)) as [->|Hne2];
    [done| | |].
  - rewrite lookup_insert_eq in H1. rewrite lookup_insert_ne in H2 by done.
    injection H1 as <-. symmetry. eapply (Hd k2 k); eauto. congruence.
  - rewrite lookup_insert_eq in H2. rewrite lookup_insert_ne in H1 by done.
    injection H2 as <-. eapply (Hd k1 k); eauto. congruence.
  - rewrite lookup_insert_ne in H1, H2 by done. by eapply Hd.
Qed.

Lemma next_status_open s s' : next_status s = Some s' → s ≠ RESOLVED.
Proof. by destruct s. Qed.

Lemma next_status_None s : next_status s = None → s = RESOLVED.
Proof. by destruct s. Qed.

Lemma pool_lookup_insert (fs : list frame) i j f f' g :
  fs !! i = Some f → <[i := f']> fs !! j = Some g →
  (j = i ∧ g = f') ∨ (j ≠ i ∧ fs !! j = Some g).
Proof.
  intros Hi Hj. destruct (decide (j = i)) as [->|Hne].
  - left. rewrite list_lookup_insert_eq in Hj by (by eapply lookup_lt_Some).
    by injection Hj.
  - right. by rewrite list_lookup_insert_ne in Hj.
Qed.

Lemma Inv_resume env sys i f :
  Inv env sys → pool sys !! i = Some f →
  Inv env (mkSystem (<[i := (resume env f (orch sys)).1]> (pool sys))
                    (resume env f (orch sys)).2).
Proof.
  intros [Hd Hf Ho Hu Hdet Hmttd Hmttr] Hi.
  destruct (resume_spec_holds env f (orch sys))
    as [Hinc Hnext Hclk Hown
       |inc Hof Hof' Hinc Hnext Hclk Htrack Hst Hdt Hmd Hmr
       |id s inc inc' Hof Hlook Hinc Hnext Hclk Hns Hof' Hsid Hdt Hmd Hmr].
  - (* the incidents are as they were *)
    split; simpl; rewrite ?Hinc, ?Hnext; try done.
    + intros j g id s Hj Hg.
      destruct (pool_lookup_insert _ _ _ _ _ _ Hi Hj) as [[-> ->] | [_ Hj']].
      * destruct Hown as [Hown|Hown]; [congruence|]. rewrite Hown in Hg. eauto.
      * eauto.
    + intros j1 j2 g1 g2 id s s' H1 H2 Hg1 Hg2.
      assert (∀ j g s, <[i := (resume env f (orch sys)).1]> (pool sys) !! j = Some g →
                owner g = Some (id, s) →
                ∃ g0, pool sys !! j = Some g0 ∧ owner g0 = Some (id, s)) as Hback.
      { intros j g s0 Hj Hg.
        destruct (pool_lookup_insert _ _ _ _ _ _ Hi Hj) as [[-> ->] | [_ Hj']]; [|eauto].
        destruct Hown as [Hown|Hown]; [congruence|]. exists f. by rewrite <- Hown. }
      destruct (Hback _ _ _ H1 Hg1) as (g1' & ? & ?).
      destruct (Hback _ _ _ H2 Hg2) as (g2' & ? & ?). eauto.
    + intros k inc Hk. destruct (Hdet _ _ Hk) as (n & ? & ?). exists n. split; [lia|done].
  - (* an incident is created *)
    assert (Hnew : incidents sys !! next_uuid (orch sys) = None).
    { destruct (incidents sys !! next_uuid (orch sys)) as [inc0|] eqn:E; [|done].
      apply Hf in E. lia. }
    split; simpl; rewrite ?Hinc, ?Hnext.
    + by apply dedup_insert_fresh.
    + intros k inc0 Hk. destruct (decide (k = next_uuid (orch sys))) as [->|Hne]; [lia|].
      rewrite lookup_insert_ne in Hk by done. apply Hf in Hk. lia.
    + intros j g id s Hj Hg.
      destruct (pool_lookup_insert _ _ _ _ _ _ Hi Hj) as [[-> ->] | [_ Hj']].
      * rewrite Hof' in Hg. injection Hg as <- <-. exists inc.
        by rewrite lookup_insert_eq.
      * destruct (Ho _ _ _ _ Hj' Hg) as (inc0 & Hk & ?). exists inc0. split; [|done].
        rewrite lookup_insert_ne; [done|]. intros <-. congruence.
    + intros j1 j2 g1 g2 id s s' H1 H2 Hg1 Hg2.
      destruct (pool_lookup_insert _ _ _ _ _ _ Hi H1) as [[-> ->] | [? H1']],
               (pool_lookup_insert _ _ _ _ _ _ Hi H2) as [[-> ->] | [? H2']];
        [done| | |by eauto].
      * rewrite Hof' in Hg1. injection Hg1 as <- <-.
        destruct (Ho _ _ _ _ H2' Hg2) as (inc0 & Hk & ?). congruence.
      * rewrite Hof' in Hg2. injection Hg2 as <- <-.
        destruct (Ho _ _ _ _ H1' Hg1) as (inc0 & Hk & ?). congruence.
    + intros k inc0 Hk. destruct (decide (k = next_uuid (orch sys))) as [->|Hne].
      * rewrite lookup_insert_eq in Hk. injection Hk as <-.
        exists (clock_reads (orch sys)). split; [lia|done].
      * rewrite lookup_insert_ne in Hk by done.
        destruct (Hdet _ _ Hk) as (n & ? & ?). exists n. split; [lia|done].
    + intros k inc0 Hk. destruct (decide (k = next_uuid (orch sys))) as [->|Hne].
      * rewrite lookup_insert_eq in Hk. injection Hk as <-.
        exists (clock_reads (orch sys)), (S (clock_reads (orch sys))). split; [lia|done].
      * rewrite lookup_insert_ne in Hk by done. eauto.
    + intros k inc0 Hk. destruct (decide (k = next_uuid (orch sys))) as [->|Hne].
      * rewrite lookup_insert_eq in Hk. injection Hk as <-. rewrite Hmr. done.
      * rewrite lookup_insert_ne in Hk by done. eauto.
  - (* an incident moves to the next status *)
    destruct (Ho _ _ _ _ Hi Hof) as (inc0 & Hlook0 & Hs0).
    assert (inc0 = inc) as -> by congruence.
    assert (Hopen : Incident.status inc ≠ RESOLVED)
      by (rewrite Hs0; by eapply next_status_open).
    split; simpl; rewrite ?Hinc, ?Hnext.
    + by eapply dedup_update.
    + intros k inc1 Hk. destruct (decide (k = id)) as [->|Hne]; [by eapply Hf|].
      rewrite lookup_insert_ne in Hk by done. by eapply Hf.
    + intros j g id' s' Hj Hg.
      destruct (pool_lookup_insert _ _ _ _ _ _ Hi Hj) as [[-> ->] | [Hne Hj']].
      * rewrite Hof' in Hg. destruct (next_status (Incident.status inc')); [|done].
        injection Hg as <- <-. exists inc'. by rewrite lookup_insert_eq.
      * destruct (Ho _ _ _ _ Hj' Hg) as (inc1 & Hk & ?). exists inc1. split; [|done].
        rewrite lookup_insert_ne; [done|]. intros <-. destruct Hne.
        by eapply (Hu j i g f).
    + intros j1 j2 g1 g2 id' s1 s2 H1 H2 Hg1 Hg2.
      assert (∀ j g s, <[i := (resume env f (orch sys)).1]> (pool sys) !! j = Some g →
                owner g = Some (id', s) →
                ∃ g0 s0, pool sys !! j = Some g0 ∧ owner g0 = Some (id', s0)) as Hback.
      { intros j g s0 Hj Hg.
        destruct (pool_lookup_insert _ _ _ _ _ _ Hi Hj) as [[-> ->] | [_ Hj']]; [|eauto].
        rewrite Hof' in Hg. destruct (next_status (Incident.status inc')); [|done].
        injection Hg as <- <-. eauto. }
      destruct (Hback _ _ _ H1 Hg1) as (g1' & ? & ? & ?).
      destruct (Hback _ _ _ H2 Hg2) as (g2' & ? & ? & ?). eauto.
    + intros k inc1 Hk. destruct (decide (k = id)) as [->|Hne].
      * rewrite lookup_insert_eq in Hk. injection Hk as <-. rewrite Hdt.
        destruct (Hdet _ _ Hlook) as (n & ? & ?). exists n. split; [lia|done].
      * rewrite lookup_insert_ne in Hk by done.
        destruct (Hdet _ _ Hk) as (n & ? & ?). exists n. split; [lia|done].
    + intros k inc1 Hk. destruct (decide (k = id)) as [->|Hne].
      * rewrite lookup_insert_eq in Hk. injection Hk as <-. rewrite Hmd. eauto.
      * rewrite lookup_insert_ne in Hk by done. eauto.
    + intros k inc1 Hk. destruct (decide (k = id)) as [->|Hne].
      * rewrite lookup_insert_eq in Hk. injection Hk as <-. rewrite Hmr.
        destruct (Hmttr _ _ Hlook) as [Hnone Hsome].
        destruct (next_status (Incident.status inc')) eqn:E.
        -- split; [intros _; by apply Hnone|]. intros r Hr. by apply Hsome.
        -- apply next_status_None in E. split; [done|]. intros r [= <-].
           destruct (Hdet _ _ Hlook) as (n & ? & ->).
           exists n, (clock_reads (orch sys)). split; [lia|done].
      * rewrite lookup_insert_ne in Hk by done. eauto.
Qed.

Lemma call_same env c st :
  active_incidents (call env c st) = active_incidents st ∧
  next_uuid (call env c st) = next_uuid st ∧
  clock_reads (call env c st) = clock_reads st.
Proof.
  destruct c as [service|service_id|cb|]; simpl; try done.
  - unfold add_service. by destruct (enable_privacy_logging env).
  - unfold remove_service. by destruct (services st !! service_id).
Qed.

Lemma cycle_tasks_owner st i f : cycle_tasks st !! i = Some f → owner f = None.
Proof.
  unfold cycle_tasks. rewrite list_lookup_fmap.
  destruct (active_services st !! i); simpl; [|done]. by intros [= <-].
Qed.

Lemma Inv_same_incidents env sys st' :
  Inv env sys →
  active_incidents st' = incidents sys → next_uuid st' = next_uuid (orch sys) →
  clock_reads st' = clock_reads (orch sys) →
  Inv env (mkSystem (pool sys) st').
Proof.
  intros [Hd Hf Ho Hu Hdet Hmttd Hmttr] Hi Hn Hc.
  split; simpl; rewrite ?Hi, ?Hn, ?Hc; done.
Qed.

Lemma Inv_act env a sys : Inv env sys → Inv env (act env a sys).
Proof.
  intros HI. destruct a as [|i|c|]; simpl.
  - destruct HI as [Hd Hf Ho Hu Hdet Hmttd Hmttr]. split; simpl; try done.
    + intros i f id s Hi Hown. apply cycle_tasks_owner in Hi. congruence.
    + intros i j f g id s s' Hi _ Hown. apply cycle_tasks_owner in Hi. congruence.
  - destruct (pool sys !! i) as [f|] eqn:Hi; [|done].
    pose proof (Inv_resume env sys i f HI Hi) as HI'.
    by destruct (resume env f (orch sys)).
  - destruct (call_same env c (orch sys)) as (? & ? & ?). by apply Inv_same_incidents.
  - by apply Inv_same_incidents.
Qed.

Lemma exec_snoc env acts a sys :
  exec env (acts ++ [a]) sys = act env a (exec env acts sys).
Proof. unfold exec. by rewrite foldl_snoc. Qed.

Lemma Inv_exec env acts sys : Inv env sys → Inv env (exec env acts sys).
Proof.
  revert sys. induction acts as [|a acts IH]; intros sys HI; [done|].
  simpl. apply IH. by apply Inv_act.
Qed.

Lemma Inv_reachable env acts : Inv env (exec env acts initial).
Proof. apply Inv_exec, Inv_initial. Qed.

(** How an action changes an incident that exists. *)
Lemma act_incident env a sys k inc :
  Inv env sys → incidents sys !! k = Some inc →
  ∃ inc', incidents (act env a sys) !! k = Some inc' ∧
    Incident.service_id inc' = Incident.service_id inc ∧
    advances (Incident.status inc) (Incident.status inc') ∧
    Incident.mttd_seconds inc' = Incident.mttd_seconds inc ∧
    (Incident.mttr_seconds inc' = Incident.mttr_seconds inc ∨
     (Incident.mttr_seconds inc = None ∧ Incident.status inc = INVESTIGATING ∧
      Incident.status inc' = RESOLVED ∧ is_Some (Incident.mttr_seconds inc'))).
Proof.
  intros HI Hk.
  assert (Hsame : ∃ inc', Some inc = Some inc' ∧
    Incident.service_id inc' = Incident.service_id inc ∧
    advances (Incident.status inc) (Incident.status inc') ∧
    Incident.mttd_seconds inc' = Incident.mttd_seconds inc ∧
    (Incident.mttr_seconds inc' = Incident.mttr_seconds inc ∨
     (Incident.mttr_seconds inc = None ∧ Incident.status inc = INVESTIGATING ∧
      Incident.status inc' = RESOLVED ∧ is_Some (Incident.mttr_seconds inc')))).
  { exists inc. unfold advances. auto 10. }
  destruct a as [|i|c|]; simpl; [by rewrite Hk| |by destruct (call_same env c (orch sys)) as (-> & _); rewrite Hk|by rewrite Hk].
  destruct (pool sys !! i) as [f|] eqn:Hi; [|by rewrite Hk].
  pose proof (resume_spec_holds env f (orch sys)) as Hspec.
  destruct (resume env f (orch sys)) as [f' st']. simpl in *.
  destruct Hspec
    as [Hinc _ _ _
       |inc0 _ _ Hinc _ _ _ _ _ _ _
       |id s inc0 inc' Hof Hlook Hinc _ _ Hns _ Hsid _ Hmd Hmr].
  - by rewrite Hinc, Hk.
  - rewrite Hinc, lookup_insert_ne, Hk; [done|].
    intros <-. apply (inv_fresh _ _ HI) in Hk. lia.
  - rewrite Hinc. destruct (decide (k = id)) as [->|Hne];
      [|by rewrite lookup_insert_ne, Hk].
    rewrite lookup_insert_eq. assert (inc0 = inc) as -> by congruence.
    destruct (inv_owned _ _ HI _ _ _ _ Hi Hof) as (inc1 & Hk1 & Hs).
    assert (inc1 = inc) as -> by congruence.
    exists inc'. split; [done|]. split; [done|].
    split; [right; by rewrite Hs|]. split; [done|].
    rewrite Hmr. destruct (next_status (Incident.status inc')) eqn:E; [by left|].
    right. apply next_status_None in E.
    destruct (inv_mttr _ _ HI _ _ Hk) as [Hnone _].
    rewrite E in Hns. split; [apply Hnone; rewrite Hs; by destruct s|].
    split; [rewrite Hs; by destruct s|]. split; [done|]. by eexists.
Qed.

(** An incident appears in status DETECTING, with its MTTD and without MTTR. *)
Lemma act_created env a sys k inc' :
  Inv env sys → incidents sys !! k = None →
  incidents (act env a sys) !! k = Some inc' →
  Incident.status inc' = DETECTING ∧ is_Some (Incident.mttd_seconds inc') ∧
  Incident.mttr_seconds inc' = None.
Proof.
  intros HI Hk.
  destruct a as [|i|c|]; simpl; [by rewrite Hk| |by destruct (call_same env c (orch sys)) as (-> & _); rewrite Hk|by rewrite Hk].
  destruct (pool sys !! i) as [f|] eqn:Hi; [|by rewrite Hk].
  pose proof (resume_spec_holds env f (orch sys)) as Hspec.
  destruct (resume env f (orch sys)) as [f' st']. simpl in *.
  destruct Hspec
    as [Hinc _ _ _
       |inc0 _ _ Hinc _ _ _ Hst _ Hmd Hmr
       |id s inc0 inc1 Hof Hlook Hinc _ _ Hns _ Hsid _ Hmd Hmr].
  - by rewrite Hinc, Hk.
  - rewrite Hinc. destruct (decide (k = next_uuid (orch sys))) as [->|Hne].
    + rewrite lookup_insert_eq. intros [= <-]. rewrite Hmd. eauto.
    + by rewrite lookup_insert_ne, Hk.
  - rewrite Hinc. destruct (decide (k = id)) as [->|Hne]; [congruence|].
    by rewrite lookup_insert_ne, Hk.
Qed.

(** C8.  For every incident of the orchestrator, at every point of every
    execution: one more action leaves its status as it is or moves it to the
    next status of DETECTING, ALERTING, INVESTIGATING, RESOLVED; over any
    number of further actions its status never moves backward; and once it
    is RESOLVED it stays RESOLVED. *)
Theorem status_never_moves_backward env acts k inc :
  incidents (exec env acts initial) !! k = Some inc →
  (∀ a, ∃ inc',
     incidents (act env a (exec env acts initial)) !! k = Some inc' ∧
     advances (Incident.status inc) (Incident.status inc') ∧
     (Incident.status inc = RESOLVED → Incident.status inc' = RESOLVED)) ∧
  (∀ more, ∃ inc',
     incidents (exec env (acts ++ more) initial) !! k = Some inc' ∧
     (status_rank (Incident.status inc) ≤ status_rank (Incident.status inc'))%nat ∧
     (Incident.status inc = RESOLVED → Incident.status inc' = RESOLVED)) ∧
  (∀ a k' new,
     incidents (exec env acts initial) !! k' = None →
     incidents (act env a (exec env acts initial)) !! k' = Some new →
     Incident.status new = DETECTING).
Proof.
  intros Hk. split; [|split].
  2:{ intros more. revert inc Hk.
      induction more as [|a more IH] using rev_ind; intros inc Hk.
      - rewrite app_nil_r. exists inc. split; [done|]. split; [lia|done].
      - destruct (IH inc Hk) as (inc1 & Hk1 & Hrank & Hres).
        rewrite app_assoc, exec_snoc.
        destruct (act_incident env a _ k inc1 (Inv_reachable env (acts ++ more)) Hk1)
          as (inc' & Hk' & _ & Hadv & _).
        exists inc'. split; [done|].
        destruct Hadv as [Heq|Hnext].
        + rewrite Heq. done.
        + split.
          * destruct (Incident.status inc1), (Incident.status inc');
              simpl in *; try done; lia.
          * intros Hr. specialize (Hres Hr). by rewrite Hres in Hnext. }
  2:{ intros a k' new Hnone Hnew.
      by destruct (act_created env a _ k' new (Inv_reachable env acts) Hnone Hnew). }
  - intros a.
    destruct (act_incident env a _ k inc (Inv_reachable env acts) Hk)
      as (inc' & Hk' & _ & Hadv & _).
    exists inc'. split; [done|]. split; [done|].
    intros Hres. destruct Hadv as [->|Hnext]; [done|]. by rewrite Hres in Hnext.
Qed.



Lemma handle_result_tracking env service result st :
  HealthCheckResult.is_healthy result = false →
  already_tracking (ServiceConfig.id service) (active_incidents st) = true →
  handle_result env service result st = (Finished, st).
Proof.
  intros Hh Ht. unfold handle_result, _handle_failure. by rewrite Hh, Ht.
Qed.

Lemma handle_result_creates env service result st :
  HealthCheckResult.is_healthy result = false →
  already_tracking (ServiceConfig.id service) (active_incidents st) = false →
  ∃ inc st',
    handle_result env service result st = (AtTrigger (next_uuid st), st') ∧
    active_incidents st' = <[next_uuid st := inc]> (active_incidents st) ∧
    Incident.service_id inc = ServiceConfig.id service ∧
    Incident.status inc = DETECTING.
Proof.
  intros Hh Ht. unfold handle_result, _handle_failure. rewrite Hh, Ht. simpl.
  eexists _, _. split; [reflexivity|]. emit. done.
Qed.

(** C5, as amended.  At every point of every execution of the orchestrator,
    two incidents of [active_incidents] that belong to one service and are
    not RESOLVED are the same incident.  An unhealthy probe result for a
    service that has an incident that is not RESOLVED creates no incident and
    changes nothing; an unhealthy result for a service whose incidents are
    all RESOLVED (or that has none) creates exactly one incident, in status
    DETECTING. *)
Theorem at_most_one_open_incident env acts :
  dedup (incidents (exec env acts initial)) ∧
  ∀ service result,
    HealthCheckResult.is_healthy result = false →
    let st := orch (exec env acts initial) in
    ((∃ k inc, active_incidents st !! k = Some inc ∧
               Incident.service_id inc = ServiceConfig.id service ∧
               Incident.status inc ≠ RESOLVED) →
     handle_result env service result st = (Finished, st)) ∧
    ((∀ k inc, active_incidents st !! k = Some inc →
               Incident.service_id inc = ServiceConfig.id service →
               Incident.status inc = RESOLVED) →
     ∃ id inc st',
       handle_result env service result st = (AtTrigger id, st') ∧
       active_incidents st !! id = None ∧
       active_incidents st' = <[id := inc]> (active_incidents st) ∧
       size (active_incidents st') = S (size (active_incidents st)) ∧
       Incident.service_id inc = ServiceConfig.id service ∧
       Incident.status inc = DETECTING).
Proof.
  pose proof (Inv_reachable env acts) as HI. split; [apply HI|].
  intros service result Hh st. split.
  - intros (k & inc & Hk & Hsid & Hopen).
    apply handle_result_tracking; [done|].
    apply not_false_is_true. intros Hf.
    by apply Hopen, (already_tracking_false _ _ _ _ Hf Hk).
  - intros Hclosed.
    assert (Ht : already_tracking (ServiceConfig.id service) (active_incidents st) = false).
    { apply not_true_is_false. intros Ht.
      apply already_tracking_true in Ht as (k & inc & Hk & Hsid & Hopen).
      by apply Hopen, (Hclosed k). }
    destruct (handle_result_creates env service result st Hh Ht)
      as (inc & st' & Hrun & Hinc & Hsid & Hst).
    assert (Hnew : active_incidents st !! next_uuid st = None).
    { destruct (active_incidents st !! next_uuid st) as [inc0|] eqn:E; [|done].
      apply (inv_fresh _ _ HI) in E. unfold st in E. lia. }
    exists (next_uuid st), inc, st'. split; [done|]. split; [done|].
    split; [done|]. split; [|done].
    rewrite Hinc. by apply map_size_insert_None.
Qed.




Lemma prefix_spec p s :
  String.prefix p s = true ↔ ∃ rest, s = p +:+ rest.
Proof.
  revert p. induction s as [|c' s IH]; intros [|c p]; simpl.
  - split; [intros _; by exists ""|done].
  - split; [done|]. by intros [? ?].
  - split; [intros _; by eexists|done].
  - destruct (Ascii.ascii_dec c c') as [->|Hne].
    + rewrite IH. split; intros [rest Hr]; exists rest; [by rewrite Hr|by injection Hr].
    + split; [done|]. intros [rest [= ? _]]. done.
Qed.

Lemma contains_unfold sub s :
  PyStr.contains sub s =
  if String.prefix sub s then true
  else match s with
       | EmptyString => false
       | String _ s' => PyStr.contains sub s'
       end.
Proof. by destruct s. Qed.

(** [PyStr.contains] decides the occurrence of a substring. *)
Lemma contains_spec sub s : PyStr.contains sub s = true ↔ occurs_in sub s.
Proof.
  induction s as [|c s IH]; rewrite contains_unfold.
  - destruct (String.prefix sub "") eqn:E.
    + split; [intros _|done]. apply prefix_spec in E as [rest E].
      by exists "", rest.
    + split; [done|]. intros ([|??] & after & Hs); [|done].
      simpl in Hs. assert (String.prefix sub "" = true); [|congruence].
      apply prefix_spec. eauto.
  - destruct (String.prefix sub (String c s)) eqn:E.
    + split; [intros _|done]. apply prefix_spec in E as [rest E].
      by exists "", rest.
    + rewrite IH. split.
      * intros (before & after & ->). by exists (String c before), after.
      * intros ([|c' before] & after & Hs); simpl in Hs.
        -- assert (String.prefix sub (String c s) = true); [|congruence].
           apply prefix_spec. eauto.
        -- injection Hs as _ ->. by exists before, after.
Qed.

(** C7.  For every output [result_str] of the health-check tool,
    [check_service] gives its result [is_healthy = True] exactly when
    "FAILED" does not occur in [result_str] and "200" does; so an output in
    which "200" does not occur is unhealthy, whatever status code it
    reports. *)
Theorem check_service_health_verdict env service start_time result_str st :
  ∃ result st',
    check_service_result env service start_time (inl result_str) st
      = (AtHandle service result, st') ∧
    HealthCheckResult.is_healthy result = output_is_healthy result_str ∧
    (HealthCheckResult.is_healthy result = true ↔
       ¬ occurs_in "FAILED" result_str ∧ occurs_in "200" result_str) ∧
    (¬ occurs_in "200" result_str → HealthCheckResult.is_healthy result = false).
Proof.
  eexists _, _. split; [reflexivity|]. simpl. split; [done|].
  unfold output_is_healthy.
  rewrite andb_true_iff, negb_true_iff, <- not_true_iff_false, !contains_spec.
  split; [done|]. intros Hno.
  destruct (PyStr.contains "200" result_str) eqn:E; [|by rewrite andb_false_r].
  by apply contains_spec in E.
Qed.

(** A 204 and a 302 are unhealthy for the orchestrator; a 200 is healthy, and
    so is any output that shows the digits 200 anywhere. *)
Example output_is_healthy_examples :
  output_is_healthy "Status Code: 204" = false ∧
  output_is_healthy "Status Code: 302" = false ∧
  output_is_healthy "Status Code: 200" = true ∧
  output_is_healthy "Status Code: 500, Response Time: 200ms" = true.
Proof. repeat split; reflexivity. Qed.


Lemma elem_of_active_services st s :
  s ∈ active_services st ↔
  ∃ k, services st !! k = Some s ∧ ServiceConfig.is_active s = true.
Proof.
  unfold active_services. rewrite list_elem_of_filter, list_elem_of_fmap. split.
  - intros [Hact ([k s'] & -> & Hin)]. apply elem_of_map_to_list in Hin. eauto.
  - intros (k & Hk & Hact). split; [done|]. exists (k, s). split; [done|].
    by apply elem_of_map_to_list.
Qed.


Lemma resume_progress env f st :
  is_finished f = false → first_failed [f] = None →
  (remaining (resume env f st).1 < remaining f)%nat.
Proof.
  destruct f as [service|service start r|service result|id|id|id|id result|id| |m];
    try done; intros _ _; simpl.
  - lia.
  - destruct r; simpl; lia.
  - unfold handle_result, _handle_failure. destruct (negb _); simpl; [|lia].
    destruct (already_tracking _ _); simpl; lia.
  - unfold trigger_alerting. destruct (active_incidents st !! id); simpl; [|lia].
    destruct (crew_import env (log st)); simpl; lia.
  - unfold trigger_investigating. destruct (active_incidents st !! id); simpl; [|lia].
    destruct (crew_build env (log st) _); simpl; lia.
  - unfold trigger_kickoff. destruct (active_incidents st !! id); simpl; [|lia].
    destruct (crew_kickoff env (log st) _); simpl; lia.
  - unfold trigger_resolved. destruct (active_incidents st !! id); simpl; lia.
  - unfold trigger_save. destruct (supabase_is_connected env); simpl; [|lia].
    destruct (supabase_save env (log st) id); simpl; lia.
Qed.

Lemma unfinished_frame fs :
  first_failed fs = None → forallb is_finished fs = false →
  ∃ i f, fs !! i = Some f ∧ is_finished f = false ∧ first_failed [f] = None.
Proof.
  induction fs as [|f fs IH]; [done|]. simpl. intros Hfail Hfin.
  destruct (is_finished f) eqn:Hf.
  - destruct f; try done. destruct (IH Hfail Hfin) as (i & g & ? & ? & ?).
    by exists (S i), g.
  - exists 0%nat, f. split; [done|]. split; [done|]. by destruct f.
Qed.

Lemma remaining_insert (fs : list frame) i f f' :
  fs !! i = Some f → (remaining f' < remaining f)%nat →
  (sum_list (remaining <$> <[i := f']> fs) < sum_list (remaining <$> fs))%nat.
Proof.
  revert i. induction fs as [|g fs IH]; intros [|i]; try done.
  - intros [= ->]. simpl. lia.
  - intros Hi Hlt. specialize (IH i Hi Hlt).
    change (remaining g + sum_list (remaining <$> <[i := f']> fs)
            < remaining g + sum_list (remaining <$> fs))%nat.
    lia.
Qed.

(** The coroutines of a pool can always be run to the end: some schedule
    makes [gather] join them or raise. *)
Lemma gather_terminates env sys :
  ∃ sched, (gather env sched sys).1.1 ≠ Pending.
Proof.
  remember (sum_list (remaining <$> pool sys)) as n eqn:Hn.
  revert sys Hn. induction n as [n IH] using lt_wf_ind. intros sys ->.
  destruct (first_failed (pool sys)) as [msg|] eqn:Hfail.
  { exists []. simpl. by rewrite Hfail. }
  destruct (forallb is_finished (pool sys)) eqn:Hfin.
  { exists []. simpl. by rewrite Hfail, Hfin. }
  destruct (unfinished_frame _ Hfail Hfin) as (i & f & Hi & Hf & Hnf).
  destruct (IH (sum_list (remaining <$> pool (act env (Resume i) sys))))
    with (sys := act env (Resume i) sys) as [sched Hsched]; [|done|].
  { simpl. rewrite Hi.
    pose proof (resume_progress env f (orch sys) Hf Hnf) as Hlt.
    destruct (resume env f (orch sys)) as [f' st']. simpl in *.
    by apply remaining_insert with f. }
  exists (Pick i :: sched). simpl gather. by rewrite Hfail, Hfin.
Qed.

Lemma run_loop_unfold env cycles sched sys :
  run_loop env (S cycles) sched sys =
  if negb (is_running (orch sys)) then (Returned, sys)
  else
    let '(joined, sched, sys) := cycle env sched sys in
    match joined with
    | Threw msg => (Raised msg, sys)
    | Pending => (Unfinished, sys)
    | Joined =>
        let sys := act env Sleep sys in
        let '(sched, sys) := asleep env sched sys in
        run_loop env cycles sched sys
    end.
Proof. reflexivity. Qed.


(** *** Examples *)




(** Two unhealthy probes of [api], one per cycle, with a crew that answers:
    each one creates an incident, two in all. *)
Lemma two_failures_two_incidents :
  let r := run (Demo.outage true) 2 (Demo.picks 16 0) Demo.one_service in
  size (incidents r.2) = 2%nat ∧
  Demo.statuses r.2 = [(1%N, 1%N, RESOLVED); (0%N, 1%N, RESOLVED)] ∧
  log (orch r.2) =
    [Printed "[INFO] Monitoring orchestrator started";
     ToolRun "https://api.example/health"; CrewImported;
     CrewBuilt "https://api.example/health"; CrewKickoff "https://api.example/health";
     Slept 30;
     ToolRun "https://api.example/health"; CrewImported;
     CrewBuilt "https://api.example/health"; CrewKickoff "https://api.example/health";
     Slept 30].
Proof. repeat split; by_vm. Qed.

(** While the incident of [api] is DETECTING, one more unhealthy result
    changes nothing. *)
Lemma at_most_one_open_incident_witness :
  let st := orch (exec (Demo.outage true) Demo.detection initial) in
  HealthCheckResult.is_healthy Demo.down_result = false ∧
  active_incidents st !! 0%N = Some Demo.detected_incident ∧
  handle_result (Demo.outage true) Demo.api Demo.down_result st = (Finished, st).
Proof.
  intros st.
  assert (H1 : HealthCheckResult.is_healthy Demo.down_result = false) by reflexivity.
  assert (H2 : active_incidents st !! 0%N = Some Demo.detected_incident) by by_vm.
  split; [exact H1|]. split; [exact H2|].
  apply (proj1 (proj2 (at_most_one_open_incident (Demo.outage true) Demo.detection)
                  Demo.api Demo.down_result H1)).
  exists 0%N, Demo.detected_incident. split; [exact H2|]. split; [reflexivity|done].
Defined.

Lemma status_never_moves_backward_witness :
  incidents (exec (Demo.outage true) Demo.detection initial) !! 0%N
    = Some Demo.detected_incident ∧
  (∀ a, ∃ inc',
     incidents (act (Demo.outage true) a (exec (Demo.outage true) Demo.detection initial))
       !! 0%N = Some inc' ∧
     advances DETECTING (Incident.status inc') ∧
     (DETECTING = RESOLVED → Incident.status inc' = RESOLVED)) ∧
  (∀ more, ∃ inc',
     incidents (exec (Demo.outage true) (Demo.detection ++ more) initial) !! 0%N
       = Some inc' ∧
     (status_rank DETECTING ≤ status_rank (Incident.status inc'))%nat ∧
     (DETECTING = RESOLVED → Incident.status inc' = RESOLVED)) ∧
  (∀ a k' new,
     incidents (exec (Demo.outage true) Demo.detection initial) !! k' = None →
     incidents (act (Demo.outage true) a (exec (Demo.outage true) Demo.detection initial))
       !! k' = Some new →
     Incident.status new = DETECTING).
Proof.
  assert (H : incidents (exec (Demo.outage true) Demo.detection initial) !! 0%N
              = Some Demo.detected_incident) by by_vm.
  split; [exact H|].
  exact (status_never_moves_backward (Demo.outage true) Demo.detection 0%N
           Demo.detected_incident H).
Defined.



(** With [api] every 30 s, [web] every 20 s and [batch] inactive, the loop
    sleeps 20 s after a cycle; with no active service it sleeps the default
    10 s. *)
Example min_interval_examples :
  min_interval Demo.calm Demo.three_services = 20 ∧
  min_interval Demo.calm (add_service Demo.calm Demo.batch init) = 10 ∧
  min_interval Demo.calm init = 10.
Proof. repeat split; by_vm. Qed.


(** *** More of the orchestrator *)

Lemma _emit_event_log t d st :
  log (_emit_event t d st) = log st ++ notifications t d (imap pair (_callbacks st)).
Proof.
  unfold _emit_event. generalize (imap pair (_callbacks st)). intros l.
  revert st. induction l as [|[i cb] l IH]; intros st; simpl; [by rewrite app_nil_r|].
  rewrite IH. destruct (cb t d); simpl; by rewrite <- !app_assoc.
Qed.

Lemma notifications_chatter t d cbs e :
  e ∈ notifications t d cbs → is_notified e || is_printed e = true.
Proof.
  induction cbs as [|[i cb] cbs IH]; simpl; [by intros ?%elem_of_nil|].
  intros [->|Hin]%elem_of_cons; [done|].
  apply elem_of_app in Hin as [Hin|Hin]; [|by apply IH].
  destruct (cb t d); [|by apply elem_of_nil in Hin].
  by apply list_elem_of_singleton in Hin as ->.
Qed.

Lemma notifications_notified t d (l : list callback) (g : nat → nat) :
  List.filter is_notified (notifications t d (imap (λ i cb, (g i, cb)) l))
  = imap (λ i _, Notified (g i) t d) l.
Proof.
  revert g. induction l as [|cb l IH]; intros g; simpl; [done|].
  f_equal. rewrite List.filter_app.
  assert (Hnone : List.filter is_notified
            match cb t d with
            | Some e => [Printed ("[ERROR] Event callback failed: " +:+ e)]
            | None => []
            end = []) by by destruct (cb t d).
  rewrite Hnone. simpl. apply (IH (g ∘ S)).
Qed.

Lemma notifications_printed t d (l : list callback) (g : nat → nat) :
  List.length (List.filter is_printed (notifications t d (imap (λ i cb, (g i, cb)) l)))
  = List.length (List.filter (raises t d) l).
Proof.
  revert g. induction l as [|cb l IH]; intros g; simpl; [done|].
  rewrite List.filter_app, length_app.
  specialize (IH (g ∘ S)).
  assert (Hr : raises t d cb = match cb t d with Some _ => true | None => false end)
    by done.
  rewrite Hr. destruct (cb t d); simpl; [exact (f_equal S IH)|exact IH].
Qed.

(** X14.  [_emit_event] calls every registered callback once, in the order
    of registration, with the event type and the data, whether or not the
    callbacks before it raise; it prints one line for each callback that
    raises, does nothing else to the outside, and leaves the services, the
    incidents, [is_running] and the callbacks as they are. *)
Theorem _emit_event_notifies_every_callback event_type data st :
  let st' := _emit_event event_type data st in
  ∃ new,
    log st' = log st ++ new ∧
    List.filter is_notified new
      = imap (λ i _, Notified i event_type data) (_callbacks st) ∧
    List.length (List.filter is_printed new)
      = List.length (List.filter (raises event_type data) (_callbacks st)) ∧
    (∀ e, e ∈ new → is_notified e || is_printed e = true) ∧
    services st' = services st ∧ active_incidents st' = active_incidents st ∧
    is_running st' = is_running st ∧ _callbacks st' = _callbacks st.
Proof.
  intros st'. exists (notifications event_type data (imap pair (_callbacks st))).
  split; [apply _emit_event_log|].
  split; [apply (notifications_notified _ _ _ id)|].
  split; [apply (notifications_printed _ _ _ id)|].
  split; [apply notifications_chatter|].
  destruct (_emit_event_same event_type data st) as (? & ? & ? & ? & _). done.
Qed.

(** X15.  [add_service] registers the service under its identifier;
    [remove_service] of a service that was just added, and was not
    registered before, gives the registry back as it was;
    [remove_service] of an identifier that is not registered changes
    nothing; neither touches the incidents. *)
Theorem remove_service_undoes_add_service env service st :
  services st !! ServiceConfig.id service = None →
  services (add_service env service st) !! ServiceConfig.id service = Some service ∧
  services (remove_service (ServiceConfig.id service) (add_service env service st))
    = services st ∧
  remove_service (ServiceConfig.id service) st = st ∧
  active_incidents (remove_service (ServiceConfig.id service) (add_service env service st))
    = active_incidents st.
Proof.
  intros Hnew.
  assert (Hs : services (add_service env service st)
               = <[ServiceConfig.id service := service]> (services st)).
  { unfold add_service. by destruct (enable_privacy_logging env). }
  assert (Hi : active_incidents (add_service env service st) = active_incidents st).
  { unfold add_service. by destruct (enable_privacy_logging env). }
  assert (Hr : remove_service (ServiceConfig.id service) (add_service env service st)
               = set_services (delete (ServiceConfig.id service)
                                 (services (add_service env service st)))
                   (add_service env service st)).
  { unfold remove_service at 1. by rewrite Hs, lookup_insert_eq. }
  split; [by rewrite Hs, lookup_insert_eq|].
  split; [rewrite Hr; simpl; by rewrite Hs, delete_insert_id|].
  split; [unfold remove_service; by rewrite Hnew|].
  rewrite Hr. done.
Qed.

Ltac split_in H :=
  repeat match type of H with
         | _ ∈ _ ++ _ => apply elem_of_app in H as [H|H]
         | _ ∈ [_] => apply list_elem_of_singleton in H; try discriminate H; try subst
         | _ ∈ notifications _ _ _ => apply notifications_chatter in H
         end.

Lemma resume_effects env f st e :
  e ∈ log (resume env f st).2 → e ∈ log st ∨ effect_of env f st e.
Proof.
  assert (Hchat : is_notified e || is_printed e = true → effect_of env f st e)
    by (by destruct e).
  destruct f as [service|service start r|service result|id|id|id|id result|id| |m];
    simpl; try (by left).
  - intros Hin. split_in Hin; [by left|]. right. simpl. eauto.
  - destruct r as [out|msg]; simpl; [|by left].
    rewrite _emit_event_log. simpl. intros Hin. split_in Hin; auto.
  - unfold handle_result, _handle_failure. destruct (negb _); [|by left].
    destruct (already_tracking _ _); [by left|]. simpl.
    rewrite _emit_event_log. simpl. intros Hin. split_in Hin; auto.
  - unfold trigger_alerting. destruct (active_incidents st !! id); [|by left].
    destruct (crew_import env (log st)); simpl.
    + intros Hin. split_in Hin; [by left|]. right. simpl. eauto.
    + rewrite _emit_event_log. simpl. intros Hin. split_in Hin; auto.
      right. simpl. eauto.
  - unfold trigger_investigating. destruct (active_incidents st !! id); [|by left].
    destruct (crew_build env (log st) _); simpl;
      intros Hin; split_in Hin; auto; right; simpl; eauto.
  - unfold trigger_kickoff. destruct (active_incidents st !! id) eqn:Hid; [|by left].
    destruct (crew_kickoff env (log st) _); simpl;
      intros Hin; split_in Hin; auto; right; simpl; eauto.
  - unfold trigger_resolved. destruct (active_incidents st !! id); [|by left].
    simpl. rewrite _emit_event_log. simpl. intros Hin. split_in Hin; auto.
  - unfold trigger_save. destruct (supabase_is_connected env) eqn:Hc; [|by left].
    destruct (supabase_save env (log st) id); simpl;
      intros Hin; split_in Hin; auto; right; simpl; eauto.
Qed.

Lemma call_effects env c st e :
  e ∈ log (call env c st) → e ∈ log st ∨ is_printed e = true.
Proof.
  destruct c as [service|service_id|cb|]; simpl; try (by left).
  - unfold add_service. destruct (enable_privacy_logging env); simpl; [|by left].
    intros Hin. split_in Hin; [by left|by right].
  - unfold remove_service. destruct (services st !! service_id); by left.
Qed.

Lemma resume_frame_service env f st s :
  frame_service (resume env f st).1 = Some s → frame_service f = Some s.
Proof.
  destruct f as [service|service start r|service result|id|id|id|id result|id| |m];
    simpl; try done.
  - by destruct r.
  - unfold handle_result, _handle_failure. destruct (negb _); [|done].
    by destruct (already_tracking _ _).
  - unfold trigger_alerting. destruct (active_incidents st !! id); [|done].
    by destruct (crew_import env (log st)).
  - unfold trigger_investigating. destruct (active_incidents st !! id); [|done].
    by destruct (crew_build env (log st) _).
  - unfold trigger_kickoff. destruct (active_incidents st !! id); [|done].
    by destruct (crew_kickoff env (log st) _).
  - unfold trigger_resolved. by destruct (active_incidents st !! id).
  - unfold trigger_save. destruct (supabase_is_connected env); [|done].
    by destruct (supabase_save env (log st) id).
Qed.

Lemma started_snoc env acts a s : started env acts s → started env (acts ++ [a]) s.
Proof.
  intros (acts1 & acts2 & k & -> & Hk & Ha).
  exists acts1, (acts2 ++ [a]), k. split; [by rewrite <- app_assoc|done].
Qed.

Lemma probes_inv env acts :
  (∀ i f s, pool (exec env acts initial) !! i = Some f →
            frame_service f = Some s → started env acts s) ∧
  (∀ url, ToolRun url ∈ log (orch (exec env acts initial)) →
          ∃ s, started env acts s ∧ ServiceConfig.url s = url).
Proof.
  induction acts as [|a acts [IHf IHl]] using rev_ind.
  { split; [done|]. by intros url ?%elem_of_nil. }
  rewrite exec_snoc. set (sys := exec env acts initial) in *.
  assert (Hf : ∀ i f s, pool sys !! i = Some f → frame_service f = Some s →
                        started env (acts ++ [a]) s)
    by (intros; eapply started_snoc, IHf; eauto).
  assert (Hl : ∀ url, ToolRun url ∈ log (orch sys) →
                      ∃ s, started env (acts ++ [a]) s ∧ ServiceConfig.url s = url).
  { intros url Hin. destruct (IHl url Hin) as (s & ? & ?).
    exists s. split; [by apply started_snoc|done]. }
  destruct a as [|i|c|]; simpl.
  - split; [|done]. intros i f s Hi Hs.
    unfold cycle_tasks in Hi. rewrite list_lookup_fmap in Hi.
    destruct (active_services (orch sys) !! i) as [s'|] eqn:Hact; [|done].
    injection Hi as <-. injection Hs as ->.
    apply list_elem_of_lookup_2, elem_of_active_services in Hact as (k & Hk & Ha).
    exists acts, [], k. done.
  - destruct (pool sys !! i) as [f0|] eqn:Hi; [|done].
    pose proof (resume_frame_service env f0 (orch sys)) as Hfs.
    pose proof (resume_effects env f0 (orch sys)) as Heff.
    destruct (resume env f0 (orch sys)) as [f' st']. simpl in *. split.
    + intros j g s Hj Hg.
      destruct (pool_lookup_insert _ _ _ _ _ _ Hi Hj) as [[-> ->]|[_ Hj']]; eauto.
    + intros url Hin. destruct (Heff _ Hin) as [?|(s & -> & ->)]; [eauto|].
      exists s. split; [|done]. by eapply Hf.
  - split; [done|]. intros url Hin.
    destruct (call_effects _ _ _ _ Hin) as [?|?]; [eauto|done].
  - split; [done|]. intros url Hin. split_in Hin; eauto.
Qed.

(** X16.  The health-check tool is run only for services that were
    registered and active when a cycle of [run] started: every tool run of
    an execution is for the URL of such a service. *)
Theorem only_active_services_are_probed env acts url :
  ToolRun url ∈ log (orch (exec env acts initial)) →
  ∃ acts1 acts2 k s,
    acts = acts1 ++ StartCycle :: acts2 ∧
    services (orch (exec env acts1 initial)) !! k = Some s ∧
    ServiceConfig.is_active s = true ∧
    ServiceConfig.url s = url.
Proof.
  intros Hin. destruct (probes_inv env acts) as [_ Hl].
  destruct (Hl url Hin) as (s & (acts1 & acts2 & k & ? & ? & ?) & ?).
  by exists acts1, acts2, k, s.
Qed.

Lemma resume_quiet env f st :
  always_healthy env → quiet f →
  quiet (resume env f st).1 ∧
  active_incidents (resume env f st).2 = active_incidents st.
Proof.
  intros Hh Hq.
  destruct f as [service|service start r|service result|id|id|id|id result|id| |m];
    try done; simpl.
  - split; [|done]. apply Hh.
  - destruct Hq as (out & -> & Hout). simpl. emit. done.
  - simpl in Hq. unfold handle_result. by rewrite Hq.
Qed.

Lemma healthy_inv env acts :
  always_healthy env →
  incidents (exec env acts initial) = ∅ ∧
  (∀ i f, pool (exec env acts initial) !! i = Some f → quiet f) ∧
  (∀ e, e ∈ log (orch (exec env acts initial)) → is_response e = false).
Proof.
  intros Hh. induction acts as [|a acts (IHi & IHf & IHl)] using rev_ind.
  { split; [done|]. split; [done|]. by intros e ?%elem_of_nil. }
  rewrite exec_snoc. set (sys := exec env acts initial) in *.
  destruct a as [|i|c|]; simpl.
  - split; [done|]. split; [|done]. intros i f.
    unfold cycle_tasks. rewrite list_lookup_fmap.
    destruct (active_services (orch sys) !! i); [|done]. by intros [= <-].
  - destruct (pool sys !! i) as [f0|] eqn:Hi; [|done].
    destruct (resume_quiet env f0 (orch sys) Hh (IHf _ _ Hi)) as [Hq Hinc].
    pose proof (resume_effects env f0 (orch sys)) as Heff.
    destruct (resume env f0 (orch sys)) as [f' st']. simpl in *.
    split; [by rewrite Hinc|]. split.
    + intros j g Hj.
      destruct (pool_lookup_insert _ _ _ _ _ _ Hi Hj) as [[-> ->]|[_ Hj']]; eauto.
    + intros e Hin. destruct (Heff _ Hin) as [?|He]; [eauto|].
      specialize (IHf _ _ Hi).
      destruct e; simpl in *; try done.
      * by destruct He as (? & ->).
      * by destruct He as (? & ->).
      * by destruct He as (? & ? & -> & _).
      * by destruct He as (-> & _).
  - destruct (call_same env c (orch sys)) as (-> & _).
    split; [done|]. split; [done|]. intros e Hin.
    destruct (call_effects _ _ _ _ Hin) as [?|?]; [eauto|by destruct e].
  - split; [done|]. split; [done|]. intros e Hin. split_in Hin; eauto.
Qed.

(** X17.  As long as the tool reports every service as healthy, no
    incident is ever created, the crew is never imported, built or started,
    and nothing is persisted. *)
Theorem healthy_services_raise_no_incident env acts :
  always_healthy env →
  incidents (exec env acts initial) = ∅ ∧
  ∀ e, e ∈ log (orch (exec env acts initial)) → is_response e = false.
Proof. intros Hh. destruct (healthy_inv env acts Hh) as (? & _ & ?). done. Qed.

Lemma consistent_insert (m : gmap UUID Incident.t) id inc' :
  (∀ k inc, m !! k = Some inc → consistent k inc) →
  consistent id inc' →
  ∀ k inc, <[id := inc']> m !! k = Some inc → consistent k inc.
Proof.
  intros Hm Hnew k inc. destruct (decide (k = id)) as [->|Hne].
  - rewrite lookup_insert_eq. by intros [= <-].
  - rewrite lookup_insert_ne by done. apply Hm.
Qed.

Lemma consistent_resume env sys i f :
  Inv env sys → pool sys !! i = Some f →
  (∀ k inc, incidents sys !! k = Some inc → consistent k inc) →
  ∀ k inc, active_incidents (resume env f (orch sys)).2 !! k = Some inc →
           consistent k inc.
Proof.
  intros HI Hi Hc.
  assert (Hown : ∀ id s, owner f = Some (id, s) →
            ∃ inc, incidents sys !! id = Some inc ∧ Incident.status inc = s ∧
                   consistent id inc).
  { intros id s Ho. destruct (inv_owned _ _ HI i f id s Hi Ho) as (inc & Hk & Hs).
    exists inc. eauto. }
  set (st := orch sys) in *.
  destruct f as [service|service start r|service result|id|id|id|id result|id| |m];
    simpl; try done.
  - destruct r as [out|msg]; simpl; [|done]. by emit.
  - unfold handle_result, _handle_failure. destruct (negb _); [|done].
    destruct (already_tracking _ _); [done|]. simpl. emit. simpl.
    apply consistent_insert; [done|].
    split; simpl; try done.
    + destruct (HealthCheckResult.status_code result) as [c|].
      * destruct (negb (c =? 0) && (500 <=? c)) eqn:E.
        -- split; [|done]. intros _. exists c. split; [done|].
           apply andb_true_iff in E as [_ E]. lia.
        -- split; [done|]. intros (c' & [= <-] & Hc').
           apply andb_false_iff in E as [E|E].
           ++ apply negb_false_iff in E. lia.
           ++ lia.
      * split; [done|]. by intros (c & ? & _).
  - destruct (Hown id DETECTING eq_refl) as (inc0 & Hk & Hs & [Hid Hsev Htl Hres Hopen]).
    unfold trigger_alerting. rewrite Hk.
    destruct (crew_import env (log st)); simpl; [done|]. emit. simpl.
    apply consistent_insert; [done|].
    split; simpl; try done.
    + unfold event_types in *. simpl. rewrite fmap_app, Htl, Hs. done.
    + intros _. apply Hopen. by rewrite Hs.
  - destruct (Hown id ALERTING eq_refl) as (inc0 & Hk & Hs & [Hid Hsev Htl Hres Hopen]).
    unfold trigger_investigating. rewrite Hk.
    destruct (crew_build env (log st) _); simpl; [done|].
    apply consistent_insert; [done|].
    split; simpl; try done.
    + unfold event_types in *. simpl. rewrite fmap_app, Htl, Hs. done.
    + intros _. apply Hopen. by rewrite Hs.
  - unfold trigger_kickoff. destruct (active_incidents st !! id); [|done].
    by destruct (crew_kickoff env (log st) _).
  - destruct (Hown id INVESTIGATING eq_refl)
      as (inc0 & Hk & Hs & [Hid Hsev Htl Hres Hopen]).
    unfold trigger_resolved. rewrite Hk. simpl. emit. simpl.
    apply consistent_insert; [done|].
    split; simpl; try done.
    + unfold event_types in *. simpl. rewrite fmap_app, Htl, Hs. done.
    + intros _. eauto.
  - unfold trigger_save. destruct (supabase_is_connected env); [|done].
    by destruct (supabase_save env (log st) id).
Qed.

Lemma consistent_reachable env acts k inc :
  incidents (exec env acts initial) !! k = Some inc → consistent k inc.
Proof.
  revert k inc. induction acts as [|a acts IH] using rev_ind; [done|].
  rewrite exec_snoc. pose proof (Inv_reachable env acts) as HI.
  set (sys := exec env acts initial) in *.
  destruct a as [|i|c|]; simpl; try done.
  - destruct (pool sys !! i) as [f|] eqn:Hi; [|done].
    pose proof (consistent_resume env sys i f HI Hi IH) as Hres.
    by destruct (resume env f (orch sys)).
  - by destruct (call_same env c (orch sys)) as (-> & _).
Qed.

(** X18.  Every incident is stored under its own identifier, and its
    severity is HIGH exactly when it was detected with an error code of 500
    or more (MEDIUM when there was no status code or a lower one), whatever
    happened to it since. *)
Theorem severity_is_high_from_500 env acts k inc :
  incidents (exec env acts initial) !! k = Some inc →
  Incident.id inc = k ∧
  (Incident.severity inc = HIGH ↔ ∃ c, Incident.error_code inc = Some c ∧ 500 ≤ c).
Proof. intros H. by destruct (consistent_reachable env acts k inc H). Qed.

(** X19.  An incident has an action plan exactly when it is RESOLVED, and a
    time of resolution exactly when it is RESOLVED; its [mttr_seconds] is
    then that time minus [detected_at]. *)
Theorem resolved_incident_has_plan env acts k inc :
  incidents (exec env acts initial) !! k = Some inc →
  (Incident.status inc = RESOLVED ↔ is_Some (Incident.action_plan inc)) ∧
  (Incident.status inc = RESOLVED ↔ is_Some (Incident.resolved_at inc)) ∧
  (∀ t, Incident.resolved_at inc = Some t →
        Incident.mttr_seconds inc = Some (t - Incident.detected_at inc)).
Proof.
  intros H. destruct (consistent_reachable env acts k inc H) as [_ _ _ Hres Hopen].
  destruct (decide (Incident.status inc = RESOLVED)) as [Hs|Hs].
  - destruct (Hres Hs) as (t & plan & Ht & Hp & Hm).
    rewrite Ht, Hp. split; [done|]. split; [done|]. by intros ? [= <-].
  - destruct (Hopen Hs) as [Ht Hp]. rewrite Ht, Hp.
    split; [split; [done|by intros [? ?]]|].
    split; [split; [done|by intros [? ?]]|]. done.
Qed.

(** X20.  The timeline of an incident has one event for each state it has
    gone through, in order: [detected], then [alerting], [investigating]
    and [resolved], up to its current status. *)
Theorem timeline_follows_status env acts k inc :
  incidents (exec env acts initial) !! k = Some inc →
  event_types inc = take (S (status_rank (Incident.status inc))) lifecycle.
Proof. intros H. by destruct (consistent_reachable env acts k inc H). Qed.

Lemma resume_to_save env f st id :
  (resume env f st).1 = AtSave id →
  ∃ inc, active_incidents (resume env f st).2 !! id = Some inc ∧
         Incident.status inc = RESOLVED.
Proof.
  destruct f as [service|service start r|service result|id0|id0|id0|id0 result|id0| |m];
    simpl; try done.
  - by destruct r.
  - unfold handle_result, _handle_failure. destruct (negb _); [|done].
    by destruct (already_tracking _ _).
  - unfold trigger_alerting. destruct (active_incidents st !! id0); [|done].
    by destruct (crew_import env (log st)).
  - unfold trigger_investigating. destruct (active_incidents st !! id0); [|done].
    by destruct (crew_build env (log st) _).
  - unfold trigger_kickoff. destruct (active_incidents st !! id0); [|done].
    by destruct (crew_kickoff env (log st) _).
  - unfold trigger_resolved. destruct (active_incidents st !! id0); [|done].
    simpl. intros [= <-]. emit. simpl. rewrite lookup_insert_eq. by eexists.
  - unfold trigger_save. destruct (supabase_is_connected env); [|done].
    by destruct (supabase_save env (log st) id0).
Qed.

Lemma resolved_stays env a sys id :
  Inv env sys →
  (∃ inc, incidents sys !! id = Some inc ∧ Incident.status inc = RESOLVED) →
  ∃ inc, incidents (act env a sys) !! id = Some inc ∧ Incident.status inc = RESOLVED.
Proof.
  intros HI (inc & Hk & Hs).
  destruct (act_incident env a sys id inc HI Hk) as (inc' & Hk' & _ & Hadv & _).
  exists inc'. split; [done|]. rewrite Hs in Hadv. by destruct Hadv.
Qed.

Lemma persisted_inv env acts :
  (∀ i id, pool (exec env acts initial) !! i = Some (AtSave id) →
           ∃ inc, incidents (exec env acts initial) !! id = Some inc ∧
                  Incident.status inc = RESOLVED) ∧
  (∀ id, Persisted id ∈ log (orch (exec env acts initial)) →
         supabase_is_connected env = true ∧
         ∃ inc, incidents (exec env acts initial) !! id = Some inc ∧
                Incident.status inc = RESOLVED).
Proof.
  induction acts as [|a acts [IHf IHl]] using rev_ind.
  { split; [done|]. by intros id ?%elem_of_nil. }
  rewrite exec_snoc. pose proof (Inv_reachable env acts) as HI.
  set (sys := exec env acts initial) in *.
  pose proof (resolved_stays env a sys) as Hstay.
  destruct a as [|i|c|]; simpl in *.
  - split; [|intros id Hin; destruct (IHl id Hin); eauto].
    intros i id. unfold cycle_tasks. rewrite list_lookup_fmap.
    by destruct (active_services (orch sys) !! i).
  - destruct (pool sys !! i) as [f0|] eqn:Hi; [|by split].
    pose proof (resume_to_save env f0 (orch sys)) as Hsave.
    pose proof (resume_effects env f0 (orch sys)) as Heff.
    destruct (resume env f0 (orch sys)) as [f' st']. simpl in *. split.
    + intros j id Hj.
      destruct (pool_lookup_insert _ _ _ _ _ _ Hi Hj) as [[-> <-]|[_ Hj']]; eauto.
    + intros id Hin. destruct (Heff _ Hin) as [Hold|[-> Hc]].
      * destruct (IHl id Hold). eauto.
      * split; [done|]. eauto.
  - split; [intros i id Hi; eauto|].
    intros id Hin. destruct (call_effects _ _ _ _ Hin) as [Hold|?]; [|done].
    destruct (IHl id Hold). eauto.
  - split; [intros i id Hi; eauto|].
    intros id Hin. split_in Hin. destruct (IHl id Hin). eauto.
Qed.

(** X22.  An incident is persisted only when the persistence client is
    connected, and only once it is RESOLVED and has its action plan. *)
Theorem only_resolved_incidents_are_persisted env acts id :
  Persisted id ∈ log (orch (exec env acts initial)) →
  supabase_is_connected env = true ∧
  ∃ inc plan,
    incidents (exec env acts initial) !! id = Some inc ∧
    Incident.status inc = RESOLVED ∧
    Incident.action_plan inc = Some plan.
Proof.
  intros Hin. destruct (persisted_inv env acts) as [_ Hl].
  destruct (Hl id Hin) as (Hc & inc & Hk & Hs). split; [done|].
  destruct (consistent_reachable env acts id inc Hk) as [_ _ _ Hres _].
  destruct (Hres Hs) as (t & plan & _ & Hp & _). by exists inc, plan.
Qed.








(** The calls from outside that arrive during the sleep leave the
    coroutines and the incidents alone, run no tool, and cannot restart a
    loop that was stopped. *)
Lemma asleep_calls env sched sys :
  pool (asleep env sched sys).2 = pool sys ∧
  incidents (asleep env sched sys).2 = incidents sys ∧
  (is_running (orch sys) = false → is_running (orch (asleep env sched sys).2) = false) ∧
  (∀ e, e ∈ log (orch (asleep env sched sys).2) →
        e ∈ log (orch sys) ∨ is_printed e = true).
Proof.
  revert sys. induction sched as [|[i|c] sched IH]; intros sys; simpl; try by auto.
  destruct (IH (act env (Call c) sys)) as (Hp & Hi & Hr & Hl). simpl in *.
  destruct (call_same env c (orch sys)) as (Hinc & _).
  split; [done|]. split; [by rewrite Hi|]. split.
  - intros Hstop. apply Hr. destruct c as [service|service_id|cb|]; simpl; try done.
    + unfold add_service. by destruct (enable_privacy_logging env).
    + unfold remove_service. by destruct (services (orch sys) !! service_id).
  - intros e Hin. destruct (Hl e Hin) as [Hc|?]; [|by right].
    by apply call_effects in Hc.
Qed.

(** X23.  A [stop()] that arrives while [run] sleeps ends the loop when the
    sleep is over: [run] returns without starting another cycle, so without
    another tool run; the coroutines and the incidents are as the last
    cycle left them. *)
Theorem stop_during_sleep_ends_run env cycles sched sched' sys sys1 :
  is_running (orch sys) = true →
  cycle env sched sys = (Joined, Outside CallStop :: sched', sys1) →
  ∃ sys2,
    run_loop env (S (S cycles)) sched sys = (Returned, sys2) ∧
    is_running (orch sys2) = false ∧
    pool sys2 = pool sys1 ∧
    incidents sys2 = incidents sys1 ∧
    ∀ url, ToolRun url ∈ log (orch sys2) → ToolRun url ∈ log (orch sys1).
Proof.
  intros Hrun Hcycle. rewrite run_loop_unfold, Hrun, Hcycle. simpl negb.
  cbv iota beta zeta.
  set (slept := act env Sleep sys1).
  change (asleep env (Outside CallStop :: sched') slept)
    with (asleep env sched' (act env (Call CallStop) slept)).
  set (stopped := act env (Call CallStop) slept).
  destruct (asleep_calls env sched' stopped) as (Hp & Hi & Hr & Hl).
  destruct (asleep env sched' stopped) as [sched2 sys2] eqn:Hasleep.
  simpl in Hp, Hi, Hr, Hl.
  exists sys2. rewrite run_loop_unfold, (Hr eq_refl). simpl.
  split; [done|]. split; [done|]. split; [done|]. split; [done|].
  intros url Hin. destruct (Hl _ Hin) as [Hold|?]; [|done].
  split_in Hold. done.
Qed.


Lemma append_assoc (a b c : string) : (a +:+ b) +:+ c = a +:+ (b +:+ c).
Proof.
  induction a as [|x a IH]; [done|].
  change (String x ((a +:+ b) +:+ c) = String x (a +:+ (b +:+ c))). by f_equal.
Qed.







(** *** More examples *)

(** [api] is added to an empty registry and removed again. *)
Lemma remove_service_undoes_add_service_witness :
  services init !! ServiceConfig.id Demo.api = None ∧
  services (add_service Demo.calm Demo.api init) !! ServiceConfig.id Demo.api
    = Some Demo.api ∧
  services (remove_service (ServiceConfig.id Demo.api)
              (add_service Demo.calm Demo.api init)) = services init ∧
  remove_service (ServiceConfig.id Demo.api) init = init ∧
  active_incidents (remove_service (ServiceConfig.id Demo.api)
                      (add_service Demo.calm Demo.api init)) = active_incidents init.
Proof.
  assert (H : services init !! ServiceConfig.id Demo.api = None) by reflexivity.
  split; [exact H|].
  exact (remove_service_undoes_add_service Demo.calm Demo.api init H).
Defined.

(** The tool run of [detection] is for [api], registered and active when the
    cycle started. *)
Lemma only_active_services_are_probed_witness :
  let url := "https://api.example/health" in
  log (orch (exec Demo.calm Demo.detection initial)) = [ToolRun url] ∧
  ToolRun url ∈ log (orch (exec Demo.calm Demo.detection initial)) ∧
  ∃ acts1 acts2 k s,
    Demo.detection = acts1 ++ StartCycle :: acts2 ∧
    services (orch (exec Demo.calm acts1 initial)) !! k = Some s ∧
    ServiceConfig.is_active s = true ∧
    ServiceConfig.url s = url.
Proof.
  intros url.
  assert (Hlog : log (orch (exec Demo.calm Demo.detection initial)) = [ToolRun url])
    by by_vm.
  assert (Hin : ToolRun url ∈ log (orch (exec Demo.calm Demo.detection initial)))
    by exact (eq_ind_r (λ l, ToolRun url ∈ l) (list_elem_of_here _ _) Hlog).
  split; [exact Hlog|]. split; [exact Hin|].
  exact (only_active_services_are_probed Demo.calm Demo.detection url Hin).
Defined.

Lemma calm_always_healthy : always_healthy Demo.calm.
Proof.
  intros effects url. exists "Status Code: 200". split; [reflexivity|by_vm].
Defined.

(** In the world [calm] the probe of [api] creates no incident. *)
Lemma healthy_services_raise_no_incident_witness :
  always_healthy Demo.calm ∧
  incidents (exec Demo.calm Demo.detection initial) = ∅ ∧
  ∀ e, e ∈ log (orch (exec Demo.calm Demo.detection initial)) → is_response e = false.
Proof.
  split; [exact calm_always_healthy|].
  exact (healthy_services_raise_no_incident Demo.calm Demo.detection calm_always_healthy).
Defined.

(** The incident of [api], detected with a 500, is HIGH. *)
Lemma severity_is_high_from_500_witness :
  incidents (exec (Demo.outage true) Demo.detection initial) !! 0%N
    = Some Demo.detected_incident ∧
  Incident.id Demo.detected_incident = 0%N ∧
  (Incident.severity Demo.detected_incident = HIGH ↔
   ∃ c, Incident.error_code Demo.detected_incident = Some c ∧ 500 ≤ c).
Proof.
  assert (H : incidents (exec (Demo.outage true) Demo.detection initial) !! 0%N
              = Some Demo.detected_incident) by by_vm.
  split; [exact H|].
  exact (severity_is_high_from_500 (Demo.outage true) Demo.detection 0%N
           Demo.detected_incident H).
Defined.

(** The incident of [api] after the response: resolved five milliseconds
    after its detection, with the plan of the crew. *)
Lemma resolved_incident_has_plan_witness :
  incidents (exec Demo.saved Demo.response initial) !! 0%N
    = Some Demo.resolved_incident ∧
  (Incident.status Demo.resolved_incident = RESOLVED ↔
   is_Some (Incident.action_plan Demo.resolved_incident)) ∧
  (Incident.status Demo.resolved_incident = RESOLVED ↔
   is_Some (Incident.resolved_at Demo.resolved_incident)) ∧
  (∀ t, Incident.resolved_at Demo.resolved_incident = Some t →
        Incident.mttr_seconds Demo.resolved_incident
          = Some (t - Incident.detected_at Demo.resolved_incident)).
Proof.
  assert (H : incidents (exec Demo.saved Demo.response initial) !! 0%N
              = Some Demo.resolved_incident) by by_vm.
  split; [exact H|].
  exact (resolved_incident_has_plan Demo.saved Demo.response 0%N Demo.resolved_incident H).
Defined.

(** The timeline of the resolved incident of [api] has the four events. *)
Lemma timeline_follows_status_witness :
  incidents (exec Demo.saved Demo.response initial) !! 0%N
    = Some Demo.resolved_incident ∧
  event_types Demo.resolved_incident
    = take (S (status_rank (Incident.status Demo.resolved_incident))) lifecycle.
Proof.
  assert (H : incidents (exec Demo.saved Demo.response initial) !! 0%N
              = Some Demo.resolved_incident) by by_vm.
  split; [exact H|].
  exact (timeline_follows_status Demo.saved Demo.response 0%N Demo.resolved_incident H).
Defined.

(** The incident of [api] is persisted at the end of the response. *)
Lemma only_resolved_incidents_are_persisted_witness :
  let url := "https://api.example/health" in
  log (orch (exec Demo.saved Demo.response initial))
    = [ToolRun url; CrewImported; CrewBuilt url; CrewKickoff url; Persisted 0] ∧
  Persisted 0 ∈ log (orch (exec Demo.saved Demo.response initial)) ∧
  supabase_is_connected Demo.saved = true ∧
  ∃ inc plan,
    incidents (exec Demo.saved Demo.response initial) !! 0%N = Some inc ∧
    Incident.status inc = RESOLVED ∧
    Incident.action_plan inc = Some plan.
Proof.
  intros url.
  assert (Hlog : log (orch (exec Demo.saved Demo.response initial))
                 = [ToolRun url; CrewImported; CrewBuilt url; CrewKickoff url;
                    Persisted 0]) by by_vm.
  assert (Hmem : Persisted 0 ∈ [ToolRun url; CrewImported; CrewBuilt url;
                                CrewKickoff url; Persisted 0])
    by (do 4 apply list_elem_of_further; apply list_elem_of_here).
  assert (Hin : Persisted 0 ∈ log (orch (exec Demo.saved Demo.response initial)))
    by exact (eq_ind_r (λ l, Persisted 0 ∈ l) Hmem Hlog).
  split; [exact Hlog|]. split; [exact Hin|].
  exact (only_resolved_incidents_are_persisted Demo.saved Demo.response 0%N Hin).
Defined.

Lemma cycle_result_eq (c : gather_outcome * list choice * System) o sched :
  c.1.1 = o → c.1.2 = sched → c = (o, sched, c.2).
Proof. destruct c as [[o' s] y]. simpl. by intros -> ->. Qed.

(** [stop()] arrives while the loop sleeps after its first cycle: [run]
    returns, and [api] has been probed once. *)
Lemma stop_during_sleep_ends_run_witness :
  let sched := Demo.picks 3 0 ++ [Outside CallStop] in
  let c := cycle Demo.calm sched Demo.running in
  is_running (orch Demo.running) = true ∧
  cycle Demo.calm sched Demo.running = (Joined, [Outside CallStop], c.2) ∧
  ∃ sys2,
    run_loop Demo.calm 3 sched Demo.running = (Returned, sys2) ∧
    is_running (orch sys2) = false ∧
    pool sys2 = pool c.2 ∧
    incidents sys2 = incidents c.2 ∧
    ∀ url, ToolRun url ∈ log (orch sys2) → ToolRun url ∈ log (orch c.2).
Proof.
  intros sched c.
  assert (Hrun : is_running (orch Demo.running) = true) by reflexivity.
  assert (Ho : c.1.1 = Joined) by by_vm.
  assert (Hs : c.1.2 = [Outside CallStop]) by by_vm.
  pose proof (cycle_result_eq c _ _ Ho Hs) as Hcycle.
  split; [exact Hrun|]. split; [exact Hcycle|].
  exact (stop_during_sleep_ends_run Demo.calm 1 sched [] Demo.running c.2 Hrun Hcycle).
Defined.


End OrchestratorSpec.
